(** * A size-aware LRU cache: model and verification

    Shallow embedding of [Challenge-1/Task-2/LRUCache.hpp].

    Modelling conventions.
    - [int64_t] values (sizes, total size, limits, timestamps) are [Z].
      Signed overflow is undefined in C++, so no wrap-around is written
      out: the arithmetic below is the mathematical one, and it is that
      of the compiled program as long as the sums and differences formed
      on [mTotalSize] stay in the range of [int64_t] ([int64]).  The
      theorems on the accounting of [mTotalSize] carry that range as a
      hypothesis.
    - [std::time(nullptr)] is an input: every operation receives the
      readings of the clock it makes, in order.
    - The payload behind a [std::weak_ptr<ElementType>] is a handle
      ([Payload]); whether [lock()] still succeeds is decided by the
      owner of the payloads, an input [alive] of the operations.
    - [LRUCacheElement] objects are shared between [mElementList] and
      [mElementMap] through [std::shared_ptr].  An object is allocated in
      [updateElement] together with its slot in [mElementMap] and is never
      stored under another key, so the object store is [mElementMap]
      itself and the list holds the keys of the objects as handles.  The
      iterator [mElementInListIterator] of an object is the position of
      its handle in the list.  A handle whose key is missing from the map
      does not arise ([wf] holds of every reachable cache, [wf_run]).
    - Dereferencing a null [shared_ptr] (what [mElementMap[k]] yields for
      an absent key) or an empty container is undefined behaviour; the
      model reports it as [Fault] (or [None] for one iteration).

    The decompression routine of [Challenge-2/DecompressAlgo.cpp] and the
    string class of [Challenge-1/Task-1/String.hpp] are embedded in the
    modules [Decompress] and [UserDefined], with their conventions
    there. *)

From stdpp Require Import base option list sorting gmap fin_maps strings.

Set Warnings "-clear-no-such-hyp".

Local Open Scope Z_scope.

(** ** The std::multimap<int64_t, PrimaryKeyType> of sizes

    A multimap is the list of its records in iteration order: ascending
    size, records of equal size in insertion order (guaranteed since
    C++11). *)

Module Multimap.

Definition t := list (Z * Z).

(** [insert({size, key})]: the record goes to the upper bound of its
    size. *)
Fixpoint insert (r : Z * Z) (m : t) : t :=
  match m with
  | [] => [r]
  | x :: m' => if fst r <? fst x then r :: x :: m' else x :: insert r m'
  end.

(** [find(size)]: the record the returned iterator points to.  The
    standard library implementations search with lower_bound, so this is
    the first record of that size. *)
Fixpoint find (sz : Z) (m : t) : option (Z * Z) :=
  match m with
  | [] => None
  | x :: m' => if fst x =? sz then Some x else find sz m'
  end.

(** [erase(find(size))], and also [erase(equal_range(size).first)]. *)
Fixpoint erase_first (sz : Z) (m : t) : t :=
  match m with
  | [] => []
  | x :: m' => if fst x =? sz then m' else x :: erase_first sz m'
  end.

(** The loop of [updateElement] over [equal_range(size)]: erase the
    first record of that size whose value is [key], then stop. *)
Fixpoint erase_record (sz key : Z) (m : t) : t :=
  match m with
  | [] => []
  | x :: m' =>
      if (fst x =? sz) && (snd x =? key) then m'
      else x :: erase_record sz key m'
  end.

(** [rbegin()]: the last record, of the largest size. *)
Definition rbegin (m : t) : option (Z * Z) := last m.

(** The keys recorded in the multimap. *)
Definition keys (m : t) : list Z := snd <$> m.

(** The representation invariant: ascending sizes. *)
Definition sorted (m : t) : Prop := StronglySorted Z.le (fst <$> m).

End Multimap.

(** ** LRUCacheElement *)

Definition Payload := nat.

Record LRUCacheElement := {
  mLastAccessTime : Z;
  mElementSize : Z;
  mWeakPointerElement : Payload;
  mPrimaryKey : Z
}.

(** The constructor: time and size start at 0. *)
Definition LRUCacheElement_new (element : Payload) (primaryKey : Z) : LRUCacheElement :=
  {| mLastAccessTime := 0; mElementSize := 0;
     mWeakPointerElement := element; mPrimaryKey := primaryKey |}.

Definition updateAccessTime (now : Z) (e : LRUCacheElement) : LRUCacheElement :=
  {| mLastAccessTime := now; mElementSize := mElementSize e;
     mWeakPointerElement := mWeakPointerElement e; mPrimaryKey := mPrimaryKey e |}.

Definition setSize (size : Z) (e : LRUCacheElement) : LRUCacheElement :=
  {| mLastAccessTime := mLastAccessTime e; mElementSize := size;
     mWeakPointerElement := mWeakPointerElement e; mPrimaryKey := mPrimaryKey e |}.

(** [getWeakPointerElement().lock()]: the payload if its owner still holds
    it, [nullptr] otherwise. *)
Definition lock (alive : Payload → bool) (e : LRUCacheElement) : option Payload :=
  if alive (mWeakPointerElement e) then Some (mWeakPointerElement e) else None.

(** ** LRUCache *)

Record LRUCache := {
  mElementList : list Z;
  mElementMap : gmap Z LRUCacheElement;
  mElementSizeMap : Multimap.t;
  mTotalSize : Z;
  mMaxSizeSoftLimit : Z;
  mMaxSizeHardLimit : Z;
  mTimeThresholdSec : Z;
  mCleanScheduleIntervalMs : Z
}.

(** The constructor (the cleaner thread it may start is modelled apart,
    see [runCleanerThreadLoop]). *)
Definition LRUCache_new (softSizeLimit hardSizeLimit timeThresholdSec cleaningIntervalMs : Z)
  : LRUCache :=
  {| mElementList := []; mElementMap := ∅; mElementSizeMap := []; mTotalSize := 0;
     mMaxSizeSoftLimit := softSizeLimit; mMaxSizeHardLimit := hardSizeLimit;
     mTimeThresholdSec := timeThresholdSec;
     mCleanScheduleIntervalMs := cleaningIntervalMs |}.

Definition getSoftMaxSize (c : LRUCache) : Z := mMaxSizeSoftLimit c.
Definition getMaxSize (c : LRUCache) : Z := mMaxSizeHardLimit c.
Definition getTimeThreshold (c : LRUCache) : Z := mTimeThresholdSec c.
Definition getCleaningInterval (c : LRUCache) : Z := mCleanScheduleIntervalMs c.
Definition getNumberOfElements (c : LRUCache) : nat := length (mElementList c).

(** The cache with its four mutable members replaced. *)
Definition set_indices (c : LRUCache) (l : list Z) (m : gmap Z LRUCacheElement)
    (sm : Multimap.t) (total : Z) : LRUCache :=
  {| mElementList := l; mElementMap := m; mElementSizeMap := sm; mTotalSize := total;
     mMaxSizeSoftLimit := mMaxSizeSoftLimit c; mMaxSizeHardLimit := mMaxSizeHardLimit c;
     mTimeThresholdSec := mTimeThresholdSec c;
     mCleanScheduleIntervalMs := mCleanScheduleIntervalMs c |}.

(** [mElementList.erase(it)] for the iterator stored in the object of
    handle [key]: the one node of that handle goes. *)
Fixpoint list_erase (key : Z) (l : list Z) : list Z :=
  match l with
  | [] => []
  | x :: l' => if decide (x = key) then l' else x :: list_erase key l'
  end.

(** What the [LOG] calls print. *)
Inductive log_event :=
| LogUpdated (key : Z)
| LogTotalBeforeCleanup (total : Z)
| LogRemovedStale (key : Z)
| LogRemovedLRU (key : Z).

(** Outcome of an operation that may hit undefined behaviour or, for the
    fuel-driven loop, run out of fuel. *)
Inductive result (A : Type) :=
| Done (a : A)
| Fault
| OutOfFuel.
Arguments Done {A} a.
Arguments Fault {A}.
Arguments OutOfFuel {A}.

(** *** updateElement *)

(** The block of [updateElement] that runs under [mCacheMutex]. *)
Definition updateElement_locked (element : Payload) (key size now : Z) (c : LRUCache)
  : LRUCache :=
  match mElementMap c !! key with
  | None =>
      let cacheElement := LRUCacheElement_new element key in
      set_indices c
        (mElementList c ++ [key])
        (<[key := updateAccessTime now (setSize size cacheElement)]> (mElementMap c))
        (Multimap.insert (size, key) (mElementSizeMap c))
        (mTotalSize c + size)
  | Some cacheElement =>
      set_indices c
        (list_erase key (mElementList c) ++ [key])
        (<[key := updateAccessTime now (setSize size cacheElement)]> (mElementMap c))
        (Multimap.insert (size, key)
           (Multimap.erase_record (mElementSize cacheElement) key (mElementSizeMap c)))
        (mTotalSize c - mElementSize cacheElement + size)
  end.

(** *** cleanup *)

(** One pass through the body of the [while] loop of [cleanup]. *)
Record Eviction := {
  ev_cache : LRUCache;
  ev_victim : LRUCacheElement;
  ev_collected : list Payload;
  ev_log : list log_event
}.

(** The guard of the loop. *)
Definition cleanup_guard (c : LRUCache) : bool :=
  bool_decide (mElementList c ≠ []) && bool_decide (mTotalSize c > mMaxSizeSoftLimit c).

(** The first half of the body: which element goes, and what is left of
    the list and of the size multimap. *)
Definition choose_victim (now : Z) (c : LRUCache)
  : option (LRUCacheElement * list Z * Multimap.t * list log_event) :=
  front_key ← head (mElementList c);
  leastRecentlyUsedElement ← mElementMap c !! front_key;
  if decide (now - mLastAccessTime leastRecentlyUsedElement > mTimeThresholdSec c) then
    (* sizeRange = equal_range(rbegin()->first) *)
    largest ← Multimap.rbegin (mElementSizeMap c);
    match Multimap.find (fst largest) (mElementSizeMap c) with
    | Some firstElementInSizeMap =>
        (* mElementMap[...]: a null pointer for an absent key, dereferenced next *)
        cacheElement ← mElementMap c !! snd firstElementInSizeMap;
        victim ← mElementMap c !! mPrimaryKey cacheElement;
        Some (victim,
              list_erase (snd firstElementInSizeMap) (mElementList c),
              Multimap.erase_first (fst largest) (mElementSizeMap c),
              [LogRemovedStale (mPrimaryKey victim)])
    | None =>
        (* empty range: nothing is erased here (never the case,
           [find_rbegin]) *)
        Some (leastRecentlyUsedElement, mElementList c, mElementSizeMap c, [])
    end
  else
    (* pop_front(), then erase(find(size)) if found *)
    Some (leastRecentlyUsedElement,
          tail (mElementList c),
          Multimap.erase_first (mElementSize leastRecentlyUsedElement) (mElementSizeMap c),
          [LogRemovedLRU (mPrimaryKey leastRecentlyUsedElement)]).

Definition cleanup_iteration (alive : Payload → bool) (now : Z)
    (keyToSaveFromPurge : option Z) (c : LRUCache) : option Eviction :=
  '(victim, l', sm', log) ← choose_victim now c;
  let m' := delete (mPrimaryKey victim) (mElementMap c) in
  if decide (keyToSaveFromPurge = Some (mPrimaryKey victim)) then
    Some {| ev_cache := set_indices c l' m' sm' (mTotalSize c);
            ev_victim := victim; ev_collected := []; ev_log := log |}
  else
    Some {| ev_cache := set_indices c l' m' sm' (mTotalSize c - mElementSize victim);
            ev_victim := victim;
            ev_collected := option_list (lock alive victim);
            ev_log := log |}.

(** The [while] loop.  [clock i] is the reading of [std::time] made by the
    i-th pass from here; [toClean] is [elementsToClean]. *)
Fixpoint cleanup_loop (fuel : nat) (alive : Payload → bool) (clock : nat → Z)
    (keyToSaveFromPurge : option Z) (c : LRUCache)
    (toClean : list Payload) (log : list log_event)
  : result (LRUCache * list Payload * list log_event) :=
  if cleanup_guard c then
    match fuel with
    | O => OutOfFuel
    | S fuel' =>
        match cleanup_iteration alive (clock O) keyToSaveFromPurge c with
        | None => Fault
        | Some ev =>
            cleanup_loop fuel' alive (λ i, clock (S i)) keyToSaveFromPurge (ev_cache ev)
              (toClean ++ ev_collected ev) (log ++ ev_log ev)
        end
    end
  else Done (c, toClean, log).

(** [cleanup(keyToSaveFromPurge)]: the final cache, the payloads whose
    [cleanup()] is called after the mutex is released, in that order, and
    the log.  One unit of fuel per list node is enough
    ([cleanup_loop_fuel]). *)
Definition cleanup (alive : Payload → bool) (clock : nat → Z)
    (keyToSaveFromPurge : option Z) (c : LRUCache)
  : result (LRUCache * list Payload * list log_event) :=
  cleanup_loop (length (mElementList c)) alive clock keyToSaveFromPurge c
    [] [LogTotalBeforeCleanup (mTotalSize c)].

(** A log line printed before an operation whose outcome is [r]. *)
Definition log_first (e : log_event) (r : result (LRUCache * list Payload * list log_event))
  : result (LRUCache * list Payload * list log_event) :=
  match r with
  | Done (c, toClean, log) => Done (c, toClean, e :: log)
  | Fault => Fault
  | OutOfFuel => OutOfFuel
  end.

(** [updateElement(element, key, size)]: [clock 0] is read by
    [updateAccessTime], the later readings by the cleanup it may call. *)
Definition updateElement (alive : Payload → bool) (clock : nat → Z)
    (element : Payload) (key size : Z) (c : LRUCache)
  : result (LRUCache * list Payload * list log_event) :=
  let c1 := updateElement_locked element key size (clock O) c in
  if decide (mTotalSize c1 > mMaxSizeHardLimit c1) then
    log_first (LogUpdated key) (cleanup alive (λ i, clock (S i)) (Some key) c1)
  else Done (c1, [], [LogUpdated key]).

(** *** getElement *)

Definition getElement (alive : Payload → bool) (now : Z) (key : Z) (c : LRUCache)
  : option Payload * LRUCache :=
  match mElementMap c !! key with
  | Some cacheElement =>
      let cacheElement' := updateAccessTime now cacheElement in
      (lock alive cacheElement',
       set_indices c
         (list_erase key (mElementList c) ++ [key])
         (<[key := cacheElement']> (mElementMap c))
         (mElementSizeMap c)
         (mTotalSize c))
  | None => (None, c)
  end.

(** ** Sequences of operations *)

Inductive operation :=
| OpUpdate (alive : Payload → bool) (clock : nat → Z) (element : Payload) (key size : Z)
| OpGet (alive : Payload → bool) (now : Z) (key : Z)
| OpCleanup (alive : Payload → bool) (clock : nat → Z) (keyToSaveFromPurge : option Z).

Definition step (op : operation) (c : LRUCache) : result LRUCache :=
  match op with
  | OpUpdate alive clock element key size =>
      match updateElement alive clock element key size c with
      | Done (c', _, _) => Done c'
      | Fault => Fault
      | OutOfFuel => OutOfFuel
      end
  | OpGet alive now key => Done (snd (getElement alive now key c))
  | OpCleanup alive clock keyToSaveFromPurge =>
      match cleanup alive clock keyToSaveFromPurge c with
      | Done (c', _, _) => Done c'
      | Fault => Fault
      | OutOfFuel => OutOfFuel
      end
  end.

Fixpoint run (ops : list operation) (c : LRUCache) : result LRUCache :=
  match ops with
  | [] => Done c
  | op :: ops' =>
      match step op c with
      | Done c' => run ops' c'
      | Fault => Fault
      | OutOfFuel => OutOfFuel
      end
  end.

(** The cache a sequence of operations ends in ([c] itself if the
    sequence does not complete). *)
Definition cache_after (ops : list operation) (c : LRUCache) : LRUCache :=
  match run ops c with
  | Done c' => c'
  | _ => c
  end.

(** Whether an operation is an [updateElement] of [key]. *)
Definition updates_key (key : Z) (op : operation) : bool :=
  match op with
  | OpUpdate _ _ _ k _ => bool_decide (k = key)
  | _ => false
  end.

(** ** Critical sections

    What a call does to the cache happens in a block that holds
    [mCacheMutex]: the first block of [updateElement], the body of
    [getElement], the block of [cleanup].  Between the block of
    [updateElement] and the [cleanup(&key)] that may follow, the mutex is
    free and the test of [mTotalSize] reads it unlocked, so blocks of
    other threads can fall in between and either outcome of the test is
    possible.  An interleaving of the calls of several threads is a
    sequence of such blocks. *)

Inductive critical_section :=
| CsUpdate (element : Payload) (key size now : Z)
| CsGet (alive : Payload → bool) (now key : Z)
| CsCleanup (alive : Payload → bool) (clock : nat → Z) (keyToSaveFromPurge : option Z).

Definition enter (s : critical_section) (c : LRUCache) : result LRUCache :=
  match s with
  | CsUpdate element key size now => Done (updateElement_locked element key size now c)
  | CsGet alive now key => Done (snd (getElement alive now key c))
  | CsCleanup alive clock keyToSaveFromPurge =>
      match cleanup alive clock keyToSaveFromPurge c with
      | Done (c', _, _) => Done c'
      | Fault => Fault
      | OutOfFuel => OutOfFuel
      end
  end.

Fixpoint run_sections (sections : list critical_section) (c : LRUCache) : result LRUCache :=
  match sections with
  | [] => Done c
  | s :: sections' =>
      match enter s c with
      | Done c' => run_sections sections' c'
      | Fault => Fault
      | OutOfFuel => OutOfFuel
      end
  end.

(** The blocks of an operation that runs undisturbed on the cache [c]. *)
Definition sections_of (op : operation) (c : LRUCache) : list critical_section :=
  match op with
  | OpUpdate alive clock element key size =>
      let c1 := updateElement_locked element key size (clock O) c in
      CsUpdate element key size (clock O)
        :: (if decide (mTotalSize c1 > mMaxSizeHardLimit c1)
            then [CsCleanup alive (λ i, clock (S i)) (Some key)] else [])
  | OpGet alive now key => [CsGet alive now key]
  | OpCleanup alive clock keyToSaveFromPurge => [CsCleanup alive clock keyToSaveFromPurge]
  end.

(** ** The cleaner thread

    [runCleanerThreadLoop] runs in a thread of its own and holds
    [mCleanerMutex] except while it waits, so [endCleaningThread], which
    sets [mIsFinished] under that mutex, can only run between two passes
    or during the wait of a pass.  One pass of the loop meets: the
    critical sections other threads complete on the cache meanwhile,
    whether the owner runs [endCleaningThread] before the thread has the
    mutex back, the way [wait_for] returns, and the inputs of the cleanup
    the pass may run.  The list of these is the schedule; the loop is a
    function of it.  The trace of the thread records, in order, the
    cleanups it runs, each test of [mIsFinished] with the value read, and
    the break. *)

Inductive cv_status := cv_no_timeout | cv_timeout.

Record wakeup := {
  meanwhile : list critical_section;
  owner_ends : bool;
  wait_for : cv_status;
  wake_alive : Payload → bool;
  wake_clock : nat → Z
}.

Inductive cleaner_event :=
| CleanerCleanup (toClean : list Payload)
| CleanerReadFlag (mIsFinished : bool)
| CleanerBreak.

(** [endCleaningThread]: the new value of [mIsFinished] (the notification
    shows in [wait_for] of the schedule). *)
Definition endCleaningThread (mIsFinished : bool) : bool := true.

(** The value of [mIsFinished] the pass reads at its end. *)
Definition flag_read (w : wakeup) (mIsFinished : bool) : bool :=
  if owner_ends w then endCleaningThread mIsFinished else mIsFinished.

(** The body of the loop up to the test of [mIsFinished]. *)
Definition cleaner_pass (w : wakeup) (c : LRUCache) : result (LRUCache * list cleaner_event) :=
  match run_sections (meanwhile w) c with
  | Done c1 =>
      match wait_for w with
      | cv_timeout =>
          match cleanup (wake_alive w) (wake_clock w) None c1 with
          | Done (c2, toClean, _) => Done (c2, [CleanerCleanup toClean])
          | Fault => Fault
          | OutOfFuel => OutOfFuel
          end
      | cv_no_timeout => Done (c1, [])
      end
  | Fault => Fault
  | OutOfFuel => OutOfFuel
  end.

(** The loop: the cache, the flag and the trace of the thread when the
    loop breaks or, if the flag is never read as set, when the schedule
    ends. *)
Fixpoint runCleanerThreadLoop (schedule : list wakeup) (c : LRUCache)
    (mIsFinished : bool) (trace : list cleaner_event)
  : result (LRUCache * bool * list cleaner_event) :=
  match schedule with
  | [] => Done (c, mIsFinished, trace)
  | w :: schedule' =>
      match cleaner_pass w c with
      | Done (c', events) =>
          if flag_read w mIsFinished
          then Done (c', true, trace ++ events ++ [CleanerReadFlag true; CleanerBreak])
          else runCleanerThreadLoop schedule' c' false
                 (trace ++ events ++ [CleanerReadFlag false])
      | Fault => Fault
      | OutOfFuel => OutOfFuel
      end
  end.

(** A trace in which the thread has neither read the flag as set nor
    left the loop. *)
Definition still_running (trace : list cleaner_event) : Prop :=
  (CleanerReadFlag true ∉ trace) ∧ (CleanerBreak ∉ trace).

(** ** The scenarios of the specification *)

Definition everyone : Payload → bool := λ _, true.
Definition at_time (t : Z) : nat → Z := λ _, t.

(** Soft limit 60, hard limit 100, threshold 5 s, no cleaner thread. *)
Definition scenario_cache : LRUCache := LRUCache_new 60 100 5 0.

(** Keys A = 1, B = 2, C = 3 with sizes 20, 20, 25, inserted at time 0. *)
Definition scenario_inserts : list operation :=
  [OpUpdate everyone (at_time 0) 1%nat 1 20;
   OpUpdate everyone (at_time 0) 2%nat 2 20;
   OpUpdate everyone (at_time 0) 3%nat 3 25].

(** ** Well-formed caches

    The Key Index ([mElementMap]) and the Recency Index ([mElementList])
    hold the same objects: every handle of the list is a key of the map
    and conversely, no handle occurs twice, and every object is stored
    under its own primary key. *)

Definition wf (c : LRUCache) : Prop :=
  NoDup (mElementList c)
  ∧ dom (mElementMap c) = list_to_set (mElementList c)
  ∧ map_Forall (λ k e, mPrimaryKey e = k) (mElementMap c).

#[global] Instance wf_dec (c : LRUCache) : Decision (wf c).
Proof. unfold wf. apply _. Defined.

(** The sizes the entries of the cache add up to, and by how much
    [mTotalSize] exceeds them. *)
Definition size_of (m : gmap Z LRUCacheElement) (k : Z) : Z :=
  from_option mElementSize 0 (m !! k).

Definition sum_sizes (m : gmap Z LRUCacheElement) (l : list Z) : Z :=
  foldr (λ k acc, size_of m k + acc) 0 l.

Definition live_size (c : LRUCache) : Z := sum_sizes (mElementMap c) (mElementList c).

Definition excess (c : LRUCache) : Z := mTotalSize c - live_size c.

(** The Size Index agrees with the other two when it records exactly the
    pairs (current size, key) of the entries. *)
Definition records_of (m : gmap Z LRUCacheElement) (l : list Z) : list (Z * Z) :=
  (λ k, (size_of m k, k)) <$> l.

Definition size_records (c : LRUCache) : list (Z * Z) :=
  records_of (mElementMap c) (mElementList c).

(** The Recency Index is in the order of the last accesses. *)
Definition time_of (m : gmap Z LRUCacheElement) (k : Z) : Z :=
  from_option mLastAccessTime 0 (m !! k).

Definition recency_ordered (c : LRUCache) : Prop :=
  StronglySorted Z.le (time_of (mElementMap c) <$> mElementList c).

Definition size_index_agrees (c : LRUCache) : Prop :=
  mElementSizeMap c ≡ₚ size_records c.

(** The three sets of keys of the invariant of the specification. *)
Definition key_index_keys (c : LRUCache) : gset Z := dom (mElementMap c).
Definition recency_index_keys (c : LRUCache) : gset Z := list_to_set (mElementList c).
Definition size_index_keys (c : LRUCache) : gset Z :=
  list_to_set (Multimap.keys (mElementSizeMap c)).

(** The four configuration members of two caches are the same. *)
Definition same_config (c c' : LRUCache) : Prop :=
  getSoftMaxSize c' = getSoftMaxSize c
  ∧ getMaxSize c' = getMaxSize c
  ∧ getTimeThreshold c' = getTimeThreshold c
  ∧ getCleaningInterval c' = getCleaningInterval c.

(** The log says that the entry of key [pk] was chosen for eviction. *)
Definition removed (pk : Z) (log : list log_event) : Prop :=
  LogRemovedLRU pk ∈ log ∨ LogRemovedStale pk ∈ log.

(** The invariant of the loop of cleanup(&pk), relative to the cache [c]
    the call starts from, in which [pk] is the key of the entry [e]. *)
Definition protected_invariant (pk : Z) (c : LRUCache) (e : LRUCacheElement)
    (ci : LRUCache) (toClean : list Payload) (log : list log_event) : Prop :=
  wf ci
  ∧ (∀ k x, mElementMap ci !! k = Some x → mElementMap c !! k = Some x)
  ∧ excess ci = excess c + match mElementMap ci !! pk with
                           | Some _ => 0
                           | None => mElementSize e
                           end
  ∧ (∀ p, p ∈ toClean →
       ∃ k e', k ≠ pk ∧ mElementMap c !! k = Some e' ∧ mElementMap ci !! k = None
               ∧ mWeakPointerElement e' = p)
  ∧ (removed pk log → mElementMap ci !! pk = None).

(** The Size Index is sorted. *)
Definition sizes_sorted (c : LRUCache) : Prop := Multimap.sorted (mElementSizeMap c).

(** No entry is stale at time [now]. *)
Definition all_fresh (now : Z) (c : LRUCache) : Prop :=
  ∀ k e, mElementMap c !! k = Some e → now - mLastAccessTime e ≤ mTimeThresholdSec c.

(** Within one size, the order of the records of the Size Index against
    the order of the entries in the list: the keys of the records of size
    [s], and the handles of the entries of size [s]. *)
Definition group_keys (s : Z) (sm : list (Z * Z)) : list Z :=
  snd <$> filter (λ r, fst r = s) sm.

Definition group_list (s : Z) (m : gmap Z LRUCacheElement) (l : list Z) : list Z :=
  filter (λ k, size_of m k = s) l.

Definition aligned (c : LRUCache) : Prop :=
  ∀ s, group_keys s (mElementSizeMap c) = group_list s (mElementMap c) (mElementList c).

(** The three indices agree, records of equal size in list order. *)
Definition consistent (c : LRUCache) : Prop :=
  wf c ∧ size_index_agrees c ∧ sizes_sorted c ∧ aligned c.

Definition is_get (op : operation) : bool :=
  match op with
  | OpGet _ _ _ => true
  | _ => false
  end.

(** By how much a call of cleanup with the protected key [pk] lets
    [mTotalSize] drift from the sizes of the entries: the size of the
    protected entry if the call evicts it. *)
Definition drift (pk : option Z) (c c' : LRUCache) : Z :=
  match pk with
  | None => 0
  | Some k =>
      match mElementMap c !! k, mElementMap c' !! k with
      | Some e, None => mElementSize e
      | _, _ => 0
      end
  end.

(** What cleanup has taken from the cache [c] when it has reached [ci]. *)
Definition only_removed (c ci : LRUCache) : Prop :=
  mElementMap ci ⊆ mElementMap c
  ∧ mElementList ci `sublist_of` mElementList c
  ∧ mElementSizeMap ci `sublist_of` mElementSizeMap c.

(** Whether an operation passes a non-negative size. *)
Definition size_nonneg (op : operation) : bool :=
  match op with
  | OpUpdate _ _ _ _ size => bool_decide (0 ≤ size)
  | _ => true
  end.

(** No entry has a negative size, and [mTotalSize] is not below the sum
    of the sizes of the entries. *)
Definition never_undercounts (c : LRUCache) : Prop :=
  wf c
  ∧ (∀ k e, mElementMap c !! k = Some e → 0 ≤ mElementSize e)
  ∧ 0 ≤ excess c.

(** The reading of the clock an operation stores as a last access time
    ([updateAccessTime] in updateElement and getElement), if any. *)
Definition access_time (op : operation) : option Z :=
  match op with
  | OpUpdate _ clock _ _ _ => Some (clock O)
  | OpGet _ now _ => Some now
  | OpCleanup _ _ _ => None
  end.

Definition access_times (ops : list operation) : list Z := omap access_time ops.

(** No entry was accessed after time [t]. *)
Definition times_bounded (t : Z) (c : LRUCache) : Prop :=
  ∀ k e, mElementMap c !! k = Some e → mLastAccessTime e ≤ t.

(** No entry is stale at any reading of the clock. *)
Definition fresh_throughout (clock : nat → Z) (c : LRUCache) : Prop :=
  ∀ i, all_fresh (clock i) c.

(** The payloads collected so far belong to entries that have left the
    cache, are alive, are not the protected one, and are no more than the
    nodes the list has lost. *)
Definition collected_invariant (alive : Payload → bool) (pk : option Z)
    (c ci : LRUCache) (toClean : list Payload) : Prop :=
  wf ci
  ∧ (∀ k x, mElementMap ci !! k = Some x → mElementMap c !! k = Some x)
  ∧ (∀ p, p ∈ toClean →
       alive p = true
       ∧ ∃ k e, mElementMap c !! k = Some e ∧ mElementMap ci !! k = None
                ∧ mWeakPointerElement e = p ∧ pk ≠ Some k)
  ∧ (length toClean + length (mElementList ci) ≤ length (mElementList c))%nat.

(** [dumpCache]: the lines it prints, one per node of the list: key, size
    and last access time of the element of the node. *)
Fixpoint dump_lines (m : gmap Z LRUCacheElement) (l : list Z) : option (list (Z * Z * Z)) :=
  match l with
  | [] => Some []
  | k :: l' =>
      element ← m !! k;
      lines ← dump_lines m l';
      Some ((mPrimaryKey element, mElementSize element, mLastAccessTime element) :: lines)
  end.

Definition dumpCache (c : LRUCache) : option (list (Z * Z * Z)) :=
  dump_lines (mElementMap c) (mElementList c).

(** The values of [int64_t].  Where the sums and differences the code
    forms on [mTotalSize] stay in this range, the arithmetic of the
    compiled program is the one written in the definitions above. *)
Definition int64 (z : Z) : Prop := - 2 ^ 63 ≤ z ≤ 2 ^ 63 - 1.

#[global] Instance int64_dec (z : Z) : Decision (int64 z).
Proof. unfold int64. apply _. Defined.

(** No entry of the cache has a negative size. *)
Definition sizes_nonneg (c : LRUCache) : Prop :=
  map_Forall (λ _ e, 0 ≤ mElementSize e) (mElementMap c).

(** The sizes passed to the updateElement calls of a sequence, added up. *)
Definition requested (ops : list operation) : Z :=
  foldr (λ op acc, match op with
                   | OpUpdate _ _ _ _ size => size + acc
                   | _ => acc
                   end) 0 ops.

(** The keys of the removal lines of a log, in the order of the lines:
    the entries a cleanup has evicted. *)
Definition removed_keys (log : list log_event) : list Z :=
  omap (λ line, match line with
                | LogRemovedStale k | LogRemovedLRU k => Some k
                | _ => None
                end) log.

(** ** Challenge-2/DecompressAlgo.cpp

    [Decompress(inStr, outStr)] expands the repeat blocks [d[...]] of
    [inStr], where [d] is one decimal digit, and resolves the escapes of
    backslash and brackets.  Strings are lists of characters.  The [for]
    loop over the index [i] is a recursion over the characters from [i]
    on; the two branches that advance [i] by two recur on the tail of the
    tail.  [std::isdigit] is that of the C locale on the characters 0
    to 9. *)

Module Decompress.

Import Stdlib.Strings.Ascii.

Definition backslash : ascii := ascii_of_nat 92.
Definition open_bracket : ascii := ascii_of_nat 91.
Definition close_bracket : ascii := ascii_of_nat 93.

Definition isdigit (ch : ascii) : bool :=
  (48 <=? nat_of_ascii ch)%nat && (nat_of_ascii ch <=? 57)%nat.

(** The test of line 33: a character that may follow a backslash. *)
Definition escapable (ch : ascii) : bool :=
  Ascii.eqb ch backslash || Ascii.eqb ch open_bracket || Ascii.eqb ch close_bracket.

(** The loop of lines 27-106 from the index where [inStr] starts, and the
    test after it: the contents of [outStrStream] on success.  [N] is the
    repeat count, [sub] the contents of [subStringStream]. *)
Fixpoint loop (inStr : list ascii) (N : nat) (repeatSequence : bool)
    (out sub : list ascii) : option (list ascii) :=
  match inStr with
  | [] => if repeatSequence then None else Some out
  | ch :: rest =>
      if Ascii.eqb ch backslash then
        match rest with
        | next :: rest' =>
            if escapable next then
              if repeatSequence then loop rest' N repeatSequence out (sub ++ [next])
              else loop rest' N repeatSequence (out ++ [next]) sub
            else None
        | [] => None
        end
      else
        match rest with
        | next :: rest' =>
            if isdigit ch && Ascii.eqb next open_bracket then
              loop rest' (nat_of_ascii ch - 48) true out sub
            else if Ascii.eqb ch close_bracket then
              if repeatSequence then
                loop rest O false (out ++ concat (replicate N sub)) []
              else None
            else if Ascii.eqb ch open_bracket then None
            else if repeatSequence then loop rest N repeatSequence out (sub ++ [ch])
            else loop rest N repeatSequence (out ++ [ch]) sub
        | [] =>
            if Ascii.eqb ch close_bracket then
              if repeatSequence then
                loop rest O false (out ++ concat (replicate N sub)) []
              else None
            else if Ascii.eqb ch open_bracket then None
            else if repeatSequence then loop rest N repeatSequence out (sub ++ [ch])
            else loop rest N repeatSequence (out ++ [ch]) sub
        end
  end.

(** [Decompress]: the value returned and the contents of [outStr]
    afterwards, which is only assigned on success. *)
Definition Decompress (inStr outStr : list ascii) : bool * list ascii :=
  match loop inStr O false [] [] with
  | Some out => (true, out)
  | None => (false, outStr)
  end.

(** The table of [DecompressTest]: compressed string, expected string,
    expected result.  (The marker [TEST_STRING] appends is behind the
    terminating zero of the literal and does not reach [Decompress].) *)
Definition chars (s : String.string) : list ascii := String.list_ascii_of_string s.

Definition bs : String.string := String.String backslash String.EmptyString.

Definition testCases : list (list ascii * list ascii * bool) :=
  [ (chars "", chars "", true);
    (chars "Hello", chars "Hello", true);
    (chars "5[x]", chars "xxxxx", true);
    (chars "15[x]", chars "1xxxxx", true);
    (chars "0[x]0", chars "0", true);
    (chars "!9[]01", chars "!01", true);
    (chars (bs +:+ bs +:+ "a"), chars (bs +:+ "a"), true);
    (chars (bs +:+ "[3[-]" +:+ bs +:+ "]"), chars "[---]", true);
    (chars "123He2[l]o321", chars "123Hello321", true);
    (chars "0[hello]", chars "", true);
    (chars "a5b2[cd]3[ef]g", chars "a5bcdcdefefefg", true);
    (chars ("1[12]2[" +:+ bs +:+ "[X" +:+ bs +:+ "]]"), chars "12[X][X]", true);
    (chars bs, chars "", false);
    (chars (bs +:+ "a"), chars "", false);
    (chars ("he" +:+ bs +:+ "llo"), chars "", false);
    (chars "hel1234567[lo", chars "", false);
    (chars "hello]", chars "", false);
    (chars "[hello]", chars "", false);
    (chars "[", chars "", false);
    (chars "]", chars "", false);
    (chars "0[1[x]]", chars "", false) ].

(** The number of failed tests [DecompressTest] counts. *)
Definition DecompressTest : nat :=
  foldl (λ testFailed testCase,
           let '(compressedStr, expectedStr, expectedResult) := testCase in
           let '(actualResult, actualStr) := Decompress compressedStr [] in
           if negb (Bool.eqb actualResult expectedResult) then S testFailed
           else if actualResult && negb (bool_decide (actualStr = expectedStr))
                then S testFailed
                else testFailed)
        O testCases.



End Decompress.

(** * The string class of String.hpp

    [UserDefined::String] owns a [char] array through [_strData] and
    keeps the number of characters before the terminating zero in
    [_strLength].  The heap is modelled by the arrays themselves: an
    array is the list of its cells, a cell of [new char[n]] holds no
    value until it is written, and a pointer to an array is the array or
    null.  An access outside an array or through a null pointer is
    undefined behaviour, [None] below.  Sizes are natural numbers: the
    sizes added or doubled are those of arrays that exist, so the sums
    stay below the range of [std::size_t].  Allocation succeeds. *)

Module UserDefined.

Import Stdlib.Strings.Ascii.
Local Open Scope nat_scope.

Abbreviation cell := (option ascii).

Definition NUL : ascii := Ascii.zero.
Definition newline : ascii := ascii_of_nat 10.

(** [new char[n]] and [std::make_unique<char[]>(n)], which sets the
    cells to zero. *)
Definition new_array (n : nat) : list cell := replicate n None.
Definition make_unique (n : nat) : list cell := replicate n (Some NUL).

Record String : Type := mkString {
  _strLength : nat;
  _strData : option (list cell)
}.

(** [buffer[i] = ch]. *)
Definition store (buffer : list cell) (i : nat) (ch : ascii) : option (list cell) :=
  if decide (i < length buffer) then Some (<[i := Some ch]> buffer) else None.

(** [std::copy(src, src + n, dest + off)]: nothing is accessed where
    [n] is zero. *)
Definition copy (src : option (list cell)) (n : nat) (dest : list cell) (off : nat) :
    option (list cell) :=
  match n with
  | O => Some dest
  | S _ =>
      match src with
      | Some b =>
          if decide (n ≤ length b ∧ off + n ≤ length dest)
          then Some (take off dest ++ take n b ++ drop (off + n) dest)
          else None
      | None => None
      end
  end.

(** [std::strlen] on the array a [const char*] points into. *)
Fixpoint strlen (s : list ascii) : option nat :=
  match s with
  | [] => None
  | ch :: s => if Ascii.eqb ch NUL then Some 0 else S <$> strlen s
  end.

(** [std::equal(a, a + n, b)]: the cells are compared one after the
    other up to the first difference. *)
Fixpoint equal (a b : list cell) (n : nat) {struct n} : option bool :=
  match n with
  | O => Some true
  | S n =>
      match a, b with
      | Some x :: a, Some y :: b => if Ascii.eqb x y then equal a b n else Some false
      | _, _ => None
      end
  end.

(** The constructors: default, from a C string, from a vector, copy and
    move.  The move constructor also leaves its source changed. *)
Definition String_default : option String :=
  data ← store (make_unique 1) 0 NUL;
  Some (mkString 0 (Some data)).

Definition String_from_cstr (inputString : list ascii) : option String :=
  len ← strlen inputString;
  data ← copy (Some (Some <$> inputString)) len (make_unique (len + 1)) 0;
  data ← store data len NUL;
  Some (mkString len (Some data)).

Definition String_from_vector (inputVector : list ascii) : option String :=
  let len := length inputVector in
  data ← copy (Some (Some <$> inputVector)) len (make_unique (len + 1)) 0;
  data ← store data len NUL;
  Some (mkString len (Some data)).

Definition String_copy (sourceString : String) : option String :=
  let len := _strLength sourceString in
  data ← copy (_strData sourceString) len (make_unique (len + 1)) 0;
  data ← store data len NUL;
  Some (mkString len (Some data)).

Definition String_move (sourceString : String) : String * String :=
  (mkString (_strLength sourceString) (_strData sourceString), mkString 0 None).

(** [operator+]: the result and nothing else changes. *)
Definition operator_plus (this appendString : String) : option String :=
  let len := _strLength this + _strLength appendString in
  let data := make_unique (len + 1) in
  data ← copy (_strData this) (_strLength this) data 0;
  data ← copy (_strData appendString) (_strLength appendString) data (_strLength this);
  data ← store data len NUL;
  Some (mkString len (Some data)).

(** [operator==]: [std::equal] is only called where the lengths agree. *)
Definition operator_eq (this compareString : String) : option bool :=
  if decide (_strLength this = _strLength compareString)
  then equal (default [] (_strData this)) (default [] (_strData compareString))
             (_strLength this)
  else Some false.

Definition c_str (this : String) : option (list cell) := _strData this.

(** The characters a [const char*] is read as: those before the first
    zero. *)
Fixpoint cstring (b : list cell) : option (list ascii) :=
  match b with
  | Some ch :: b => if Ascii.eqb ch NUL then Some [] else (ch ::.) <$> cstring b
  | _ => None
  end.

(** [operator<<], on the characters the stream has been given.  The
    code hands [c_str()] to the inserter of the library, which requires a
    pointer that is not null; what the library does with a null pointer
    (libstdc++ sets badbit and writes nothing) is not in this source and
    is left undefined here ([None]). *)
Definition operator_out (outputStream : list ascii) (outputString : String) :
    option (list ascii) :=
  p ← c_str outputString;
  text ← cstring p;
  Some (outputStream ++ text).

(** An input stream: the characters not yet read, and whether the
    stream is still good.  [get] fails on a stream that is not good or
    has no character left, and then leaves it failed. *)
Record istream : Type := mkIstream {
  unread : list ascii;
  good : bool
}.

(** The loop of [operator>>], lines 258-271. *)
Fixpoint read_loop (input : list ascii) (len capacity : nat) (buffer : list cell) :
    option (istream * nat * list cell) :=
  match input with
  | [] => Some (mkIstream [] false, len, buffer)
  | ch :: rest =>
      if Ascii.eqb ch newline then Some (mkIstream rest true, len, buffer)
      else
        grown ← (if decide (len = capacity - 1) then
                   newBuffer ← copy (Some buffer) len (new_array (capacity * 2)) 0;
                   Some (capacity * 2, newBuffer)
                 else Some (capacity, buffer));
        buffer ← store grown.2 len ch;
        read_loop rest (len + 1) grown.1 buffer
  end.

(** [operator>>]: the stream and the string afterwards. *)
Definition operator_in (inputStream : istream) (inputString : String) :
    option (istream * String) :=
  read ← (if good inputStream then read_loop (unread inputStream) 0 16 (new_array 16)
          else Some (inputStream, 0, new_array 16));
  buffer ← store read.2 read.1.2 NUL;
  Some (read.1.1, mkString read.1.2 (Some buffer)).

(** The class invariant, with the text the string stands for: the array
    holds the text, then a zero, and [_strLength] is the length of the
    text.  The array may be longer. *)
Definition represents (s : String) (text : list ascii) : Prop :=
  _strLength s = length text ∧
  ∃ spare, _strData s = Some ((Some <$> text) ++ Some NUL :: spare).

End UserDefined.

(** * Lemmas on the containers *)

Section list_erase.

Implicit Types (l : list Z) (k x : Z).

Lemma list_erase_not_elem k l : k ∉ l → list_erase k l = l.
Proof.
  induction l as [|y l IH]; [done|].
  intros Hk. apply not_elem_of_cons in Hk as [Hy Hl]. simpl.
  destruct (decide (y = k)); [congruence|]. by rewrite IH.
Qed.

Lemma list_erase_sub k l x : x ∈ list_erase k l → x ∈ l.
Proof.
  induction l as [|y l IH]; simpl; [done|].
  destruct (decide (y = k)).
  - intros. by right.
  - intros [->|Hx]%elem_of_cons; [left|right; auto].
Qed.

Lemma elem_of_list_erase k l x : NoDup l → x ∈ list_erase k l ↔ x ∈ l ∧ x ≠ k.
Proof.
  induction l as [|y l IH]; simpl.
  - intros _. split; [by intros ?%elem_of_nil|by intros [?%elem_of_nil _]].
  - intros [Hy Hl]%NoDup_cons. destruct (decide (y = k)) as [->|Hne].
    + rewrite elem_of_cons. split.
      * intros Hx. split; [by right|]. by intros ->.
      * by intros [[|] ?].
    + rewrite !elem_of_cons, IH by done. split.
      * intros [->|[? ?]]; auto.
      * intros [[->|?] ?]; auto.
Qed.

Lemma NoDup_list_erase k l : NoDup l → NoDup (list_erase k l).
Proof.
  induction l as [|y l IH]; simpl; [done|].
  intros [Hy Hl]%NoDup_cons. destruct (decide (y = k)); [done|].
  apply NoDup_cons. split; [|auto].
  intros ?%list_erase_sub. done.
Qed.

Lemma length_list_erase k l : k ∈ l → S (length (list_erase k l)) = length l.
Proof.
  induction l as [|y l IH]; simpl.
  - by intros ?%elem_of_nil.
  - destruct (decide (y = k)); [done|].
    intros [->|Hk]%elem_of_cons; [done|]. simpl. by rewrite IH.
Qed.

Lemma list_erase_head k l : head l = Some k → list_erase k l = tail l.
Proof.
  destruct l as [|y l]; simpl; [done|].
  intros [= ->]. by rewrite decide_True.
Qed.

Lemma list_to_set_list_erase k l :
  NoDup l → list_to_set (C := gset Z) (list_erase k l) = list_to_set l ∖ {[k]}.
Proof.
  intros Hl. apply set_eq. intros x.
  rewrite elem_of_difference, !elem_of_list_to_set, elem_of_list_erase by done.
  set_solver.
Qed.

End list_erase.

Section multimap.

Import Multimap.
Implicit Types (m : Multimap.t) (r : Z * Z).

Lemma find_Some sz m r : find sz m = Some r → r ∈ m ∧ fst r = sz.
Proof.
  induction m as [|x m IH]; simpl; [done|].
  destruct (Z.eqb_spec (fst x) sz).
  - intros [= ->]. split; [left|done].
  - intros [? ?]%IH. split; [by right|done].
Qed.

Lemma find_is_Some sz m r : r ∈ m → fst r = sz → is_Some (find sz m).
Proof.
  induction m as [|x m IH]; simpl.
  - by intros ?%elem_of_nil.
  - destruct (Z.eqb_spec (fst x) sz); [by eauto|].
    intros [->|Hr]%elem_of_cons ?; [done|auto].
Qed.

(** [equal_range(rbegin()->first)] is never empty. *)
Lemma find_rbegin m r : rbegin m = Some r → is_Some (find (fst r) m).
Proof.
  intros Hr. apply find_is_Some with r; [|done].
  unfold rbegin in Hr. apply last_Some in Hr as [m' ->].
  apply elem_of_app. right. left.
Qed.

Lemma rbegin_is_Some m : m ≠ [] → is_Some (rbegin m).
Proof.
  unfold rbegin. destruct (last m) eqn:E; [by eauto|].
  apply last_None in E. done.
Qed.

Lemma insert_perm r m : insert r m ≡ₚ r :: m.
Proof.
  induction m as [|x m IH]; simpl; [done|].
  destruct (fst r <? fst x); [done|]. rewrite IH. apply Permutation_swap.
Qed.

Lemma erase_first_perm sz m r : find sz m = Some r → m ≡ₚ r :: erase_first sz m.
Proof.
  induction m as [|x m IH]; simpl; [done|].
  destruct (fst x =? sz).
  - by intros [= ->].
  - intros H. rewrite (IH H) at 1. apply Permutation_swap.
Qed.

Lemma erase_record_perm sz key m : (sz, key) ∈ m → m ≡ₚ (sz, key) :: erase_record sz key m.
Proof.
  induction m as [|[s k] m IH]; simpl.
  - by intros ?%elem_of_nil.
  - destruct (Z.eqb_spec s sz) as [->|Hs]; simpl.
    + destruct (Z.eqb_spec k key) as [->|Hk]; [done|].
      intros [[=]|H]%elem_of_cons; [done|].
      rewrite (IH H) at 1. apply Permutation_swap.
    + intros [[=]|H]%elem_of_cons; [done|].
      rewrite (IH H) at 1. apply Permutation_swap.
Qed.

Lemma erase_first_sub sz m r : r ∈ erase_first sz m → r ∈ m.
Proof.
  induction m as [|x m IH]; simpl; [done|].
  destruct (fst x =? sz).
  - intros. by right.
  - intros [->|?]%elem_of_cons; [left|right; auto].
Qed.

Lemma erase_record_sub sz key m r : r ∈ erase_record sz key m → r ∈ m.
Proof.
  induction m as [|x m IH]; simpl; [done|].
  destruct ((fst x =? sz) && (snd x =? key)).
  - intros. by right.
  - intros [->|?]%elem_of_cons; [left|right; auto].
Qed.

Lemma sorted_cons x m : sorted (x :: m) ↔ (∀ r, r ∈ m → fst x ≤ fst r) ∧ sorted m.
Proof.
  unfold sorted. rewrite fmap_cons, StronglySorted_cons, Forall_fmap, Forall_forall. done.
Qed.

Lemma sorted_insert r m : sorted m → sorted (insert r m).
Proof.
  induction m as [|x m IH]; simpl.
  - intros _. apply sorted_cons. split; [by intros ? ?%elem_of_nil|constructor].
  - intros Hs. pose proof Hs as [Hx Hm]%sorted_cons.
    destruct (Z.ltb_spec (fst r) (fst x)).
    + apply sorted_cons. split; [|done].
      intros r' [->|Hr']%elem_of_cons; [lia|]. specialize (Hx r' Hr'). lia.
    + apply sorted_cons. split; [|auto].
      intros r' Hr'. rewrite insert_perm in Hr'.
      apply elem_of_cons in Hr' as [->|Hr']; [lia|auto].
Qed.

Lemma sorted_erase_first sz m : sorted m → sorted (erase_first sz m).
Proof.
  induction m as [|x m IH]; simpl; [done|].
  intros [Hx Hm]%sorted_cons. destruct (fst x =? sz); [done|].
  apply sorted_cons. split; [|auto]. intros r ?%erase_first_sub. auto.
Qed.

Lemma sorted_erase_record sz key m : sorted m → sorted (erase_record sz key m).
Proof.
  induction m as [|x m IH]; simpl; [done|].
  intros [Hx Hm]%sorted_cons. destruct ((fst x =? sz) && (snd x =? key)); [done|].
  apply sorted_cons. split; [|auto]. intros r ?%erase_record_sub. auto.
Qed.

(** In a sorted multimap [rbegin()] has the largest size. *)
Lemma sorted_rbegin_max m r x : sorted m → rbegin m = Some r → x ∈ m → fst x ≤ fst r.
Proof.
  unfold sorted, rbegin. intros Hs [m' ->]%last_Some Hx.
  rewrite fmap_app in Hs. apply elem_of_app in Hx as [Hx|Hx%list_elem_of_singleton].
  - apply (StronglySorted_app_1_elem_of _ _ _ _ _ Hs).
    + by apply list_elem_of_fmap_2.
    + left.
  - subst. lia.
Qed.

End multimap.

Section sum_sizes.

Implicit Types (m : gmap Z LRUCacheElement) (l : list Z) (k : Z).

Lemma sum_sizes_ext m m' l :
  (∀ k, k ∈ l → size_of m k = size_of m' k) → sum_sizes m l = sum_sizes m' l.
Proof.
  induction l as [|x l IH]; simpl; [done|].
  intros H. rewrite H by left. rewrite IH; [done|].
  intros k Hk. apply H. by right.
Qed.

Lemma sum_sizes_app m l1 l2 : sum_sizes m (l1 ++ l2) = sum_sizes m l1 + sum_sizes m l2.
Proof. induction l1 as [|x l1 IH]; simpl; [done|]. rewrite IH. lia. Qed.

Lemma sum_sizes_erase m l k :
  k ∈ l → sum_sizes m l = size_of m k + sum_sizes m (list_erase k l).
Proof.
  induction l as [|x l IH]; simpl.
  - by intros ?%elem_of_nil.
  - destruct (decide (x = k)) as [->|Hne]; [done|].
    intros [->|Hk]%elem_of_cons; [done|]. simpl. rewrite (IH Hk). lia.
Qed.

Lemma size_of_insert_ne m k k' e : k ≠ k' → size_of (<[k:=e]> m) k' = size_of m k'.
Proof. intros. unfold size_of. by rewrite lookup_insert_ne. Qed.

Lemma size_of_insert_eq m k e : size_of (<[k:=e]> m) k = mElementSize e.
Proof. unfold size_of. by rewrite lookup_insert_eq. Qed.

Lemma size_of_delete_ne m k k' : k ≠ k' → size_of (delete k m) k' = size_of m k'.
Proof. intros. unfold size_of. by rewrite lookup_delete_ne. Qed.

Lemma sum_sizes_insert_not_elem m l k e : k ∉ l → sum_sizes (<[k:=e]> m) l = sum_sizes m l.
Proof.
  intros Hk. apply sum_sizes_ext. intros k' Hk'.
  apply size_of_insert_ne. by intros ->.
Qed.

Lemma sum_sizes_delete_not_elem m l k : k ∉ l → sum_sizes (delete k m) l = sum_sizes m l.
Proof.
  intros Hk. apply sum_sizes_ext. intros k' Hk'.
  apply size_of_delete_ne. by intros ->.
Qed.

End sum_sizes.

(** * The Key Index and the Recency Index always agree *)

Lemma wf_elem_of c k : wf c → k ∈ mElementList c ↔ is_Some (mElementMap c !! k).
Proof.
  intros (_ & Hdom & _). rewrite <- elem_of_dom, Hdom. by rewrite elem_of_list_to_set.
Qed.

Lemma wf_primary_key c k e : wf c → mElementMap c !! k = Some e → mPrimaryKey e = k.
Proof. intros (_ & _ & Hkeys) He. by apply (Hkeys k e). Qed.

Lemma wf_new soft hard threshold interval : wf (LRUCache_new soft hard threshold interval).
Proof.
  split_and!; simpl.
  - constructor.
  - by rewrite dom_empty_L.
  - apply map_Forall_empty.
Qed.

Lemma erase_not_elem_self k (l : list Z) : NoDup l → k ∉ list_erase k l.
Proof. intros Hl. rewrite elem_of_list_erase by done. by intros [_ ?]. Qed.

(** Moving a handle to the back of the list. *)
Lemma NoDup_move_back k (l : list Z) : NoDup l → NoDup (list_erase k l ++ [k]).
Proof.
  intros Hl. apply NoDup_app. split_and!.
  - by apply NoDup_list_erase.
  - intros x Hx Hk%list_elem_of_singleton. subst x.
    by apply (erase_not_elem_self k l).
  - apply NoDup_singleton.
Qed.

Lemma list_to_set_move_back k (l : list Z) :
  NoDup l → list_to_set (C := gset Z) (list_erase k l ++ [k]) = {[k]} ∪ list_to_set l.
Proof.
  intros Hl. rewrite list_to_set_app_L, list_to_set_list_erase by done.
  simpl. apply set_eq. intros x. destruct (decide (x = k)); set_solver.
Qed.

Lemma wf_updateElement_locked element key size now c :
  wf c → wf (updateElement_locked element key size now c).
Proof.
  intros Hwf. pose proof Hwf as (Hnd & Hdom & Hkeys).
  unfold updateElement_locked.
  destruct (mElementMap c !! key) as [e|] eqn:He; split_and!; simpl.
  - by apply NoDup_move_back.
  - rewrite dom_insert_L, Hdom. by rewrite list_to_set_move_back.
  - apply map_Forall_insert_2; [|done]. simpl. by apply (Hkeys key e).
  - assert (key ∉ mElementList c) as Hk.
    { rewrite wf_elem_of by done. rewrite He. by intros [? ?]. }
    rewrite <- (list_erase_not_elem key (mElementList c)) by done.
    by apply NoDup_move_back.
  - rewrite dom_insert_L, Hdom, list_to_set_app_L. simpl. set_solver.
  - apply map_Forall_insert_2; [done|done].
Qed.

Lemma wf_getElement alive now key c : wf c → wf (snd (getElement alive now key c)).
Proof.
  intros Hwf. pose proof Hwf as (Hnd & Hdom & Hkeys).
  unfold getElement. destruct (mElementMap c !! key) as [e|] eqn:He; [|done].
  split_and!; simpl.
  - by apply NoDup_move_back.
  - rewrite dom_insert_L, Hdom. by rewrite list_to_set_move_back.
  - apply map_Forall_insert_2; [|done]. simpl. by apply (Hkeys key e).
Qed.

(** What one pass of the loop chooses: an entry of the cache, whose
    handle is the one node the list loses. *)
Lemma choose_victim_spec now c victim l' sm' log :
  wf c →
  choose_victim now c = Some (victim, l', sm', log) →
  mElementMap c !! mPrimaryKey victim = Some victim
  ∧ mPrimaryKey victim ∈ mElementList c
  ∧ l' = list_erase (mPrimaryKey victim) (mElementList c)
  ∧ (log = [LogRemovedStale (mPrimaryKey victim)]
     ∨ log = [LogRemovedLRU (mPrimaryKey victim)]).
Proof.
  intros Hwf. unfold choose_victim.
  destruct (head (mElementList c)) as [front_key|] eqn:Hhead; simpl; [|done].
  destruct (mElementMap c !! front_key) as [front|] eqn:Hfront; simpl; [|done].
  pose proof (wf_primary_key _ _ _ Hwf Hfront) as Hpk.
  destruct (decide _) as [Hstale|Hfresh].
  - destruct (Multimap.rbegin (mElementSizeMap c)) as [largest|] eqn:Hlast; simpl; [|done].
    destruct (find_rbegin _ _ Hlast) as [r Hr]. rewrite Hr.
    destruct (mElementMap c !! r.2) as [ce|] eqn:Hce; simpl; [|done].
    pose proof (wf_primary_key _ _ _ Hwf Hce) as Hpk'. rewrite Hpk', Hce. simpl.
    intros [= <- <- <- <-]. rewrite Hpk'. split_and!; [done| |done|by left].
    apply wf_elem_of; eauto.
  - intros [= <- <- <- <-]. rewrite Hpk. split_and!; [done| | |by right].
    + apply wf_elem_of; eauto.
    + by rewrite list_erase_head.
Qed.

Lemma cleanup_iteration_spec alive now pk c ev :
  wf c →
  cleanup_iteration alive now pk c = Some ev →
  let k := mPrimaryKey (ev_victim ev) in
  mElementMap c !! k = Some (ev_victim ev)
  ∧ k ∈ mElementList c
  ∧ mElementList (ev_cache ev) = list_erase k (mElementList c)
  ∧ mElementMap (ev_cache ev) = delete k (mElementMap c)
  ∧ mTotalSize (ev_cache ev) =
      (if decide (pk = Some k) then mTotalSize c
       else mTotalSize c - mElementSize (ev_victim ev))
  ∧ ev_collected ev =
      (if decide (pk = Some k) then [] else option_list (lock alive (ev_victim ev)))
  ∧ (ev_log ev = [LogRemovedStale k] ∨ ev_log ev = [LogRemovedLRU k]).
Proof.
  intros Hwf. unfold cleanup_iteration.
  destruct (choose_victim now c) as [[[[victim l'] sm'] log]|] eqn:Hch; simpl; [|done].
  destruct (choose_victim_spec _ _ _ _ _ _ Hwf Hch) as (Hv & Hin & -> & Hlog).
  destruct (decide (pk = Some (mPrimaryKey victim))) as [Heq|Hne];
    intros [= <-]; simpl.
  - rewrite !decide_True by done. done.
  - rewrite !decide_False by done. done.
Qed.

Lemma wf_cleanup_iteration alive now pk c ev :
  wf c → cleanup_iteration alive now pk c = Some ev → wf (ev_cache ev).
Proof.
  intros Hwf Hev. pose proof Hwf as (Hnd & Hdom & Hkeys).
  destruct (cleanup_iteration_spec _ _ _ _ _ Hwf Hev) as (Hv & Hin & Hl & Hm & _).
  split_and!.
  - rewrite Hl. by apply NoDup_list_erase.
  - rewrite Hl, Hm, dom_delete_L, Hdom. by rewrite list_to_set_list_erase.
  - rewrite Hm. by apply map_Forall_delete.
Qed.

(** Each pass takes exactly one node off the list. *)
Lemma cleanup_iteration_length alive now pk c ev :
  wf c → cleanup_iteration alive now pk c = Some ev →
  S (length (mElementList (ev_cache ev))) = length (mElementList c).
Proof.
  intros Hwf Hev.
  destruct (cleanup_iteration_spec _ _ _ _ _ Hwf Hev) as (_ & Hin & Hl & _).
  rewrite Hl. by apply length_list_erase.
Qed.

(** * The loop of cleanup *)

Lemma cleanup_guard_true c :
  cleanup_guard c = true ↔ mElementList c ≠ [] ∧ mTotalSize c > mMaxSizeSoftLimit c.
Proof.
  unfold cleanup_guard. rewrite andb_true_iff, !bool_decide_eq_true. done.
Qed.

Lemma cleanup_guard_false c :
  cleanup_guard c = false ↔ mTotalSize c ≤ mMaxSizeSoftLimit c ∨ mElementList c = [].
Proof.
  unfold cleanup_guard. rewrite andb_false_iff, !bool_decide_eq_false.
  split.
  - intros [H|H]; [right|left; lia]. by destruct (mElementList c); [|destruct H].
  - intros [H|H]; [right; lia|left]. by intros ?.
Qed.

(** Invariant rule for the loop: what every pass preserves holds when the
    loop ends, and the guard is false then. *)
Lemma cleanup_loop_invariant_acc
    (P : LRUCache → list Payload → list log_event → Prop) alive pk :
  (∀ c now ev toClean log,
     P c toClean log → cleanup_guard c = true →
     cleanup_iteration alive now pk c = Some ev →
     P (ev_cache ev) (toClean ++ ev_collected ev) (log ++ ev_log ev)) →
  ∀ fuel clock c toClean log c' toClean' log',
    P c toClean log →
    cleanup_loop fuel alive clock pk c toClean log = Done (c', toClean', log') →
    P c' toClean' log' ∧ cleanup_guard c' = false.
Proof.
  intros Hstep fuel.
  induction fuel as [|fuel IH]; intros clock c toClean log c' toClean' log' HP; simpl.
  - destruct (cleanup_guard c) eqn:Hg; [done|]. by intros [= <- <- <-].
  - destruct (cleanup_guard c) eqn:Hg; [|by intros [= <- <- <-]].
    destruct (cleanup_iteration alive (clock O) pk c) as [ev|] eqn:Hev; [|done].
    intros Hloop. eapply IH; [|exact Hloop]. eauto.
Qed.

Lemma cleanup_loop_invariant (P : LRUCache → Prop) alive pk :
  (∀ c now ev,
     P c → cleanup_guard c = true → cleanup_iteration alive now pk c = Some ev →
     P (ev_cache ev)) →
  ∀ fuel clock c toClean log c' toClean' log',
    P c →
    cleanup_loop fuel alive clock pk c toClean log = Done (c', toClean', log') →
    P c' ∧ cleanup_guard c' = false.
Proof.
  intros Hstep fuel clock c toClean log c' toClean' log' HP Hloop.
  eapply (cleanup_loop_invariant_acc (λ c _ _, P c)); eauto.
Qed.

(** One unit of fuel per node of the list is enough: the loop never runs
    out of fuel. *)
Lemma cleanup_loop_fuel fuel alive clock pk c toClean log :
  wf c → (length (mElementList c) ≤ fuel)%nat →
  cleanup_loop fuel alive clock pk c toClean log ≠ OutOfFuel.
Proof.
  revert clock c toClean log.
  induction fuel as [|fuel IH]; intros clock c toClean log Hwf Hlen; simpl.
  - destruct (cleanup_guard c) eqn:Hg; [|done].
    apply cleanup_guard_true in Hg as [Hne _].
    destruct (mElementList c); [done|simpl in Hlen; lia].
  - destruct (cleanup_guard c) eqn:Hg; [|done].
    destruct (cleanup_iteration alive (clock O) pk c) as [ev|] eqn:Hev; [|done].
    apply IH.
    + by eapply wf_cleanup_iteration.
    + pose proof (cleanup_iteration_length _ _ _ _ _ Hwf Hev). lia.
Qed.

Lemma cleanup_not_OutOfFuel alive clock pk c : wf c → cleanup alive clock pk c ≠ OutOfFuel.
Proof. intros Hwf. by apply cleanup_loop_fuel. Qed.

Lemma wf_cleanup alive clock pk c c' toClean log :
  wf c → cleanup alive clock pk c = Done (c', toClean, log) → wf c'.
Proof.
  intros Hwf Hc.
  eapply (cleanup_loop_invariant wf) in Hc as [? _]; [done| |done].
  intros ? ? ? ? _ ?. by eapply wf_cleanup_iteration.
Qed.

(** When cleanup returns, the soft limit is met or the cache is empty. *)
Lemma cleanup_post alive clock pk c c' toClean log :
  cleanup alive clock pk c = Done (c', toClean, log) →
  mTotalSize c' ≤ mMaxSizeSoftLimit c' ∨ mElementList c' = [].
Proof.
  intros Hc.
  eapply (cleanup_loop_invariant (λ _, True)) in Hc as [_ Hg]; [|done|done].
  by apply cleanup_guard_false.
Qed.

Lemma wf_updateElement alive clock element key size c c' toClean log :
  wf c → updateElement alive clock element key size c = Done (c', toClean, log) → wf c'.
Proof.
  intros Hwf. unfold updateElement.
  pose proof (wf_updateElement_locked element key size (clock O) c Hwf) as Hwf1.
  destruct (decide _).
  - destruct (cleanup _ _ _ _) as [[[c2 tc] lg]| |] eqn:Hc; simpl; [|done|done].
    intros [= <- <- <-]. by eapply wf_cleanup.
  - by intros [= <- <- <-].
Qed.

Lemma wf_step op c c' : wf c → step op c = Done c' → wf c'.
Proof.
  intros Hwf. destruct op as [alive clock element key size|alive now key|alive clock pk]; simpl.
  - destruct (updateElement _ _ _ _ _ _) as [[[c2 tc] lg]| |] eqn:Hu; [|done|done].
    intros [= <-]. by eapply wf_updateElement.
  - intros [= <-]. by apply wf_getElement.
  - destruct (cleanup _ _ _ _) as [[[c2 tc] lg]| |] eqn:Hc; [|done|done].
    intros [= <-]. by eapply wf_cleanup.
Qed.

(** Invariant rule for sequences of operations. *)
Lemma run_invariant (P : LRUCache → Prop) :
  (∀ op c c', P c → step op c = Done c' → P c') →
  ∀ ops c c', P c → run ops c = Done c' → P c'.
Proof.
  intros Hstep ops. induction ops as [|op ops IH]; intros c c' HP; simpl.
  - by intros [= <-].
  - destruct (step op c) as [c1| |] eqn:Hs; [|done|done]. eauto.
Qed.

Lemma wf_run ops c c' : wf c → run ops c = Done c' → wf c'.
Proof. apply run_invariant. intros op c1 c2. apply wf_step. Qed.

(** No operation ever runs out of fuel. *)
Lemma step_not_OutOfFuel op c : wf c → step op c ≠ OutOfFuel.
Proof.
  intros Hwf. destruct op as [alive clock element key size|alive now key|alive clock pk]; simpl.
  - unfold updateElement. destruct (decide _); [|done].
    pose proof (cleanup_not_OutOfFuel alive (λ i, clock (S i)) (Some key) _
                  (wf_updateElement_locked element key size (clock O) c Hwf)) as Hf.
    by destruct (cleanup _ _ _ _) as [[[c2 tc] lg]| |].
  - done.
  - pose proof (cleanup_not_OutOfFuel alive clock pk c Hwf) as Hf.
    by destruct (cleanup _ _ _ _) as [[[c2 tc] lg]| |].
Qed.

Lemma run_not_OutOfFuel ops c : wf c → run ops c ≠ OutOfFuel.
Proof.
  revert c. induction ops as [|op ops IH]; intros c Hwf; simpl; [done|].
  destruct (step op c) as [c1| |] eqn:Hs; [|done|].
  - apply IH. by eapply wf_step.
  - by apply step_not_OutOfFuel in Hs.
Qed.

(** * Accounting: how mTotalSize drifts from the sizes of the entries *)

Lemma live_size_cleanup_iteration alive now pk c ev :
  wf c → cleanup_iteration alive now pk c = Some ev →
  live_size (ev_cache ev) = live_size c - mElementSize (ev_victim ev).
Proof.
  intros Hwf Hev. pose proof Hwf as (Hnd & _ & _).
  destruct (cleanup_iteration_spec _ _ _ _ _ Hwf Hev) as (Hv & Hin & Hl & Hm & _).
  unfold live_size. rewrite Hl, Hm.
  rewrite sum_sizes_delete_not_elem by by apply erase_not_elem_self.
  rewrite (sum_sizes_erase _ _ _ Hin).
  assert (size_of (mElementMap c) (mPrimaryKey (ev_victim ev))
          = mElementSize (ev_victim ev)) as ->; [|lia].
  unfold size_of. by rewrite Hv.
Qed.

Lemma excess_cleanup_iteration alive now pk c ev :
  wf c → cleanup_iteration alive now pk c = Some ev →
  excess (ev_cache ev) =
    excess c + (if decide (pk = Some (mPrimaryKey (ev_victim ev)))
                then mElementSize (ev_victim ev) else 0).
Proof.
  intros Hwf Hev. unfold excess.
  rewrite (live_size_cleanup_iteration _ _ _ _ _ Hwf Hev).
  destruct (cleanup_iteration_spec _ _ _ _ _ Hwf Hev) as (_ & _ & _ & _ & Ht & _).
  rewrite Ht. destruct (decide _); lia.
Qed.

(** * The configuration never changes *)

Lemma same_config_refl c : same_config c c.
Proof. by repeat split. Qed.

Lemma same_config_trans c1 c2 c3 : same_config c1 c2 → same_config c2 c3 → same_config c1 c3.
Proof. unfold same_config. intros (?&?&?&?) (?&?&?&?). split_and!; congruence. Qed.

Lemma same_config_set_indices c l m sm total : same_config c (set_indices c l m sm total).
Proof. by repeat split. Qed.

Lemma same_config_updateElement_locked element key size now c :
  same_config c (updateElement_locked element key size now c).
Proof.
  unfold updateElement_locked.
  destruct (mElementMap c !! key); apply same_config_set_indices.
Qed.

Lemma same_config_getElement alive now key c : same_config c (snd (getElement alive now key c)).
Proof.
  unfold getElement.
  destruct (mElementMap c !! key); [apply same_config_set_indices|apply same_config_refl].
Qed.

Lemma same_config_cleanup_iteration alive now pk c ev :
  cleanup_iteration alive now pk c = Some ev → same_config c (ev_cache ev).
Proof.
  unfold cleanup_iteration.
  destruct (choose_victim now c) as [[[[victim l'] sm'] log]|]; simpl; [|done].
  destruct (decide _); intros [= <-]; apply same_config_set_indices.
Qed.

Lemma same_config_cleanup alive clock pk c c' toClean log :
  cleanup alive clock pk c = Done (c', toClean, log) → same_config c c'.
Proof.
  intros Hc.
  eapply (cleanup_loop_invariant (same_config c)) in Hc as [? _];
    [done| |apply same_config_refl].
  intros c1 now ev H1 _ Hev. eapply same_config_trans; [exact H1|].
  by eapply same_config_cleanup_iteration.
Qed.

Lemma same_config_updateElement alive clock element key size c c' toClean log :
  updateElement alive clock element key size c = Done (c', toClean, log) → same_config c c'.
Proof.
  unfold updateElement. destruct (decide _).
  - destruct (cleanup _ _ _ _) as [[[c2 tc] lg]| |] eqn:Hc; simpl; [|done|done].
    intros [= <- <- <-]. eapply same_config_trans; [|by eapply same_config_cleanup].
    apply same_config_updateElement_locked.
  - intros [= <- <- <-]. apply same_config_updateElement_locked.
Qed.

Lemma same_config_step op c c' : step op c = Done c' → same_config c c'.
Proof.
  destruct op as [alive clock element key size|alive now key|alive clock pk]; simpl.
  - destruct (updateElement _ _ _ _ _ _) as [[[c2 tc] lg]| |] eqn:Hu; [|done|done].
    intros [= <-]. by eapply same_config_updateElement.
  - intros [= <-]. apply same_config_getElement.
  - destruct (cleanup _ _ _ _) as [[[c2 tc] lg]| |] eqn:Hc; [|done|done].
    intros [= <-]. by eapply same_config_cleanup.
Qed.

Lemma same_config_run ops c c' : run ops c = Done c' → same_config c c'.
Proof.
  intros Hrun. eapply (run_invariant (same_config c)); [|apply same_config_refl|exact Hrun].
  intros op c1 c2 H1 Hs. eapply same_config_trans; [exact H1|].
  by eapply same_config_step.
Qed.

(** C10: in every state reached from a freshly constructed cache by
    updateElement, getElement and cleanup calls, the four accessors
    getSoftMaxSize, getMaxSize, getTimeThreshold and getCleaningInterval
    return the arguments the constructor was given. *)
Theorem C10_configuration_is_constant
    (softSizeLimit hardSizeLimit timeThresholdSec cleaningIntervalMs : Z)
    (ops : list operation) (c : LRUCache) :
  run ops (LRUCache_new softSizeLimit hardSizeLimit timeThresholdSec cleaningIntervalMs)
    = Done c →
  getSoftMaxSize c = softSizeLimit
  ∧ getMaxSize c = hardSizeLimit
  ∧ getTimeThreshold c = timeThresholdSec
  ∧ getCleaningInterval c = cleaningIntervalMs.
Proof. intros Hrun. by apply same_config_run in Hrun. Qed.

Lemma C10_witness :
  let c := cache_after (scenario_inserts ++ [OpGet everyone 1 2; OpCleanup everyone (at_time 2) None])
             (LRUCache_new 60 100 5 500) in
  getSoftMaxSize c = 60 ∧ getMaxSize c = 100
  ∧ getTimeThreshold c = 5 ∧ getCleaningInterval c = 500.
Proof.
  apply (C10_configuration_is_constant 60 100 5 500
           (scenario_inserts ++ [OpGet everyone 1 2; OpCleanup everyone (at_time 2) None])).
  vm_compute. reflexivity.
Defined.

(** * getElement *)

Lemma cleanup_iteration_map alive now pk c ev :
  cleanup_iteration alive now pk c = Some ev →
  mElementMap (ev_cache ev) = delete (mPrimaryKey (ev_victim ev)) (mElementMap c).
Proof.
  unfold cleanup_iteration.
  destruct (choose_victim now c) as [[[[victim l'] sm'] log]|]; simpl; [|done].
  by destruct (decide _); intros [= <-].
Qed.

(** A key that is not in the Key Index is not put there by cleanup. *)
Lemma cleanup_lookup_None alive clock pk c c' toClean log key :
  mElementMap c !! key = None →
  cleanup alive clock pk c = Done (c', toClean, log) →
  mElementMap c' !! key = None.
Proof.
  intros Hkey Hc.
  eapply (cleanup_loop_invariant (λ c, mElementMap c !! key = None)) in Hc as [? _];
    [done| |done].
  intros c1 now ev H1 _ Hev. rewrite (cleanup_iteration_map _ _ _ _ _ Hev).
  by apply lookup_delete_None; right.
Qed.

Lemma updateElement_locked_lookup_ne element key size now c key' :
  key ≠ key' →
  mElementMap (updateElement_locked element key size now c) !! key' = mElementMap c !! key'.
Proof.
  intros Hne. unfold updateElement_locked.
  destruct (mElementMap c !! key); simpl; by rewrite lookup_insert_ne.
Qed.

Lemma step_lookup_None op c c' key :
  updates_key key op = false →
  mElementMap c !! key = None →
  step op c = Done c' →
  mElementMap c' !! key = None.
Proof.
  destruct op as [alive clock element k size|alive now k|alive clock pk]; simpl.
  - intros Hk%bool_decide_eq_false Hkey. unfold updateElement.
    pose proof (updateElement_locked_lookup_ne element k size (clock O) c key Hk) as Hl.
    destruct (decide _).
    + destruct (cleanup _ _ _ _) as [[[c2 tc] lg]| |] eqn:Hc; simpl; [|done|done].
      intros [= <-]. eapply cleanup_lookup_None; [|exact Hc]. by rewrite Hl.
    + intros [= <-]. by rewrite Hl.
  - intros _ Hkey [= <-]. unfold getElement.
    destruct (mElementMap c !! k) as [e|] eqn:He; simpl; [|done].
    rewrite lookup_insert_ne; [done|]. intros ->. congruence.
  - intros _ Hkey.
    destruct (cleanup _ _ _ _) as [[[c2 tc] lg]| |] eqn:Hc; [|done|done].
    intros [= <-]. by eapply cleanup_lookup_None.
Qed.

Lemma run_lookup_None ops c c' key :
  forallb (λ op, negb (updates_key key op)) ops = true →
  mElementMap c !! key = None →
  run ops c = Done c' →
  mElementMap c' !! key = None.
Proof.
  revert c. induction ops as [|op ops IH]; intros c; simpl.
  - by intros _ ? [= <-].
  - intros [Hop Hops]%andb_true_iff Hkey.
    destruct (step op c) as [c1| |] eqn:Hs; [|done|done].
    apply IH; [done|]. eapply step_lookup_None; [|done|done].
    by apply negb_true_iff.
Qed.

Lemma getElement_present alive now key c e :
  mElementMap c !! key = Some e →
  getElement alive now key c =
    (lock alive e,
     set_indices c (list_erase key (mElementList c) ++ [key])
       (<[key := updateAccessTime now e]> (mElementMap c))
       (mElementSizeMap c) (mTotalSize c)).
Proof. intros He. unfold getElement. by rewrite He. Qed.

(** C8: for a key present in the cache, two successive getElement calls
    (the owner of the payloads holding the same payloads at both) return
    the same payload reference, that of the entry, and leave mTotalSize
    unchanged; and getElement on a key that no updateElement ever
    inserted returns nullptr and leaves the cache as it is. *)
Theorem C8_get_twice_and_get_absent :
  (∀ alive now1 now2 key c e,
     mElementMap c !! key = Some e →
     let first := getElement alive now1 key c in
     let second := getElement alive now2 key (snd first) in
     fst first = lock alive e
     ∧ fst second = fst first
     ∧ mTotalSize (snd first) = mTotalSize c
     ∧ mTotalSize (snd second) = mTotalSize c)
  ∧ (∀ soft hard threshold interval ops c alive now key,
       run ops (LRUCache_new soft hard threshold interval) = Done c →
       forallb (λ op, negb (updates_key key op)) ops = true →
       getElement alive now key c = (None, c)).
Proof.
  split.
  - intros alive now1 now2 key c e He.
    rewrite (getElement_present alive now1 key c e He). simpl.
    erewrite getElement_present by (simpl; apply lookup_insert_eq).
    done.
  - intros soft hard threshold interval ops c alive now key Hrun Hnever.
    unfold getElement.
    by rewrite (run_lookup_None ops _ c key Hnever (lookup_empty key) Hrun).
Qed.

Lemma C8_witness :
  let c := cache_after scenario_inserts scenario_cache in
  (fst (getElement everyone 1 2 c) = Some 2%nat
   ∧ fst (getElement everyone 2 2 (snd (getElement everyone 1 2 c))) = Some 2%nat
   ∧ mTotalSize (snd (getElement everyone 2 2 (snd (getElement everyone 1 2 c)))) = 65)
  ∧ getElement everyone 1 7 c = (None, c).
Proof.
  destruct C8_get_twice_and_get_absent as [Hpresent Habsent].
  split.
  - destruct (Hpresent everyone 1 2 2 (cache_after scenario_inserts scenario_cache)
                {| mLastAccessTime := 0; mElementSize := 20;
                   mWeakPointerElement := 2%nat; mPrimaryKey := 2 |})
      as (H1 & H2 & H3 & H4).
    + vm_compute. reflexivity.
    + rewrite H2, H4, H1. repeat split.
  - apply (Habsent 60 100 5 0 scenario_inserts).
    + vm_compute. reflexivity.
    + reflexivity.
Defined.

(** * updateElement *)

Lemma elem_of_list_erase_ne (k x : Z) (l : list Z) : x ∈ l → x ≠ k → x ∈ list_erase k l.
Proof.
  induction l as [|y l IH]; simpl; [done|].
  intros [->|Hx]%elem_of_cons Hne.
  - rewrite decide_False by done. left.
  - destruct (decide (y = k)); [done|]. right. auto.
Qed.

Lemma elem_of_move_back (k x : Z) (l : list Z) : x ∈ l → x ∈ list_erase k l ++ [k].
Proof.
  intros Hx. apply elem_of_app. destruct (decide (x = k)) as [->|Hne].
  - right. left.
  - left. by apply elem_of_list_erase_ne.
Qed.

(** The locked block of updateElement evicts nothing. *)
Lemma updateElement_locked_keeps element key size now c k :
  (is_Some (mElementMap c !! k) →
   is_Some (mElementMap (updateElement_locked element key size now c) !! k))
  ∧ (k ∈ mElementList c → k ∈ mElementList (updateElement_locked element key size now c)).
Proof.
  unfold updateElement_locked.
  destruct (mElementMap c !! key) as [e|] eqn:He; simpl; split.
  - intros Hk. destruct (decide (key = k)) as [->|Hne].
    + rewrite lookup_insert_eq. eauto.
    + by rewrite lookup_insert_ne.
  - apply elem_of_move_back.
  - intros Hk. destruct (decide (key = k)) as [->|Hne].
    + rewrite lookup_insert_eq. eauto.
    + by rewrite lookup_insert_ne.
  - intros Hk. apply elem_of_app. by left.
Qed.

(** The log of cleanup extends the log it starts from. *)
Lemma cleanup_loop_log fuel alive clock pk c toClean log c' toClean' log' :
  cleanup_loop fuel alive clock pk c toClean log = Done (c', toClean', log') →
  ∃ more, log' = log ++ more.
Proof.
  intros Hc.
  eapply (cleanup_loop_invariant_acc (λ _ _ lg, ∃ more, lg = log ++ more)) in Hc as [? _];
    [done| |by exists []; rewrite app_nil_r].
  intros c1 now ev tc lg [more ->] _ _. exists (more ++ ev_log ev). by rewrite app_assoc.
Qed.

Lemma cleanup_logs_total alive clock pk c c' toClean log :
  cleanup alive clock pk c = Done (c', toClean, log) →
  LogTotalBeforeCleanup (mTotalSize c) ∈ log.
Proof. intros [more ->]%cleanup_loop_log. left. Qed.

Lemma updateElement_within_hard_limit alive clock element key size c :
  let c1 := updateElement_locked element key size (clock O) c in
  mTotalSize c1 ≤ mMaxSizeHardLimit c →
  updateElement alive clock element key size c = Done (c1, [], [LogUpdated key]).
Proof.
  intros c1 Hle. unfold updateElement. fold c1.
  assert (mMaxSizeHardLimit c1 = mMaxSizeHardLimit c) as ->
    by apply (same_config_updateElement_locked element key size (clock O) c).
  by rewrite decide_False by lia.
Qed.

(** C6: with c1 the cache the locked block of updateElement leaves,
    updateElement goes on with cleanup(&key) on c1 exactly when
    mTotalSize exceeds the hard limit (its log then carries the line
    cleanup prints on entry, and not otherwise); at or below the hard
    limit the update ends in c1 itself, no payload is collected and every
    entry that was in the cache is still there. *)
Theorem C6_cleanup_iff_hard_limit_exceeded
    (alive : Payload → bool) (clock : nat → Z) (element : Payload) (key size : Z)
    (c : LRUCache) :
  let c1 := updateElement_locked element key size (clock O) c in
  (mTotalSize c1 > mMaxSizeHardLimit c →
     updateElement alive clock element key size c =
       log_first (LogUpdated key) (cleanup alive (λ i, clock (S i)) (Some key) c1))
  ∧ (mTotalSize c1 ≤ mMaxSizeHardLimit c →
     updateElement alive clock element key size c = Done (c1, [], [LogUpdated key])
     ∧ (∀ k, is_Some (mElementMap c !! k) → is_Some (mElementMap c1 !! k))
     ∧ (∀ k, k ∈ mElementList c → k ∈ mElementList c1))
  ∧ (∀ c' toClean log,
       updateElement alive clock element key size c = Done (c', toClean, log) →
       (∃ total, LogTotalBeforeCleanup total ∈ log) ↔ mTotalSize c1 > mMaxSizeHardLimit c).
Proof.
  intros c1.
  assert (mMaxSizeHardLimit c1 = mMaxSizeHardLimit c) as Hhard
    by apply (same_config_updateElement_locked element key size (clock O) c).
  unfold updateElement. fold c1. rewrite Hhard. split_and!.
  - intros Hgt. by rewrite decide_True.
  - intros Hle. rewrite decide_False by lia. split_and!; [done| |];
      intros k; by apply updateElement_locked_keeps.
  - intros c' toClean log. destruct (decide _) as [Hgt|Hle].
    + destruct (cleanup _ _ _ _) as [[[c2 tc] lg]| |] eqn:Hc; simpl; [|done|done].
      intros [= <- <- <-]. split; [done|]. intros _.
      exists (mTotalSize c1). right. by eapply cleanup_logs_total.
    + intros [= <- <- <-]. split; [|done].
      intros [total [[=]|?%elem_of_nil]%elem_of_cons]. done.
Qed.

Lemma C6_witness :
  let c := cache_after scenario_inserts scenario_cache in
  updateElement everyone (at_time 1) 4%nat 4 50 c =
    log_first (LogUpdated 4)
      (cleanup everyone (at_time 1) (Some 4) (updateElement_locked 4%nat 4 50 1 c))
  ∧ updateElement everyone (at_time 1) 4%nat 4 35 c =
      Done (updateElement_locked 4%nat 4 35 1 c, [], [LogUpdated 4]).
Proof.
  split.
  - apply (C6_cleanup_iff_hard_limit_exceeded everyone (at_time 1) 4%nat 4 50
             (cache_after scenario_inserts scenario_cache)).
    vm_compute. reflexivity.
  - apply (C6_cleanup_iff_hard_limit_exceeded everyone (at_time 1) 4%nat 4 35
             (cache_after scenario_inserts scenario_cache)).
    vm_compute. discriminate.
Defined.

(** * cleanup: the entry a pass evicts *)

(** C7: in a pass of the loop of cleanup whose list head was last
    accessed at most mTimeThresholdSec ago, the evicted entry is the head
    of mElementList: the list loses its head and the map the key of that
    entry.  In Scenario A (A, B, C of sizes 20, 20, 25, soft limit 60, all
    fresh) cleanup() evicts A alone and leaves B and C with a total of
    45. *)
Theorem C7_fresh_head_is_evicted :
  (∀ alive now keyToSaveFromPurge c front_key front,
     head (mElementList c) = Some front_key →
     mElementMap c !! front_key = Some front →
     now - mLastAccessTime front ≤ mTimeThresholdSec c →
     ∃ ev, cleanup_iteration alive now keyToSaveFromPurge c = Some ev
       ∧ ev_victim ev = front
       ∧ mElementList (ev_cache ev) = tail (mElementList c)
       ∧ mElementMap (ev_cache ev) = delete (mPrimaryKey front) (mElementMap c)
       ∧ ev_log ev = [LogRemovedLRU (mPrimaryKey front)])
  ∧ (let c := cache_after scenario_inserts scenario_cache in
     let c' := cache_after (scenario_inserts ++ [OpCleanup everyone (at_time 5) None])
                 scenario_cache in
     mElementList c = [1; 2; 3] ∧ mTotalSize c = 65
     ∧ cleanup everyone (at_time 5) None c =
         Done (c', [1%nat], [LogTotalBeforeCleanup 65; LogRemovedLRU 1])
     ∧ mElementList c' = [2; 3]
     ∧ key_index_keys c' = {[2; 3]}
     ∧ mTotalSize c' = 45).
Proof.
  split.
  - intros alive now pk c front_key front Hhead Hfront Hfresh.
    unfold cleanup_iteration, choose_victim. rewrite Hhead. simpl. rewrite Hfront. simpl.
    rewrite decide_False by lia. simpl.
    destruct (decide _); eexists; (split; [reflexivity|]); done.
  - vm_compute. repeat split.
Qed.

Lemma C7_witness :
  ∃ ev, cleanup_iteration everyone 5 None (cache_after scenario_inserts scenario_cache)
        = Some ev
    ∧ ev_victim ev = {| mLastAccessTime := 0; mElementSize := 20;
                        mWeakPointerElement := 1%nat; mPrimaryKey := 1 |}
    ∧ mElementList (ev_cache ev) = [2; 3].
Proof.
  destruct (proj1 C7_fresh_head_is_evicted everyone 5 None
              (cache_after scenario_inserts scenario_cache) 1
              {| mLastAccessTime := 0; mElementSize := 20;
                 mWeakPointerElement := 1%nat; mPrimaryKey := 1 |})
    as (ev & Hev & Hvictim & Hlist & _).
  - vm_compute. reflexivity.
  - vm_compute. reflexivity.
  - vm_compute. discriminate.
  - exists ev. split_and!; [exact Hev|exact Hvictim|exact Hlist].
Defined.

(** * What a cleanup evicts *)

Lemma list_erase_filter (k : Z) (l : list Z) :
  NoDup l → list_erase k l = filter (λ x, x ≠ k) l.
Proof.
  induction l as [|y l IH]; simpl; [done|].
  intros [Hy Hl]%NoDup_cons. rewrite filter_cons.
  destruct (decide (y = k)) as [->|Hne].
  - rewrite decide_False by (by intros ?).
    by rewrite <- IH, list_erase_not_elem.
  - rewrite decide_True by done. by rewrite IH.
Qed.

Lemma removed_keys_app log1 log2 :
  removed_keys (log1 ++ log2) = removed_keys log1 ++ removed_keys log2.
Proof. apply omap_app. Qed.

Lemma removed_removed_keys k log : removed k log ↔ k ∈ removed_keys log.
Proof.
  unfold removed, removed_keys. rewrite list_elem_of_omap. split.
  - intros [H|H]; eexists; (split; [exact H|done]).
  - intros (line & Hin & Hk). destruct line; simplify_eq/=; auto.
Qed.

(** The log of a cleanup tells what the call has done: the keys of its
    removal lines are the entries evicted, each once; the list is the old
    list without their handles, the map the old map without their
    entries; and the payloads collected are those of the evicted entries
    other than the protected one whose owner still holds them, one for
    each and in the order of the evictions. *)
Lemma cleanup_evicts alive clock pk c c' toClean log :
  wf c →
  cleanup alive clock pk c = Done (c', toClean, log) →
  wf c'
  ∧ NoDup (removed_keys log)
  ∧ (∀ k, k ∈ removed_keys log → is_Some (mElementMap c !! k))
  ∧ mElementList c' = filter (λ k, k ∉ removed_keys log) (mElementList c)
  ∧ (∀ k, mElementMap c' !! k =
            if decide (k ∈ removed_keys log) then None else mElementMap c !! k)
  ∧ toClean = omap (λ k, mElementMap c !! k ≫= lock alive)
                (filter (λ k, pk ≠ Some k) (removed_keys log)).
Proof.
  intros Hwf Hc.
  eapply (cleanup_loop_invariant_acc
            (λ ci tc lg,
               wf ci
               ∧ NoDup (removed_keys lg)
               ∧ (∀ k, k ∈ removed_keys lg → is_Some (mElementMap c !! k))
               ∧ mElementList ci = filter (λ k, k ∉ removed_keys lg) (mElementList c)
               ∧ (∀ k, mElementMap ci !! k =
                         if decide (k ∈ removed_keys lg) then None else mElementMap c !! k)
               ∧ tc = omap (λ k, mElementMap c !! k ≫= lock alive)
                        (filter (λ k, pk ≠ Some k) (removed_keys lg))))
    in Hc as [? _]; [done| |].
  - intros ci now ev tc lg (Hwfi & Hnd & Hsome & Hl & Hm & Htc) _ Hev.
    destruct (cleanup_iteration_spec _ _ _ _ _ Hwfi Hev)
      as (Hv & Hin & Hl' & Hm' & _ & Hcol & Hlg).
    set (k := mPrimaryKey (ev_victim ev)) in *.
    assert (removed_keys (lg ++ ev_log ev) = removed_keys lg ++ [k]) as ->.
    { rewrite removed_keys_app. by destruct Hlg as [-> | ->]. }
    assert ((k ∉ removed_keys lg) ∧ mElementMap c !! k = Some (ev_victim ev)) as [Hk Hck].
    { pose proof (Hm k) as Hmk. rewrite Hv in Hmk.
      destruct (decide (k ∈ removed_keys lg)); [done|by split]. }
    split_and!.
    + by eapply wf_cleanup_iteration.
    + apply NoDup_app. split_and!; [done| |apply NoDup_singleton].
      intros x Hx ->%list_elem_of_singleton. done.
    + intros x [Hx|Hx]%elem_of_app; [auto|].
      apply list_elem_of_singleton in Hx as ->. by rewrite Hck.
    + rewrite Hl', list_erase_filter by by destruct Hwfi.
      rewrite Hl, list_filter_filter. apply list_filter_iff. intros x.
      rewrite elem_of_app, list_elem_of_singleton. tauto.
    + intros x. rewrite Hm'. destruct (decide (x = k)) as [->|Hne].
      * rewrite lookup_delete_eq. rewrite decide_True; [done|].
        apply elem_of_app. right. left.
      * rewrite lookup_delete_ne by done. rewrite Hm.
        destruct (decide (x ∈ removed_keys lg)) as [Hx|Hx].
        -- rewrite decide_True; [done|]. apply elem_of_app. by left.
        -- rewrite decide_False; [done|].
           rewrite elem_of_app, list_elem_of_singleton. tauto.
    + rewrite filter_app, omap_app, <- Htc. f_equal. rewrite Hcol.
      rewrite filter_cons, filter_nil.
      destruct (decide (pk = Some k)) as [Heq|Hne].
      * by rewrite decide_False by (by intros ?).
      * rewrite decide_True by done. simpl. rewrite Hck. simpl.
        by destruct (lock alive (ev_victim ev)).
  - simpl. split_and!; [done|apply NoDup_nil_2|by intros k ?%elem_of_nil| | |done].
    + induction (mElementList c) as [|x l IH]; [done|].
      rewrite filter_cons_True by apply not_elem_of_nil. by rewrite <- IH.
    + done.
Qed.

(** * updateElement on a key that is present *)

(** A second update whose size takes mTotalSize over the hard limit can
    leave no entry at all for its key: with hard limit 100, key 1 is
    inserted with size 50 and updated with size 200; cleanup(&key) then
    finds it at the head of the list, fresh, and evicts it. *)
Lemma C5_counterexample :
  let c := cache_after [OpUpdate everyone (at_time 0) 1%nat 1 50] scenario_cache in
  let c' := cache_after [OpUpdate everyone (at_time 0) 1%nat 1 50;
                         OpUpdate everyone (at_time 0) 1%nat 1 200] scenario_cache in
  is_Some (mElementMap c !! 1)
  ∧ updateElement everyone (at_time 0) 1%nat 1 200 c =
      Done (c', [], [LogUpdated 1; LogTotalBeforeCleanup 200; LogRemovedLRU 1])
  ∧ mElementMap c' !! 1 = None
  ∧ mElementList c' = []
  ∧ mTotalSize c' = 200.
Proof. vm_compute. split_and!; eauto. Qed.

(** C5, amended: for a key present in the cache, the locked block of a
    further updateElement (which has no rejection path) leaves one entry
    for that key in the Key Index, the set of keys unchanged, no handle
    twice in the list; the entry carries the new size and the time of
    this update and is the last node of the Recency Index.  When
    mTotalSize then does not exceed the hard limit this is the cache the
    update returns.  Above the hard limit the cleanup(&key) that follows
    terminates, and whenever the update returns, the map and the list
    hold the same keys, no key twice, and either the log does not report
    the removal of the key, and then the entry is still there with the
    size and the time of this update, at the tail of the list; or the
    log reports that cleanup(&key) evicted the entry, which then is in
    neither index. *)
Theorem C5_update_of_present_key
    (alive : Payload → bool) (clock : nat → Z) (element : Payload) (key size : Z)
    (c : LRUCache) (old : LRUCacheElement) :
  wf c →
  mElementMap c !! key = Some old →
  let c1 := updateElement_locked element key size (clock O) c in
  let latest := {| mLastAccessTime := clock O; mElementSize := size;
                   mWeakPointerElement := mWeakPointerElement old; mPrimaryKey := key |} in
  mElementMap c1 !! key = Some latest
  ∧ key_index_keys c1 = key_index_keys c
  ∧ recency_index_keys c1 = recency_index_keys c
  ∧ NoDup (mElementList c1)
  ∧ last (mElementList c1) = Some key
  ∧ (mTotalSize c1 ≤ mMaxSizeHardLimit c →
     updateElement alive clock element key size c = Done (c1, [], [LogUpdated key]))
  ∧ updateElement alive clock element key size c ≠ OutOfFuel
  ∧ (∀ c' toClean log,
       updateElement alive clock element key size c = Done (c', toClean, log) →
       key_index_keys c' = recency_index_keys c'
       ∧ NoDup (mElementList c')
       ∧ ((key ∉ removed_keys log)
          ∧ mElementMap c' !! key = Some latest
          ∧ last (mElementList c') = Some key
          ∨ key ∈ removed_keys log
            ∧ mTotalSize c1 > mMaxSizeHardLimit c
            ∧ mElementMap c' !! key = None
            ∧ (key ∉ mElementList c'))).
Proof.
  intros Hwf Hold c1 latest.
  pose proof (wf_updateElement_locked element key size (clock O) c Hwf) as Hwf1.
  fold c1 in Hwf1. pose proof Hwf as (Hnd & Hdom & Hkeys).
  assert (key_index_keys c1 = key_index_keys c) as Hk.
  { unfold key_index_keys, c1, updateElement_locked. rewrite Hold. simpl.
    rewrite dom_insert_L. apply elem_of_dom_2 in Hold. set_solver. }
  assert (mElementMap c1 !! key = Some latest) as Hlatest.
  { unfold c1, updateElement_locked. rewrite Hold. simpl. rewrite lookup_insert_eq.
    unfold updateAccessTime, setSize, latest. simpl.
    by rewrite (wf_primary_key c key old Hwf Hold). }
  assert (mElementList c1 = list_erase key (mElementList c) ++ [key]) as Hlist.
  { unfold c1, updateElement_locked. by rewrite Hold. }
  assert (mMaxSizeHardLimit c1 = mMaxSizeHardLimit c) as Hhard
    by apply (same_config_updateElement_locked element key size (clock O) c).
  split_and!.
  - done.
  - done.
  - unfold recency_index_keys. destruct Hwf1 as (_ & <- & _). by rewrite <- Hdom.
  - by destruct Hwf1.
  - rewrite Hlist. apply last_snoc.
  - apply updateElement_within_hard_limit.
  - unfold updateElement. fold c1. destruct (decide _); [|done].
    pose proof (cleanup_not_OutOfFuel alive (λ i, clock (S i)) (Some key) c1 Hwf1).
    by destruct (cleanup _ _ _ _) as [[[c2 tc] lg]| |].
  - intros c' toClean log. unfold updateElement. fold c1. rewrite Hhard.
    destruct (decide _) as [Hgt|Hle].
    + destruct (cleanup _ _ _ _) as [[[c2 tc] lg]| |] eqn:Hc; simpl; [|done|done].
      intros [= <- <- <-].
      destruct (cleanup_evicts _ _ _ _ _ _ _ Hwf1 Hc) as (Hwf2 & _ & _ & Hl & Hm & _).
      change (removed_keys (LogUpdated key :: lg)) with (removed_keys lg).
      split_and!; [by destruct Hwf2 as (_ & ? & _)|by destruct Hwf2|].
      specialize (Hm key).
      destruct (decide (key ∈ removed_keys lg)) as [Hin|Hnot]; [right|left].
      * split_and!; [done|done|done|].
        rewrite wf_elem_of by done. rewrite Hm. by intros [? ?].
      * split_and!; [done|by rewrite Hm|].
        rewrite Hl, Hlist, filter_app, filter_cons_True, filter_nil by done.
        apply last_snoc.
    + intros [= <- <- <-]. split_and!; [by destruct Hwf1 as (_ & ? & _)|by destruct Hwf1|].
      left. split_and!; [apply not_elem_of_nil|done|].
      rewrite Hlist. apply last_snoc.
Qed.

Lemma C5_witness :
  let c := cache_after scenario_inserts scenario_cache in
  let c1 := updateElement_locked 9%nat 1 56 3 c in
  let latest := {| mLastAccessTime := 3; mElementSize := 56;
                   mWeakPointerElement := 1%nat; mPrimaryKey := 1 |} in
  mElementMap c1 !! 1 = Some latest
  ∧ key_index_keys c1 = key_index_keys c
  ∧ recency_index_keys c1 = recency_index_keys c
  ∧ NoDup (mElementList c1)
  ∧ last (mElementList c1) = Some 1
  ∧ (mTotalSize c1 ≤ mMaxSizeHardLimit c →
     updateElement everyone (at_time 3) 9%nat 1 56 c = Done (c1, [], [LogUpdated 1]))
  ∧ updateElement everyone (at_time 3) 9%nat 1 56 c ≠ OutOfFuel
  ∧ (∀ c' toClean log,
       updateElement everyone (at_time 3) 9%nat 1 56 c = Done (c', toClean, log) →
       key_index_keys c' = recency_index_keys c'
       ∧ NoDup (mElementList c')
       ∧ ((1 ∉ removed_keys log)
          ∧ mElementMap c' !! 1 = Some latest
          ∧ last (mElementList c') = Some 1
          ∨ 1 ∈ removed_keys log
            ∧ mTotalSize c1 > mMaxSizeHardLimit c
            ∧ mElementMap c' !! 1 = None
            ∧ (1 ∉ mElementList c'))).
Proof.
  apply (C5_update_of_present_key everyone (at_time 3) 9%nat 1 56
           (cache_after scenario_inserts scenario_cache)
           {| mLastAccessTime := 0; mElementSize := 20;
              mWeakPointerElement := 1%nat; mPrimaryKey := 1 |}).
  - apply (bool_decide_unpack _). vm_compute. exact I.
  - vm_compute. reflexivity.
Defined.

(** * cleanup with a protected key *)

(** A pass that evicts the protected entry: the entry leaves the Key
    Index and the Recency Index, nothing is collected, mTotalSize stays. *)
Lemma protected_pass alive now pk c ev :
  wf c →
  cleanup_iteration alive now (Some pk) c = Some ev →
  mPrimaryKey (ev_victim ev) = pk →
  mElementMap (ev_cache ev) = delete pk (mElementMap c)
  ∧ mElementList (ev_cache ev) = list_erase pk (mElementList c)
  ∧ (pk ∉ mElementList (ev_cache ev))
  ∧ ev_collected ev = []
  ∧ mTotalSize (ev_cache ev) = mTotalSize c
  ∧ excess (ev_cache ev) = excess c + mElementSize (ev_victim ev).
Proof.
  intros Hwf Hev Hpk.
  pose proof (excess_cleanup_iteration _ _ _ _ _ Hwf Hev) as Hex.
  destruct (cleanup_iteration_spec _ _ _ _ _ Hwf Hev)
    as (Hv & Hin & Hl & Hm & Ht & Hc & _).
  destruct (decide (Some pk = Some (mPrimaryKey (ev_victim ev)))); [|congruence].
  rewrite Hpk in *. split_and!; try done.
  rewrite Hl. apply erase_not_elem_self. by destruct Hwf.
Qed.

Lemma protected_invariant_pass alive now pk c e ci toClean log ev :
  mElementMap c !! pk = Some e →
  protected_invariant pk c e ci toClean log →
  cleanup_iteration alive now (Some pk) ci = Some ev →
  protected_invariant pk c e (ev_cache ev) (toClean ++ ev_collected ev) (log ++ ev_log ev).
Proof.
  intros He (Hwf & Hsub & Hex & Hclean & Hlog) Hev.
  pose proof (excess_cleanup_iteration _ _ _ _ _ Hwf Hev) as Hex'.
  destruct (cleanup_iteration_spec _ _ _ _ _ Hwf Hev)
    as (Hv & Hin & Hl & Hm & Ht & Hc & Hlg).
  split_and!.
  - by eapply wf_cleanup_iteration.
  - intros k x. rewrite Hm. intros [_ ?]%lookup_delete_Some. auto.
  - rewrite Hex', Hex, Hm.
    destruct (decide (Some pk = Some (mPrimaryKey (ev_victim ev)))) as [[= Heq]|Hne].
    + rewrite <- Heq in *. rewrite Hv, lookup_delete_eq.
      apply Hsub in Hv. rewrite He in Hv. injection Hv as <-. lia.
    + rewrite lookup_delete_ne by congruence. lia.
  - intros p [Hp|Hp]%elem_of_app.
    + destruct (Hclean p Hp) as (k & e' & Hne & Hk & Hnone & Hpay).
      exists k, e'. split_and!; try done.
      rewrite Hm. apply lookup_delete_None. by right.
    + rewrite Hc in Hp.
      destruct (decide (Some pk = Some (mPrimaryKey (ev_victim ev)))) as [Heq|Hne].
      { by apply elem_of_nil in Hp. }
      unfold lock in Hp. destruct (alive _); simpl in Hp; [|by apply elem_of_nil in Hp].
      apply list_elem_of_singleton in Hp as ->.
      exists (mPrimaryKey (ev_victim ev)), (ev_victim ev). split_and!.
      * congruence.
      * auto.
      * rewrite Hm. apply lookup_delete_eq.
      * done.
  - rewrite Hm. unfold removed. rewrite !elem_of_app. intros [[Hold|Hnew]|[Hold|Hnew]].
    + apply lookup_delete_None. right. apply Hlog. by left.
    + destruct Hlg as [Hlg|Hlg]; rewrite Hlg in Hnew;
        apply list_elem_of_singleton in Hnew; [done|].
      injection Hnew as ->. apply lookup_delete_eq.
    + apply lookup_delete_None. right. apply Hlog. by right.
    + destruct Hlg as [Hlg|Hlg]; rewrite Hlg in Hnew;
        apply list_elem_of_singleton in Hnew; [|done].
      injection Hnew as ->. apply lookup_delete_eq.
Qed.

(** The sentence of the specification fails on three counts.  (1) Size
    Index: keys 1, 2, 3 of sizes 20, 20, 30 are inserted and key 1 is
    read, so the list is 2, 3, 1; cleanup(&2) with soft limit 45 evicts 2
    and 3, yet the record (20, 2) of the protected entry stays in
    mElementSizeMap (the record of key 1 went in its place).  (2) Amount
    of the excess: after an update of size 200 that evicted its own key,
    the total is 200 for an empty cache; an update of key 2 with size 150
    makes cleanup(&2) evict key 2, and the total then exceeds the sizes
    of the remaining entries by 350, not by 150.  (3) Callback of the
    payload: one payload is held under the keys 1 and 2; cleanup(&2)
    evicts both entries and collects the payload, for the entry of key 1,
    although it is the payload of the protected entry as well. *)
Lemma C1_counterexample :
  (let c := cache_after [OpUpdate everyone (at_time 0) 1%nat 1 20;
                         OpUpdate everyone (at_time 0) 2%nat 2 20;
                         OpUpdate everyone (at_time 0) 3%nat 3 30;
                         OpGet everyone 0 1] (LRUCache_new 45 100 5 0) in
   ∃ c', cleanup everyone (at_time 0) (Some 2) c =
           Done (c', [3%nat],
                 [LogTotalBeforeCleanup 70; LogRemovedLRU 2; LogRemovedLRU 3])
     ∧ mTotalSize c = live_size c
     ∧ mElementMap c' !! 2 = None
     ∧ mElementList c' = [1]
     ∧ mElementSizeMap c' = [(20, 2)])
  ∧ (let c := updateElement_locked 2%nat 2 150 0
                (cache_after [OpUpdate everyone (at_time 0) 1%nat 1 200] scenario_cache) in
     ∃ c', cleanup everyone (at_time 0) (Some 2) c =
             Done (c', [], [LogTotalBeforeCleanup 350; LogRemovedLRU 2])
       ∧ size_of (mElementMap c) 2 = 150
       ∧ mElementMap c' !! 2 = None
       ∧ mTotalSize c' - live_size c' = 350)
  ∧ (let c := updateElement_locked 7%nat 2 30 0
                (cache_after [OpUpdate everyone (at_time 0) 7%nat 1 30]
                   (LRUCache_new 0 50 5 0)) in
     ∃ c', cleanup everyone (at_time 0) (Some 2) c =
             Done (c', [7%nat],
                   [LogTotalBeforeCleanup 60; LogRemovedLRU 1; LogRemovedLRU 2])
       ∧ mElementMap c !! 2 =
           Some {| mLastAccessTime := 0; mElementSize := 30;
                   mWeakPointerElement := 7%nat; mPrimaryKey := 2 |}
       ∧ mElementMap c' !! 2 = None).
Proof.
  split_and!; vm_compute; eexists; split_and!; reflexivity.
Qed.

(** C1, amended: when cleanup(&pk) chooses the entry of the protected
    key pk for eviction (its log reports the removal of pk), that entry
    leaves the Key Index and the Recency Index and nothing is collected
    for it: the payloads the call collects for a cleanup callback are
    exactly those of the evicted entries of the other keys whose owner
    still holds them, one for each, in the order of the evictions.  So
    the payload of the protected entry is not among them unless another
    evicted entry holds the same payload.  The size of the protected
    entry is not subtracted: the amount by which mTotalSize exceeds the
    sum of the sizes of the entries grows over the call by exactly the
    size of the protected entry, so it equals that size when mTotalSize
    was exact before the call. *)
Theorem C1_protected_entry_evicted_unaccounted
    (alive : Payload → bool) (clock : nat → Z) (pk : Z) (c : LRUCache)
    (e : LRUCacheElement) (c' : LRUCache) (toClean : list Payload)
    (log : list log_event) :
  wf c →
  mElementMap c !! pk = Some e →
  cleanup alive clock (Some pk) c = Done (c', toClean, log) →
  removed pk log →
  mElementMap c' !! pk = None
  ∧ (pk ∉ mElementList c')
  ∧ toClean = omap (λ k, mElementMap c !! k ≫= lock alive)
                (filter (λ k, k ≠ pk) (removed_keys log))
  ∧ ((∀ k e', k ∈ removed_keys log → k ≠ pk → mElementMap c !! k = Some e' →
        mWeakPointerElement e' ≠ mWeakPointerElement e) →
     mWeakPointerElement e ∉ toClean)
  ∧ mTotalSize c' - live_size c' = mTotalSize c - live_size c + mElementSize e
  ∧ (mTotalSize c = live_size c → mTotalSize c' = live_size c' + mElementSize e).
Proof.
  intros Hwf He Hc Hremoved.
  destruct (cleanup_evicts _ _ _ _ _ _ _ Hwf Hc) as (_ & _ & _ & _ & _ & Hcollected).
  assert (toClean = omap (λ k, mElementMap c !! k ≫= lock alive)
                      (filter (λ k, k ≠ pk) (removed_keys log))) as Htc.
  { rewrite Hcollected. f_equal. apply list_filter_iff. intros k. split; congruence. }
  eapply (cleanup_loop_invariant_acc (protected_invariant pk c e))
    in Hc as [(Hwf' & Hsub & Hex & Hclean & Hlog) _].
  - specialize (Hlog Hremoved). rewrite Hlog in Hex. unfold excess in Hex. split_and!.
    + done.
    + rewrite wf_elem_of by done. rewrite Hlog. by intros [? ?].
    + done.
    + intros Hother Hin. rewrite Htc in Hin.
      apply list_elem_of_omap in Hin as (k & [Hne Hk]%list_elem_of_filter & Hp).
      destruct (mElementMap c !! k) as [e'|] eqn:Hk'; [|done]. simpl in Hp.
      apply (Hother k e' Hk Hne Hk').
      unfold lock in Hp. by destruct (alive (mWeakPointerElement e')); simplify_eq/=.
    + lia.
    + lia.
  - intros ci now ev tc lg Hinv _ Hev. by eapply protected_invariant_pass.
  - split_and!; [done|done| | |].
    + rewrite He. lia.
    + by intros p ?%elem_of_nil.
    + intros [[[=]|?%elem_of_nil]%elem_of_cons|[[=]|?%elem_of_nil]%elem_of_cons]; done.
Qed.

Lemma C1_witness :
  let ops := [OpUpdate everyone (at_time 0) 1%nat 1 20;
              OpUpdate everyone (at_time 0) 2%nat 2 20;
              OpUpdate everyone (at_time 0) 3%nat 3 30;
              OpGet everyone 0 1] in
  let c := cache_after ops (LRUCache_new 45 100 5 0) in
  let c' := cache_after (ops ++ [OpCleanup everyone (at_time 0) (Some 2)])
              (LRUCache_new 45 100 5 0) in
  mElementMap c' !! 2 = None
  ∧ mTotalSize c = live_size c
  ∧ [3%nat] = omap (λ k, mElementMap c !! k ≫= lock everyone)
                (filter (λ k, k ≠ 2)
                   (removed_keys [LogTotalBeforeCleanup 70; LogRemovedLRU 2;
                                  LogRemovedLRU 3]))
  ∧ mTotalSize c' - live_size c' = mTotalSize c - live_size c + 20.
Proof.
  cbv zeta. split; [vm_compute; reflexivity|]. split; [vm_compute; reflexivity|].
  refine ((λ H, conj (proj1 (proj2 (proj2 H)))
                     (proj1 (proj2 (proj2 (proj2 (proj2 H))))))
    (C1_protected_entry_evicted_unaccounted everyone (at_time 0) 2
       (cache_after [OpUpdate everyone (at_time 0) 1%nat 1 20;
                     OpUpdate everyone (at_time 0) 2%nat 2 20;
                     OpUpdate everyone (at_time 0) 3%nat 3 30;
                     OpGet everyone 0 1] (LRUCache_new 45 100 5 0))
       {| mLastAccessTime := 0; mElementSize := 20;
          mWeakPointerElement := 2%nat; mPrimaryKey := 2 |}
       _ [3%nat] [LogTotalBeforeCleanup 70; LogRemovedLRU 2; LogRemovedLRU 3]
       _ _ _ _)).
  - apply (bool_decide_unpack _). vm_compute. exact I.
  - vm_compute. reflexivity.
  - vm_compute. reflexivity.
  - left. right. left.
Defined.

(** * The Size Index can lose track of the entries

    The LRU branch of cleanup erases [mElementSizeMap.find(size)], the
    first record of the size of the evicted entry, whatever its key
    (updateElement, for the same removal, walks [equal_range(size)] until
    it meets the key).  After a getElement has reordered the list, the
    first record of that size can belong to another entry. *)

(** C3, at the failing input: keys 1 and 2 are inserted with size 20,
    key 1 is read (the list is now 2, 1) and cleanup() runs with soft limit
    30.  The head, key 2, is evicted, but the record erased from
    mElementSizeMap is (20, 1): the Key Index and the Recency Index hold
    key 1, the Size Index holds key 2. *)
Theorem C3_size_index_keys_differ :
  let ops := [OpUpdate everyone (at_time 0) 1%nat 1 20;
              OpUpdate everyone (at_time 0) 2%nat 2 20;
              OpGet everyone 0 1;
              OpCleanup everyone (at_time 0) None] in
  let c := cache_after ops (LRUCache_new 30 100 5 0) in
  run ops (LRUCache_new 30 100 5 0) = Done c
  ∧ mElementList c = [1]
  ∧ mElementSizeMap c = [(20, 2)]
  ∧ key_index_keys c = {[1]}
  ∧ recency_index_keys c = {[1]}
  ∧ size_index_keys c = {[2]}
  ∧ key_index_keys c ≠ size_index_keys c.
Proof. vm_compute. split_and!; try reflexivity. discriminate. Qed.

(** C2, at the failing input: keys 1 and 2 are inserted with size 40, key
    1 is read, and cleanup() with soft limit 45 evicts key 2 while erasing
    the record (40, 1).  Key 2 is inserted again with size 10.  Six
    seconds later every entry is stale; the pass of cleanup takes the
    first record of the largest size, (40, 2), and evicts the entry of key
    2, whose size is 10, while the entry of size 40 stays. *)
Theorem C2_stale_pass_evicts_smaller_entry :
  let ops := [OpUpdate everyone (at_time 0) 1%nat 1 40;
              OpUpdate everyone (at_time 0) 2%nat 2 40;
              OpGet everyone 0 1;
              OpCleanup everyone (at_time 0) None;
              OpUpdate everyone (at_time 0) 2%nat 2 10] in
  let c := cache_after ops (LRUCache_new 45 100 5 0) in
  run ops (LRUCache_new 45 100 5 0) = Done c
  ∧ mElementList c = [1; 2]
  ∧ size_of (mElementMap c) 1 = 40
  ∧ size_of (mElementMap c) 2 = 10
  ∧ mElementSizeMap c = [(10, 2); (40, 2)]
  ∧ ∃ ev, cleanup_iteration everyone 6 None c = Some ev
      ∧ ev_log ev = [LogRemovedStale 2]
      ∧ mPrimaryKey (ev_victim ev) = 2
      ∧ mElementSize (ev_victim ev) = 10
      ∧ mElementList (ev_cache ev) = [1]
      ∧ mTotalSize (ev_cache ev) = 40.
Proof. vm_compute. split_and!; try reflexivity. eexists. split_and!; reflexivity. Qed.

(** C4, at the failing input: after the four operations of C3, key 3 is
    inserted with size 20 (total 40, soft limit 30).  Six seconds later
    cleanup() finds the head stale and takes the first record of the
    largest size, (20, 2); key 2 is not in mElementMap, so
    [mElementMap[2]] is a null pointer and the pass dereferences it: the
    call does not return, with mTotalSize above the soft limit and two
    entries in the list. *)
Theorem C4_cleanup_dereferences_null :
  let ops := [OpUpdate everyone (at_time 0) 1%nat 1 20;
              OpUpdate everyone (at_time 0) 2%nat 2 20;
              OpGet everyone 0 1;
              OpCleanup everyone (at_time 0) None;
              OpUpdate everyone (at_time 0) 3%nat 3 20] in
  let c := cache_after ops (LRUCache_new 30 100 5 0) in
  run ops (LRUCache_new 30 100 5 0) = Done c
  ∧ mElementList c = [1; 3]
  ∧ mElementSizeMap c = [(20, 2); (20, 3)]
  ∧ mElementMap c !! 2 = None
  ∧ mTotalSize c = 40
  ∧ cleanup_guard c = true
  ∧ cleanup_iteration everyone 6 None c = None
  ∧ cleanup everyone (at_time 6) None c = Fault.
Proof. vm_compute. split_and!; reflexivity. Qed.

(** * The cleaner thread stops at the flag *)

Lemma still_running_nil : still_running [].
Proof. split; apply not_elem_of_nil. Qed.

Lemma still_running_app t1 t2 : still_running t1 → still_running t2 → still_running (t1 ++ t2).
Proof. intros [? ?] [? ?]. split; intros [?|?]%elem_of_app; done. Qed.

(** What a pass adds to the trace before it tests the flag. *)
Lemma cleaner_pass_events w c c' events :
  cleaner_pass w c = Done (c', events) →
  (wait_for w = cv_no_timeout ∧ events = [])
  ∨ (wait_for w = cv_timeout ∧ ∃ toClean, events = [CleanerCleanup toClean]).
Proof.
  unfold cleaner_pass. destruct (run_sections (meanwhile w) c) as [c1| |]; [|done|done].
  destruct (wait_for w).
  - intros [= <- <-]. by left.
  - destruct (cleanup _ _ _ _) as [[[c2 tc] lg]| |]; [|done|done].
    intros [= <- <-]. right. eauto.
Qed.

Lemma cleaner_pass_still_running w c c' events :
  cleaner_pass w c = Done (c', events) → still_running (events ++ [CleanerReadFlag false]).
Proof.
  intros [[_ ->]|[_ [tc ->]]]%cleaner_pass_events; split; simpl;
    rewrite ?elem_of_cons, elem_of_nil; naive_solver.
Qed.

(** The trace of the loop: either the thread has not read the flag as
    set, or that read and the break are its last two events. *)
Lemma runCleanerThreadLoop_trace schedule c flag trace c' flag' trace' :
  still_running trace →
  runCleanerThreadLoop schedule c flag trace = Done (c', flag', trace') →
  still_running trace'
  ∨ ∃ t, trace' = t ++ [CleanerReadFlag true; CleanerBreak] ∧ still_running t.
Proof.
  revert c flag trace.
  induction schedule as [|w schedule IH]; intros c flag trace Htrace; simpl.
  - intros [= <- <- <-]. by left.
  - destruct (cleaner_pass w c) as [[c1 events]| |] eqn:Hpass; [|done|done].
    pose proof (cleaner_pass_still_running _ _ _ _ Hpass) as Hev.
    destruct (flag_read w flag).
    + intros [= <- <- <-]. right. exists (trace ++ events).
      split; [by rewrite <- app_assoc|].
      apply still_running_app; [done|].
      destruct Hev as [H1 H2]. split; intros ?; [apply H1|apply H2];
        apply elem_of_app; by left.
    + apply IH. by apply still_running_app.
Qed.

Lemma runCleanerThreadLoop_break passes w rest c flag trace :
  Forall (λ w', flag_read w' false = false) passes →
  flag_read w false = true →
  flag = false →
  runCleanerThreadLoop (passes ++ w :: rest) c flag trace =
  runCleanerThreadLoop (passes ++ [w]) c flag trace.
Proof.
  intros Hpasses Hw ->. revert c trace.
  induction Hpasses as [|w' passes Hw' _ IH]; intros c trace; simpl.
  - destruct (cleaner_pass w c) as [[c1 events]| |]; [|done|done]. by rewrite Hw.
  - destruct (cleaner_pass w' c) as [[c1 events]| |]; [|done|done]. by rewrite Hw'.
Qed.

Lemma flag_read_false w flag : flag_read w flag = false → flag = false.
Proof. unfold flag_read, endCleaningThread. by destruct (owner_ends w). Qed.

(** The pass that first reads the flag as set ends the loop: what the
    pass adds to the trace is followed by that read and the break. *)
Lemma runCleanerThreadLoop_last_pass passes w rest c flag trace c' flag' trace' :
  Forall (λ w', flag_read w' flag = false) passes →
  flag_read w flag = true →
  runCleanerThreadLoop (passes ++ w :: rest) c flag trace = Done (c', flag', trace') →
  ∃ before c1 events,
    cleaner_pass w c1 = Done (c', events)
    ∧ still_running before
    ∧ trace' = trace ++ before ++ events ++ [CleanerReadFlag true; CleanerBreak]
    ∧ flag' = true.
Proof.
  intros Hpasses Hw. revert c trace.
  induction Hpasses as [|w' passes Hw' Hpasses IH]; intros c trace; simpl.
  - destruct (cleaner_pass w c) as [[c1 events]| |] eqn:Hpass; [|done|done].
    rewrite Hw. intros [= <- <- <-].
    exists [], c, events. split_and!; [done|apply still_running_nil|done|done].
  - destruct (cleaner_pass w' c) as [[c1 events]| |] eqn:Hpass; [|done|done].
    rewrite Hw'. pose proof (flag_read_false _ _ Hw') as ->.
    intros Hloop.
    destruct (IH c1 _ Hloop) as (before & c2 & events' & Hpass' & Hbefore & -> & ->).
    exists ((events ++ [CleanerReadFlag false]) ++ before), c2, events'.
    split_and!; [done| |by rewrite <- !app_assoc|done].
    apply still_running_app; [|done]. by eapply cleaner_pass_still_running.
Qed.

(** C9: in every run of runCleanerThreadLoop, against any schedule of
    wake-ups and any interleaving with the other threads, the test in
    which the thread reads mIsFinished as set is followed by the break
    and by nothing else: no cleanup is in the trace after it.  The loop
    does not break otherwise; the pass that first reads the flag as set
    does end it, with that read and the break as its last two events, and
    whatever the schedule holds after that pass is never executed. *)
Theorem C9_no_cleanup_after_flag_observed :
  (∀ schedule c flag c' flag' trace before after,
     runCleanerThreadLoop schedule c flag [] = Done (c', flag', trace) →
     trace = before ++ CleanerReadFlag true :: after →
     after = [CleanerBreak])
  ∧ (∀ schedule c flag c' flag' trace before after,
       runCleanerThreadLoop schedule c flag [] = Done (c', flag', trace) →
       trace = before ++ CleanerBreak :: after →
       after = [] ∧ ∃ before', before = before' ++ [CleanerReadFlag true])
  ∧ (∀ passes w rest c flag c' flag' trace,
       Forall (λ w', flag_read w' flag = false) passes →
       flag_read w flag = true →
       runCleanerThreadLoop (passes ++ w :: rest) c flag [] = Done (c', flag', trace) →
       flag' = true
       ∧ ∃ before, trace = before ++ [CleanerReadFlag true; CleanerBreak]
                   ∧ (CleanerReadFlag true ∉ before) ∧ (CleanerBreak ∉ before))
  ∧ (∀ passes w rest c,
       Forall (λ w', owner_ends w' = false) passes →
       owner_ends w = true →
       runCleanerThreadLoop (passes ++ w :: rest) c false [] =
       runCleanerThreadLoop (passes ++ [w]) c false [])
  ∧ (∀ w rest c,
       runCleanerThreadLoop (w :: rest) c true [] = runCleanerThreadLoop [w] c true []).
Proof.
  split_and!.
  - intros schedule c flag c' flag' trace before after Hrun Heq.
    pose proof (runCleanerThreadLoop_trace _ _ _ _ _ _ _ still_running_nil Hrun)
      as [[Hno _]|(t & -> & [Hno _])].
    + exfalso. apply Hno. rewrite Heq. apply elem_of_app. right. left.
    + symmetry in Heq. apply app_eq_inv in Heq as [(k & -> & Hk)|(k & -> & Hk)].
      * destruct k as [|x [|y [|z k]]]; simplify_eq/=; done.
      * destruct k as [|x k]; simplify_eq/=; [done|].
        exfalso. apply Hno. apply elem_of_app. right. left.
  - intros schedule c flag c' flag' trace before after Hrun Heq.
    pose proof (runCleanerThreadLoop_trace _ _ _ _ _ _ _ still_running_nil Hrun)
      as [[_ Hno]|(t & -> & [_ Hno])].
    + exfalso. apply Hno. rewrite Heq. apply elem_of_app. right. left.
    + symmetry in Heq. apply app_eq_inv in Heq as [(k & -> & Hk)|(k & -> & Hk)].
      * destruct k as [|x [|y [|z k]]]; simplify_eq/=.
        split; [done|]. by exists t.
      * destruct k as [|x k]; simplify_eq/=.
        exfalso. apply Hno. apply elem_of_app. right. left.
  - intros passes w rest c flag c' flag' trace Hpasses Hw Hrun.
    destruct (runCleanerThreadLoop_last_pass _ _ _ _ _ _ _ _ _ Hpasses Hw Hrun)
      as (before & c1 & events & Hpass & Hbefore & -> & ->).
    split; [done|]. exists (before ++ events). simpl.
    split; [by rewrite <- app_assoc|].
    pose proof (cleaner_pass_still_running _ _ _ _ Hpass) as [H1 H2].
    destruct Hbefore as [H3 H4].
    split; intros [?|?]%elem_of_app; try done; [apply H1|apply H2];
      apply elem_of_app; by left.
  - intros passes w rest c Hpasses Hw.
    apply runCleanerThreadLoop_break; [|by unfold flag_read; rewrite Hw|done].
    eapply Forall_impl; [exact Hpasses|]. intros w' Hw'. unfold flag_read. by rewrite Hw'.
  - intros w rest c. simpl.
    destruct (cleaner_pass w c) as [[c1 events]| |]; [|done|done].
    unfold flag_read, endCleaningThread. by destruct (owner_ends w).
Qed.

Lemma C9_witness :
  let tick ends := {| meanwhile := []; owner_ends := ends; wait_for := cv_timeout;
                      wake_alive := everyone; wake_clock := at_time 1 |} in
  let c := cache_after scenario_inserts scenario_cache in
  ∃ before, [CleanerCleanup [1%nat]; CleanerReadFlag false; CleanerCleanup [];
             CleanerReadFlag true; CleanerBreak]
            = before ++ [CleanerReadFlag true; CleanerBreak]
            ∧ (CleanerReadFlag true ∉ before) ∧ (CleanerBreak ∉ before).
Proof.
  cbv zeta.
  refine (proj2 (proj1 (proj2 (proj2 C9_no_cleanup_after_flag_observed))
           [{| meanwhile := []; owner_ends := false; wait_for := cv_timeout;
               wake_alive := everyone; wake_clock := at_time 1 |}]
           {| meanwhile := []; owner_ends := true; wait_for := cv_timeout;
              wake_alive := everyone; wake_clock := at_time 1 |}
           [{| meanwhile := []; owner_ends := false; wait_for := cv_timeout;
               wake_alive := everyone; wake_clock := at_time 1 |}]
           (cache_after scenario_inserts scenario_cache) false
           (cache_after (scenario_inserts ++ [OpCleanup everyone (at_time 1) None])
              scenario_cache)
           true _ _ _ _)).
  - repeat constructor.
  - reflexivity.
  - vm_compute. reflexivity.
Defined.

(** * While the three indices agree

    The Size Index stays sorted whatever happens; it keeps recording the
    entries with their sizes through updateElement, getElement and the
    passes of cleanup that take the stale branch. *)

Section records.

Implicit Types (m : gmap Z LRUCacheElement) (l : list Z) (k : Z).

Lemma records_of_ext m m' l :
  (∀ k, k ∈ l → size_of m k = size_of m' k) → records_of m l = records_of m' l.
Proof.
  intros H. unfold records_of. apply list_fmap_ext.
  intros i k Hk. rewrite H; [done|]. by eapply list_elem_of_lookup_2.
Qed.

Lemma records_of_app m l1 l2 : records_of m (l1 ++ l2) = records_of m l1 ++ records_of m l2.
Proof. unfold records_of. apply fmap_app. Qed.

Lemma records_of_erase m l k :
  k ∈ l → records_of m l ≡ₚ (size_of m k, k) :: records_of m (list_erase k l).
Proof.
  induction l as [|x l IH]; simpl.
  - by intros ?%elem_of_nil.
  - destruct (decide (x = k)) as [->|Hne]; [done|].
    intros [->|Hk]%elem_of_cons; [done|]. simpl.
    rewrite (IH Hk). apply Permutation_swap.
Qed.

Lemma elem_of_records_of m l r :
  r ∈ records_of m l ↔ snd r ∈ l ∧ fst r = size_of m (snd r).
Proof.
  unfold records_of. rewrite list_elem_of_fmap. split.
  - intros (k & -> & Hk). done.
  - intros [Hk Hr]. exists (snd r). split; [|done]. destruct r. simpl in *. by subst.
Qed.

Lemma records_of_move_back m l k e :
  NoDup l → k ∈ l → m !! k = Some e →
  ∀ e', mElementSize e' = mElementSize e →
  records_of (<[k := e']> m) (list_erase k l ++ [k]) ≡ₚ records_of m l.
Proof.
  intros Hl Hk He e' Hsize. rewrite records_of_app. simpl.
  rewrite size_of_insert_eq, Hsize.
  rewrite (records_of_ext _ m).
  - rewrite (records_of_erase m l k Hk).
    assert (size_of m k = mElementSize e) as -> by (unfold size_of; by rewrite He).
    by rewrite <- Permutation_cons_append.
  - intros k' Hk'. apply size_of_insert_ne. intros ->.
    by apply (erase_not_elem_self k' l).
Qed.

End records.

Lemma sizes_sorted_updateElement_locked element key size now c :
  sizes_sorted c → sizes_sorted (updateElement_locked element key size now c).
Proof.
  unfold sizes_sorted, updateElement_locked. intros Hs.
  destruct (mElementMap c !! key); simpl; apply sorted_insert; [|done].
  by apply sorted_erase_record.
Qed.

Lemma sizes_sorted_cleanup_iteration alive now pk c ev :
  sizes_sorted c → cleanup_iteration alive now pk c = Some ev → sizes_sorted (ev_cache ev).
Proof.
  unfold sizes_sorted. intros Hs. unfold cleanup_iteration.
  destruct (choose_victim now c) as [[[[victim l'] sm'] log]|] eqn:Hch; simpl; [|done].
  assert (Multimap.sorted sm') as Hs'.
  { revert Hch. unfold choose_victim.
    destruct (head (mElementList c)) as [front_key|]; simpl; [|done].
    destruct (mElementMap c !! front_key) as [front|]; simpl; [|done].
    destruct (decide _).
    - destruct (Multimap.rbegin (mElementSizeMap c)) as [largest|]; simpl; [|done].
      destruct (Multimap.find _ _) as [r|].
      + destruct (mElementMap c !! r.2) as [ce|]; simpl; [|done].
        destruct (mElementMap c !! mPrimaryKey ce); simpl; [|done].
        intros [= <- <- <- <-]. by apply sorted_erase_first.
      + by intros [= <- <- <- <-].
    - intros [= <- <- <- <-]. by apply sorted_erase_first. }
  by destruct (decide _); intros [= <-].
Qed.

Lemma size_index_agrees_updateElement_locked element key size now c :
  wf c → size_index_agrees c →
  size_index_agrees (updateElement_locked element key size now c).
Proof.
  intros Hwf Hag. pose proof Hwf as (Hnd & _ & _).
  unfold size_index_agrees, size_records, updateElement_locked in *.
  destruct (mElementMap c !! key) as [old|] eqn:Hold; simpl.
  - assert (key ∈ mElementList c) as Hin by (apply wf_elem_of; eauto).
    rewrite insert_perm, records_of_app. simpl. rewrite size_of_insert_eq. simpl.
    rewrite <- Permutation_cons_append. apply Permutation_skip.
    rewrite (records_of_ext _ (mElementMap c)).
    + apply (Permutation_cons_inv (a := (mElementSize old, key))).
      rewrite <- erase_record_perm.
      * rewrite Hag, (records_of_erase _ _ key Hin). unfold size_of. by rewrite Hold.
      * rewrite Hag. apply elem_of_records_of. simpl. split; [done|].
        unfold size_of. by rewrite Hold.
    + intros k' Hk'. apply size_of_insert_ne. intros ->.
      by apply (erase_not_elem_self k' (mElementList c)).
  - assert (key ∉ mElementList c) as Hnot.
    { rewrite wf_elem_of by done. rewrite Hold. by intros [? ?]. }
    rewrite insert_perm, records_of_app. simpl. rewrite size_of_insert_eq. simpl.
    rewrite <- Permutation_cons_append. apply Permutation_skip.
    rewrite (records_of_ext _ (mElementMap c)); [done|].
    intros k' Hk'. apply size_of_insert_ne. by intros ->.
Qed.

Lemma size_index_agrees_getElement alive now key c :
  wf c → size_index_agrees c → size_index_agrees (snd (getElement alive now key c)).
Proof.
  intros Hwf Hag. pose proof Hwf as (Hnd & _ & _).
  unfold size_index_agrees, size_records, getElement in *.
  destruct (mElementMap c !! key) as [e|] eqn:He; simpl; [|done].
  rewrite Hag. symmetry. eapply records_of_move_back; [done| |done|done].
  apply wf_elem_of; eauto.
Qed.

(** A pass that takes the stale branch, in a cache whose three indices
    agree: the evicted entry has the largest size of the Size Index, which
    is the largest size of all entries, and the indices agree afterwards. *)
Lemma stale_pass_evicts_largest alive now pk c front_key front :
  wf c → size_index_agrees c → sizes_sorted c →
  head (mElementList c) = Some front_key →
  mElementMap c !! front_key = Some front →
  now - mLastAccessTime front > mTimeThresholdSec c →
  ∃ ev, cleanup_iteration alive now pk c = Some ev
    ∧ ev_log ev = [LogRemovedStale (mPrimaryKey (ev_victim ev))]
    ∧ (∃ r, Multimap.rbegin (mElementSizeMap c) = Some r
            ∧ fst r = mElementSize (ev_victim ev))
    ∧ (∀ k e, mElementMap c !! k = Some e → mElementSize e ≤ mElementSize (ev_victim ev))
    ∧ size_index_agrees (ev_cache ev).
Proof.
  intros Hwf Hag Hsorted Hhead Hfront Hstale. pose proof Hwf as (Hnd & _ & _).
  unfold size_index_agrees, size_records, sizes_sorted in *.
  assert (mElementSizeMap c ≠ []) as Hne.
  { intros Hnil. rewrite Hnil in Hag. apply Permutation_nil_l in Hag.
    destruct (mElementList c); done. }
  destruct (rbegin_is_Some _ Hne) as [largest Hlast].
  destruct (find_rbegin _ _ Hlast) as [r Hr].
  destruct (find_Some _ _ _ Hr) as [Hrin Hrsize].
  assert (r ∈ records_of (mElementMap c) (mElementList c)) as Hrec by by rewrite <- Hag.
  apply elem_of_records_of in Hrec as [Hkin Hksize].
  destruct (proj1 (wf_elem_of c (snd r) Hwf) Hkin) as [ce Hce].
  pose proof (wf_primary_key _ _ _ Hwf Hce) as Hpk.
  assert (mElementSize ce = fst largest) as Hsize.
  { rewrite <- Hrsize, Hksize. unfold size_of. by rewrite Hce. }
  assert (∀ total,
            size_index_agrees
              (set_indices c (list_erase (snd r) (mElementList c))
                 (delete (snd r) (mElementMap c))
                 (Multimap.erase_first (fst largest) (mElementSizeMap c)) total)) as Hag'.
  { intros total. unfold size_index_agrees, size_records. simpl.
    rewrite (records_of_ext _ (mElementMap c)).
    - apply (Permutation_cons_inv (a := r)).
      rewrite <- (erase_first_perm _ _ _ Hr), Hag, (records_of_erase _ _ _ Hkin).
      rewrite <- Hksize. by destruct r.
    - intros k' Hk'. apply size_of_delete_ne. intros Heq. rewrite <- Heq in Hk'.
      by apply (erase_not_elem_self (snd r) (mElementList c)). }
  assert (∀ k e, mElementMap c !! k = Some e → mElementSize e ≤ mElementSize ce) as Hmax.
  { intros k e He. rewrite Hsize.
    apply (sorted_rbegin_max (mElementSizeMap c) largest (mElementSize e, k));
      [done|done|].
    rewrite Hag. apply elem_of_records_of. simpl. split.
    - apply wf_elem_of; eauto.
    - unfold size_of. by rewrite He. }
  unfold cleanup_iteration, choose_victim.
  rewrite Hhead. simpl. rewrite Hfront. simpl. rewrite decide_True by done.
  rewrite Hlast. simpl. rewrite Hr, Hce. simpl. rewrite Hpk, Hce. simpl. rewrite Hpk.
  destruct (decide (pk = Some (snd r))); eexists; (split; [reflexivity|]); simpl;
    rewrite ?Hpk; (split_and!; [done|by eauto|done|]); exact (Hag' 0).
Qed.

(** * When cleanup returns

    cleanup needs at most one pass per node of the list
    ([cleanup_not_OutOfFuel]) and, when it returns, has met the soft limit
    or emptied the cache ([cleanup_post]).  It does return from every
    cache whose three indices agree and whose list is in the order of the
    last accesses, provided the clock does not tick during the call. *)

Lemma fresh_pass alive now pk c :
  wf c → all_fresh now c → cleanup_guard c = true →
  ∃ ev, cleanup_iteration alive now pk c = Some ev ∧ all_fresh now (ev_cache ev).
Proof.
  intros Hwf Hfresh [Hne _]%cleanup_guard_true.
  destruct (mElementList c) as [|front_key l] eqn:Hl; [done|].
  assert (front_key ∈ mElementList c) as Hin by (rewrite Hl; left).
  apply wf_elem_of in Hin as [front Hfront]; [|done].
  assert (∃ ev, cleanup_iteration alive now pk c = Some ev) as [ev Hev].
  { unfold cleanup_iteration, choose_victim. rewrite Hl. simpl. rewrite Hfront. simpl.
    rewrite decide_False by (specialize (Hfresh _ _ Hfront); lia). simpl.
    destruct (decide _); eauto. }
  exists ev. split; [done|].
  intros k e. rewrite (cleanup_iteration_map _ _ _ _ _ Hev).
  intros [_ He]%lookup_delete_Some.
  destruct (same_config_cleanup_iteration _ _ _ _ _ Hev) as (_ & _ & Hthr & _).
  unfold getTimeThreshold in Hthr. rewrite Hthr. eauto.
Qed.

Lemma cleanup_loop_fresh fuel alive clock now pk c toClean log :
  (∀ i, clock i = now) →
  wf c → all_fresh now c → (length (mElementList c) ≤ fuel)%nat →
  ∃ out, cleanup_loop fuel alive clock pk c toClean log = Done out.
Proof.
  revert clock c toClean log.
  induction fuel as [|fuel IH]; intros clock c toClean log Hclock Hwf Hfresh Hlen; simpl.
  - destruct (cleanup_guard c) eqn:Hg; [|by eauto].
    apply cleanup_guard_true in Hg as [Hne _].
    destruct (mElementList c); [done|simpl in Hlen; lia].
  - destruct (cleanup_guard c) eqn:Hg; [|by eauto].
    rewrite Hclock.
    destruct (fresh_pass alive now pk c Hwf Hfresh Hg) as (ev & Hev & Hfresh').
    rewrite Hev. apply IH; [by intros i|by eapply wf_cleanup_iteration|done|].
    pose proof (cleanup_iteration_length _ _ _ _ _ Hwf Hev). lia.
Qed.

Lemma time_of_delete_ne (m : gmap Z LRUCacheElement) (k k' : Z) :
  k ≠ k' → time_of (delete k m) k' = time_of m k'.
Proof. intros. unfold time_of. by rewrite lookup_delete_ne. Qed.

Lemma StronglySorted_list_erase (f : Z → Z) (k : Z) (l : list Z) :
  StronglySorted Z.le (f <$> l) → StronglySorted Z.le (f <$> list_erase k l).
Proof.
  induction l as [|x l IH]; simpl; [done|].
  rewrite !StronglySorted_cons. intros [Hx Hl].
  destruct (decide (x = k)); [done|]. rewrite fmap_cons, StronglySorted_cons.
  split; [|auto]. rewrite Forall_fmap, Forall_forall in *.
  intros y ?%list_erase_sub. auto.
Qed.

Lemma recency_ordered_cleanup_iteration alive now pk c ev :
  wf c → recency_ordered c → cleanup_iteration alive now pk c = Some ev →
  recency_ordered (ev_cache ev).
Proof.
  intros Hwf Hord Hev. pose proof Hwf as (Hnd & _ & _).
  destruct (cleanup_iteration_spec _ _ _ _ _ Hwf Hev) as (_ & _ & Hl & Hm & _).
  unfold recency_ordered. rewrite Hl, Hm.
  erewrite list_fmap_ext; [by apply StronglySorted_list_erase|].
  intros i k' Hk'. apply time_of_delete_ne. intros Heq. rewrite <- Heq in Hk'.
  apply list_elem_of_lookup_2 in Hk'. by apply (erase_not_elem_self _ _ Hnd) in Hk'.
Qed.

(** If the head of an ordered list is fresh, every entry is. *)
Lemma recency_ordered_fresh now c front_key front :
  wf c → recency_ordered c →
  head (mElementList c) = Some front_key →
  mElementMap c !! front_key = Some front →
  now - mLastAccessTime front ≤ mTimeThresholdSec c →
  all_fresh now c.
Proof.
  intros Hwf Hord Hhead Hfront Hfresh k e He.
  assert (k ∈ mElementList c) as Hk by (apply wf_elem_of; eauto).
  unfold recency_ordered in Hord.
  destruct (mElementList c) as [|x l]; simpl in *; [done|]. injection Hhead as ->.
  apply elem_of_cons in Hk as [->|Hk]; [congruence|].
  apply StronglySorted_cons in Hord as [Hle _].
  rewrite Forall_fmap, Forall_forall in Hle. specialize (Hle k Hk). simpl in Hle.
  unfold time_of in Hle. rewrite Hfront, He in Hle. simpl in Hle. lia.
Qed.

Lemma cleanup_loop_returns fuel alive clock now pk c toClean log :
  (∀ i, clock i = now) →
  wf c → size_index_agrees c → sizes_sorted c → recency_ordered c →
  (length (mElementList c) ≤ fuel)%nat →
  ∃ out, cleanup_loop fuel alive clock pk c toClean log = Done out.
Proof.
  revert clock c toClean log.
  induction fuel as [|fuel IH];
    intros clock c toClean log Hclock Hwf Hag Hsorted Hord Hlen; simpl.
  - destruct (cleanup_guard c) eqn:Hg; [|by eauto].
    apply cleanup_guard_true in Hg as [Hne _].
    destruct (mElementList c); [done|simpl in Hlen; lia].
  - destruct (cleanup_guard c) eqn:Hg; [|by eauto].
    pose proof Hg as [Hne _]%cleanup_guard_true.
    destruct (head (mElementList c)) as [front_key|] eqn:Hhead;
      [|by destruct (mElementList c)].
    assert (front_key ∈ mElementList c) as Hin.
    { destruct (mElementList c); simpl in *; [done|]. injection Hhead as ->. left. }
    apply wf_elem_of in Hin as [front Hfront]; [|done].
    rewrite Hclock.
    destruct (decide (now - mLastAccessTime front > mTimeThresholdSec c)) as [Hstale|Hfresh].
    + destruct (stale_pass_evicts_largest alive now pk c front_key front
                  Hwf Hag Hsorted Hhead Hfront Hstale) as (ev & Hev & _ & _ & _ & Hag').
      rewrite Hev. apply IH; [by intros i| | | | |].
      * by eapply wf_cleanup_iteration.
      * done.
      * by eapply sizes_sorted_cleanup_iteration.
      * by eapply recency_ordered_cleanup_iteration.
      * pose proof (cleanup_iteration_length _ _ _ _ _ Hwf Hev). lia.
    + assert (all_fresh now c) as Hall.
      { eapply recency_ordered_fresh; [done|done|done|done|lia]. }
      destruct (fresh_pass alive now pk c Hwf Hall Hg) as (ev & Hev & Hall').
      rewrite Hev. eapply cleanup_loop_fresh; [by intros i| |exact Hall'|].
      * by eapply wf_cleanup_iteration.
      * pose proof (cleanup_iteration_length _ _ _ _ _ Hwf Hev). lia.
Qed.

(** cleanup returns, with the soft limit met or the cache empty, from
    every cache whose indices agree and whose list is in access order,
    under a clock that stands still during the call. *)
Lemma cleanup_returns alive clock now pk c :
  (∀ i, clock i = now) →
  wf c → size_index_agrees c → sizes_sorted c → recency_ordered c →
  ∃ c' toClean log,
    cleanup alive clock pk c = Done (c', toClean, log)
    ∧ (mTotalSize c' ≤ mMaxSizeSoftLimit c' ∨ mElementList c' = []).
Proof.
  intros Hclock Hwf Hag Hsorted Hord.
  destruct (cleanup_loop_returns (length (mElementList c)) alive clock now pk c []
              [LogTotalBeforeCleanup (mTotalSize c)] Hclock Hwf Hag Hsorted Hord)
    as [[[c' toClean] log] Hc]; [done|].
  exists c', toClean, log. split; [done|]. by eapply cleanup_post.
Qed.

(** * Reachable caches *)

Lemma sizes_sorted_step op c c' : sizes_sorted c → step op c = Done c' → sizes_sorted c'.
Proof.
  intros Hs.
  assert (∀ alive clock pk c1 c2 toClean log,
            sizes_sorted c1 → cleanup alive clock pk c1 = Done (c2, toClean, log) →
            sizes_sorted c2) as Hcleanup.
  { intros alive clock pk c1 c2 toClean log Hs1 Hc.
    eapply (cleanup_loop_invariant sizes_sorted) in Hc as [? _]; [done| |done].
    intros ? ? ? ? _ ?. by eapply sizes_sorted_cleanup_iteration. }
  destruct op as [alive clock element key size|alive now key|alive clock pk]; simpl.
  - unfold updateElement.
    pose proof (sizes_sorted_updateElement_locked element key size (clock O) c Hs) as Hs1.
    destruct (decide _).
    + destruct (cleanup _ _ _ _) as [[[c2 tc] lg]| |] eqn:Hc; simpl; [|done|done].
      intros [= <-]. by eapply Hcleanup.
    + by intros [= <-].
  - intros [= <-]. unfold getElement. by destruct (mElementMap c !! key).
  - destruct (cleanup _ _ _ _) as [[[c2 tc] lg]| |] eqn:Hc; [|done|done].
    intros [= <-]. by eapply Hcleanup.
Qed.

(** In every cache reached from a freshly constructed one, the Key Index
    and the Recency Index hold the same keys, each once, and the Size
    Index is sorted; no sequence of operations runs out of fuel. *)
Lemma reachable_invariants soft hard threshold interval ops :
  run ops (LRUCache_new soft hard threshold interval) ≠ OutOfFuel
  ∧ ∀ c, run ops (LRUCache_new soft hard threshold interval) = Done c →
      key_index_keys c = recency_index_keys c
      ∧ NoDup (mElementList c)
      ∧ sizes_sorted c.
Proof.
  split.
  - apply run_not_OutOfFuel, wf_new.
  - intros c Hrun. split_and!.
    + by destruct (wf_run _ _ _ (wf_new soft hard threshold interval) Hrun) as (_ & ? & _).
    + by destruct (wf_run _ _ _ (wf_new soft hard threshold interval) Hrun) as (? & _).
    + apply (run_invariant sizes_sorted sizes_sorted_step ops
               (LRUCache_new soft hard threshold interval)); [|done].
      apply SSorted_nil.
Qed.

(** Scenario B: A, B, C of sizes 20, 20, 25 with soft limit 60; six
    seconds later all are stale and cleanup() evicts C, the largest,
    leaving A and B with a total of 40. *)
Lemma scenario_B :
  let c := cache_after scenario_inserts scenario_cache in
  let c' := cache_after (scenario_inserts ++ [OpCleanup everyone (at_time 6) None])
              scenario_cache in
  cleanup everyone (at_time 6) None c =
    Done (c', [3%nat], [LogTotalBeforeCleanup 65; LogRemovedStale 3])
  ∧ mElementList c' = [1; 2]
  ∧ key_index_keys c' = {[1; 2]}
  ∧ size_index_keys c' = {[1; 2]}
  ∧ mTotalSize c' = 40.
Proof. vm_compute. repeat split. Qed.

(** * Without getElement the Size Index never loses track

    The LRU branch erases the first record of the size of the head.  As
    long as the records of each size are in the order of the list, that
    record is the head's own; only getElement, which moves a handle to the
    back of the list and leaves the multimap alone, breaks this order. *)

(** Case analysis on every [decide] in sight. *)
Ltac decide_cases := repeat (case_decide; simplify_eq/=); try done.

Section groups.

Implicit Types (m : gmap Z LRUCacheElement) (sm : list (Z * Z)) (l : list Z) (s k : Z).

Lemma group_keys_cons s r sm :
  group_keys s (r :: sm) = if decide (fst r = s) then snd r :: group_keys s sm
                           else group_keys s sm.
Proof. unfold group_keys. rewrite filter_cons. by destruct (decide _). Qed.

Lemma group_keys_none s sm : (∀ r, r ∈ sm → fst r ≠ s) → group_keys s sm = [].
Proof.
  induction sm as [|x sm IH]; [done|]. intros H. rewrite group_keys_cons.
  rewrite decide_False by (apply H; left). apply IH. intros r Hr. apply H. by right.
Qed.

Lemma group_keys_insert s r sm :
  Multimap.sorted sm →
  group_keys s (Multimap.insert r sm) =
    if decide (fst r = s) then group_keys s sm ++ [snd r] else group_keys s sm.
Proof.
  induction sm as [|x sm IH]; simpl.
  - intros _. rewrite group_keys_cons. by destruct (decide _).
  - intros [Hx Hs]%sorted_cons. destruct (Z.ltb_spec (fst r) (fst x)).
    + rewrite (group_keys_cons s r). destruct (decide (fst r = s)) as [<-|]; [|done].
      rewrite (group_keys_none (fst r) (x :: sm)); [done|].
      intros y [->|Hy]%elem_of_cons; [lia|]. specialize (Hx y Hy). lia.
    + rewrite !(group_keys_cons s x), (IH Hs).
      by destruct (decide (fst x = s)), (decide (fst r = s)).
Qed.

Lemma group_keys_erase_first s s0 sm :
  group_keys s (Multimap.erase_first s0 sm) =
    if decide (s0 = s) then tail (group_keys s sm) else group_keys s sm.
Proof.
  induction sm as [|x sm IH]; simpl.
  - by destruct (decide _).
  - rewrite (group_keys_cons s x). destruct (Z.eqb_spec (fst x) s0) as [Hx|Hx].
    + decide_cases.
    + rewrite group_keys_cons, IH. decide_cases.
Qed.

Lemma group_keys_erase_record s s0 k sm :
  group_keys s (Multimap.erase_record s0 k sm) =
    if decide (s0 = s) then list_erase k (group_keys s sm) else group_keys s sm.
Proof.
  induction sm as [|x sm IH]; simpl.
  - by destruct (decide _).
  - rewrite (group_keys_cons s x).
    destruct (Z.eqb_spec (fst x) s0) as [Hx|Hx]; simpl.
    + destruct (Z.eqb_spec (snd x) k) as [Hk|Hk].
      * decide_cases.
      * rewrite group_keys_cons, IH. decide_cases.
    + rewrite group_keys_cons, IH. decide_cases.
Qed.

Lemma find_group_keys s sm r : Multimap.find s sm = Some r → head (group_keys s sm) = Some (snd r).
Proof.
  induction sm as [|x sm IH]; simpl; [done|]. rewrite group_keys_cons.
  destruct (Z.eqb_spec (fst x) s).
  - intros [= ->]. by rewrite decide_True.
  - rewrite decide_False by done. auto.
Qed.

Lemma group_list_ext s m m' l :
  (∀ k, k ∈ l → size_of m k = size_of m' k) → group_list s m l = group_list s m' l.
Proof.
  induction l as [|x l IH]; [done|]. intros H. unfold group_list in *.
  rewrite !filter_cons, (H x) by left. rewrite IH; [done|].
  intros k Hk. apply H. by right.
Qed.

Lemma group_list_app s m l1 l2 :
  group_list s m (l1 ++ l2) = group_list s m l1 ++ group_list s m l2.
Proof. apply filter_app. Qed.

Lemma group_list_singleton s m k :
  group_list s m [k] = if decide (size_of m k = s) then [k] else [].
Proof. unfold group_list. rewrite filter_cons, filter_nil. done. Qed.

Lemma group_list_erase s m l k :
  group_list s m (list_erase k l) =
    if decide (size_of m k = s) then list_erase k (group_list s m l) else group_list s m l.
Proof.
  unfold group_list. induction l as [|x l IH]; simpl.
  - by destruct (decide _).
  - rewrite (filter_cons _ x l). destruct (decide (x = k)) as [->|Hne].
    + decide_cases.
    + rewrite filter_cons, IH. decide_cases.
Qed.

Lemma group_list_head s m l k :
  head l = Some k → size_of m k = s → head (group_list s m l) = Some k.
Proof.
  destruct l as [|x l]; simpl; [done|]. intros [= ->] Hs.
  unfold group_list. by rewrite filter_cons_True.
Qed.

End groups.

Lemma head_group_keys_find s (sm : list (Z * Z)) k :
  head (group_keys s sm) = Some k → Multimap.find s sm = Some (s, k).
Proof.
  induction sm as [|[s' k'] sm IH]; simpl; [done|]. rewrite group_keys_cons. simpl.
  destruct (Z.eqb_spec s' s) as [->|Hne].
  - rewrite decide_True by done. simpl. by intros [= ->].
  - rewrite decide_False by done. auto.
Qed.

(** Evicting the entry that comes first among those of its size keeps the
    records of every size in the order of the list. *)
Lemma aligned_evict c k s0 total :
  wf c → aligned c →
  size_of (mElementMap c) k = s0 →
  head (group_list s0 (mElementMap c) (mElementList c)) = Some k →
  aligned (set_indices c (list_erase k (mElementList c)) (delete k (mElementMap c))
             (Multimap.erase_first s0 (mElementSizeMap c)) total).
Proof.
  intros Hwf Hal Hsize Hhead s. unfold aligned in *. simpl. pose proof Hwf as (Hnd & _ & _).
  rewrite group_keys_erase_first, Hal.
  rewrite (group_list_ext s (delete k (mElementMap c)) (mElementMap c)).
  - rewrite group_list_erase, Hsize. destruct (decide (s0 = s)) as [<-|]; [|done].
    by rewrite (list_erase_head _ _ Hhead).
  - intros k' Hk'. apply size_of_delete_ne. intros ->.
    by apply (erase_not_elem_self k' (mElementList c)).
Qed.

Lemma agrees_evict c k s0 total :
  wf c → size_index_agrees c → aligned c →
  size_of (mElementMap c) k = s0 →
  head (group_list s0 (mElementMap c) (mElementList c)) = Some k →
  size_index_agrees
    (set_indices c (list_erase k (mElementList c)) (delete k (mElementMap c))
       (Multimap.erase_first s0 (mElementSizeMap c)) total).
Proof.
  intros Hwf Hag Hal Hsize Hhead. pose proof Hwf as (Hnd & _ & _).
  unfold size_index_agrees, size_records in *. simpl.
  assert (k ∈ mElementList c) as Hin.
  { apply head_Some_elem_of in Hhead. by apply list_elem_of_filter in Hhead as [_ ?]. }
  rewrite <- Hal in Hhead. apply head_group_keys_find in Hhead.
  rewrite (records_of_ext _ (mElementMap c)).
  - apply (Permutation_cons_inv (a := (s0, k))).
    rewrite <- (erase_first_perm _ _ _ Hhead), Hag, (records_of_erase _ _ _ Hin).
    by rewrite Hsize.
  - intros k' Hk'. apply size_of_delete_ne. intros ->.
    by apply (erase_not_elem_self k' (mElementList c)).
Qed.

(** In a consistent cache a pass erases from the multimap the record of
    the entry it evicts, and that entry is the first of its size in the
    list. *)
Lemma pass_shape alive now pk c ev :
  consistent c →
  cleanup_iteration alive now pk c = Some ev →
  let k := mPrimaryKey (ev_victim ev) in
  let s0 := mElementSize (ev_victim ev) in
  mElementSizeMap (ev_cache ev) = Multimap.erase_first s0 (mElementSizeMap c)
  ∧ size_of (mElementMap c) k = s0
  ∧ head (group_list s0 (mElementMap c) (mElementList c)) = Some k.
Proof.
  intros (Hwf & Hag & Hsorted & Hal). unfold cleanup_iteration.
  destruct (choose_victim now c) as [[[[victim l'] sm'] log]|] eqn:Hch; simpl; [|done].
  destruct (choose_victim_spec _ _ _ _ _ _ Hwf Hch) as (Hv & Hin & -> & _).
  assert (size_of (mElementMap c) (mPrimaryKey victim) = mElementSize victim) as Hsize.
  { unfold size_of. by rewrite Hv. }
  assert (sm' = Multimap.erase_first (mElementSize victim) (mElementSizeMap c)
          ∧ head (group_list (mElementSize victim) (mElementMap c) (mElementList c))
            = Some (mPrimaryKey victim)) as [-> Hhead].
  { revert Hch. unfold choose_victim.
    destruct (head (mElementList c)) as [front_key|] eqn:Hfk; simpl; [|done].
    destruct (mElementMap c !! front_key) as [front|] eqn:Hfront; simpl; [|done].
    pose proof (wf_primary_key _ _ _ Hwf Hfront) as Hpk.
    destruct (decide _).
    - destruct (Multimap.rbegin (mElementSizeMap c)) as [largest|] eqn:Hlast; simpl; [|done].
      destruct (find_rbegin _ _ Hlast) as [r Hr]. rewrite Hr.
      destruct (mElementMap c !! r.2) as [ce|] eqn:Hce; simpl; [|done].
      pose proof (wf_primary_key _ _ _ Hwf Hce) as Hpk'. rewrite Hpk', Hce. simpl.
      intros [= <- _ <- _].
      destruct (find_Some _ _ _ Hr) as [Hrin Hrsize].
      assert (r ∈ records_of (mElementMap c) (mElementList c)) as Hrec.
      { unfold size_index_agrees, size_records in Hag. by rewrite <- Hag. }
      apply elem_of_records_of in Hrec as [_ Hksize].
      assert (mElementSize ce = fst largest) as ->.
      { rewrite <- Hrsize, Hksize. unfold size_of. by rewrite Hce. }
      split; [done|]. rewrite <- Hal, Hpk'. by apply find_group_keys.
    - intros [= <- _ <- _]. split; [done|].
      apply group_list_head; [by rewrite Hpk|]. unfold size_of. by rewrite Hpk, Hfront. }
  by destruct (decide _); intros [= <-].
Qed.

Lemma consistent_cleanup_iteration alive now pk c ev :
  consistent c → cleanup_iteration alive now pk c = Some ev → consistent (ev_cache ev).
Proof.
  intros Hc Hev. pose proof Hc as (Hwf & Hag & Hsorted & Hal).
  destruct (pass_shape _ _ _ _ _ Hc Hev) as (Hsm & Hsize & Hhead).
  destruct (cleanup_iteration_spec _ _ _ _ _ Hwf Hev) as (_ & _ & Hl & Hm & _).
  pose proof (agrees_evict c _ _ 0 Hwf Hag Hal Hsize Hhead) as Hag'.
  pose proof (aligned_evict c _ _ 0 Hwf Hal Hsize Hhead) as Hal'.
  split_and!.
  - by eapply wf_cleanup_iteration.
  - unfold size_index_agrees, size_records in *. simpl in Hag'. by rewrite Hsm, Hl, Hm.
  - by eapply sizes_sorted_cleanup_iteration.
  - intros s. specialize (Hal' s). simpl in Hal'. by rewrite Hsm, Hl, Hm.
Qed.

(** In a consistent cache no pass dereferences a missing entry. *)
Lemma consistent_pass_defined alive now pk c :
  consistent c → cleanup_guard c = true → is_Some (cleanup_iteration alive now pk c).
Proof.
  intros (Hwf & Hag & Hsorted & Hal) [Hne _]%cleanup_guard_true.
  destruct (head (mElementList c)) as [front_key|] eqn:Hhead;
    [|by destruct (mElementList c)].
  assert (front_key ∈ mElementList c) as Hin by by apply head_Some_elem_of.
  apply wf_elem_of in Hin as [front Hfront]; [|done].
  destruct (decide (now - mLastAccessTime front > mTimeThresholdSec c)) as [Hstale|Hfresh].
  - destruct (stale_pass_evicts_largest alive now pk c front_key front
                Hwf Hag Hsorted Hhead Hfront Hstale) as (ev & -> & _). eauto.
  - unfold cleanup_iteration, choose_victim. rewrite Hhead. simpl. rewrite Hfront. simpl.
    rewrite decide_False by done. simpl. destruct (decide _); eauto.
Qed.

Lemma consistent_cleanup_loop fuel alive clock pk c toClean log :
  consistent c → (length (mElementList c) ≤ fuel)%nat →
  ∃ c' toClean' log',
    cleanup_loop fuel alive clock pk c toClean log = Done (c', toClean', log')
    ∧ consistent c'.
Proof.
  revert clock c toClean log.
  induction fuel as [|fuel IH]; intros clock c toClean log Hc Hlen; simpl.
  - destruct (cleanup_guard c) eqn:Hg; [|by eauto 6].
    apply cleanup_guard_true in Hg as [Hne _].
    destruct (mElementList c); [done|simpl in Hlen; lia].
  - destruct (cleanup_guard c) eqn:Hg; [|by eauto 6].
    destruct (consistent_pass_defined alive (clock O) pk c Hc Hg) as [ev Hev].
    rewrite Hev. apply IH; [by eapply consistent_cleanup_iteration|].
    destruct Hc as (Hwf & _).
    pose proof (cleanup_iteration_length _ _ _ _ _ Hwf Hev). lia.
Qed.

(** From a consistent cache cleanup returns, whatever the clock does, and
    the cache it leaves is consistent. *)
Lemma consistent_cleanup alive clock pk c :
  consistent c →
  ∃ c' toClean log, cleanup alive clock pk c = Done (c', toClean, log) ∧ consistent c'.
Proof. intros Hc. by apply consistent_cleanup_loop. Qed.

Lemma aligned_updateElement_locked element key size now c :
  consistent c → aligned (updateElement_locked element key size now c).
Proof.
  intros (Hwf & Hag & Hsorted & Hal) s. pose proof Hwf as (Hnd & _ & _).
  unfold aligned, sizes_sorted, updateElement_locked in *.
  destruct (mElementMap c !! key) as [old|] eqn:Hold; simpl.
  - rewrite group_keys_insert by by apply sorted_erase_record.
    rewrite group_keys_erase_record, Hal, group_list_app. simpl.
    rewrite (group_list_ext s (<[key:=updateAccessTime now (setSize size old)]> (mElementMap c))
               (mElementMap c) (list_erase key (mElementList c))).
    + rewrite group_list_erase.
      assert (size_of (mElementMap c) key = mElementSize old) as ->
        by (unfold size_of; by rewrite Hold).
      rewrite group_list_singleton, size_of_insert_eq. simpl.
      destruct (decide (size = s)); [done|]. by rewrite app_nil_r.
    + intros k' Hk'. apply size_of_insert_ne. intros ->.
      by apply (erase_not_elem_self k' (mElementList c)).
  - assert (key ∉ mElementList c) as Hnot.
    { rewrite wf_elem_of by done. rewrite Hold. by intros [? ?]. }
    rewrite group_keys_insert by done. rewrite Hal, group_list_app. simpl.
    rewrite (group_list_ext s
               (<[key:=updateAccessTime now (setSize size (LRUCacheElement_new element key))]>
                  (mElementMap c))
               (mElementMap c) (mElementList c)).
    + rewrite group_list_singleton, size_of_insert_eq. simpl.
      destruct (decide (size = s)); [done|]. by rewrite app_nil_r.
    + intros k' Hk'. apply size_of_insert_ne. by intros ->.
Qed.

Lemma consistent_updateElement_locked element key size now c :
  consistent c → consistent (updateElement_locked element key size now c).
Proof.
  intros Hc. pose proof Hc as (Hwf & Hag & Hsorted & Hal). split_and!.
  - by apply wf_updateElement_locked.
  - by apply size_index_agrees_updateElement_locked.
  - by apply sizes_sorted_updateElement_locked.
  - by apply aligned_updateElement_locked.
Qed.

Lemma consistent_step op c :
  is_get op = false → consistent c → ∃ c', step op c = Done c' ∧ consistent c'.
Proof.
  intros Hop Hc.
  destruct op as [alive clock element key size|alive now key|alive clock pk]; simpl;
    [|done|].
  - unfold updateElement.
    pose proof (consistent_updateElement_locked element key size (clock O) c Hc) as Hc1.
    destruct (decide _); [|by eauto].
    destruct (consistent_cleanup alive (λ i, clock (S i)) (Some key) _ Hc1)
      as (c' & toClean & log & -> & Hc'). simpl. eauto.
  - destruct (consistent_cleanup alive clock pk _ Hc) as (c' & toClean & log & -> & Hc').
    eauto.
Qed.

Lemma consistent_new soft hard threshold interval :
  consistent (LRUCache_new soft hard threshold interval).
Proof.
  split_and!.
  - apply wf_new.
  - unfold size_index_agrees, size_records. simpl. constructor.
  - apply SSorted_nil.
  - by intros s.
Qed.

(** The key sets of a consistent cache are equal. *)
Lemma consistent_key_sets c :
  consistent c →
  key_index_keys c = recency_index_keys c ∧ size_index_keys c = recency_index_keys c.
Proof.
  intros ((_ & Hdom & _) & Hag & _). split; [done|].
  unfold size_index_keys, recency_index_keys, Multimap.keys.
  unfold size_index_agrees, size_records, records_of in Hag.
  apply set_eq. intros k. rewrite !elem_of_list_to_set, Hag, <- list_fmap_compose.
  by rewrite list_fmap_id.
Qed.

(** Sequences of updateElement and cleanup calls, without getElement:
    every call returns, and the Key Index, the Recency Index and the Size
    Index hold the same keys throughout. *)
Lemma run_without_getElement soft hard threshold interval ops :
  forallb (λ op, negb (is_get op)) ops = true →
  ∃ c, run ops (LRUCache_new soft hard threshold interval) = Done c
    ∧ consistent c
    ∧ key_index_keys c = recency_index_keys c
    ∧ size_index_keys c = recency_index_keys c.
Proof.
  intros Hops.
  assert (∀ c0, consistent c0 → ∃ c, run ops c0 = Done c ∧ consistent c) as Hrun.
  { induction ops as [|op ops IH]; intros c0 Hc0; simpl; [by eauto|].
    simpl in Hops. apply andb_true_iff in Hops as [Hop Hops].
    apply negb_true_iff in Hop.
    destruct (consistent_step op c0 Hop Hc0) as (c1 & -> & Hc1). by apply IH. }
  destruct (Hrun _ (consistent_new soft hard threshold interval)) as (c & Hc & Hcons).
  exists c. split_and!; [done|done| |]; by apply consistent_key_sets.
Qed.

(** * Further properties of the cache *)

(** X1: in every cache reached from a freshly constructed one by
    updateElement, getElement and cleanup calls, mElementMap and
    mElementList hold the same keys, no key occurs twice in the list,
    getNumberOfElements is the number of keys of the map, and every
    element is stored under its own primary key. *)
Theorem X1_map_and_list_hold_the_same_entries
    (soft hard threshold interval : Z) (ops : list operation) (c : LRUCache) :
  run ops (LRUCache_new soft hard threshold interval) = Done c →
  key_index_keys c = recency_index_keys c
  ∧ NoDup (mElementList c)
  ∧ getNumberOfElements c = size (mElementMap c)
  ∧ (∀ k e, mElementMap c !! k = Some e → mPrimaryKey e = k).
Proof.
  intros Hrun.
  pose proof (wf_run _ _ _ (wf_new soft hard threshold interval) Hrun) as Hwf.
  pose proof Hwf as (Hnd & Hdom & Hkeys).
  split_and!; [done|done| |].
  - unfold getNumberOfElements.
    rewrite <- size_dom, Hdom, size_list_to_set by done. done.
  - intros k e. by apply wf_primary_key.
Qed.

Lemma X1_witness :
  let c := cache_after (scenario_inserts ++ [OpGet everyone 1 1; OpCleanup everyone (at_time 2) None])
             scenario_cache in
  key_index_keys c = recency_index_keys c
  ∧ NoDup (mElementList c)
  ∧ getNumberOfElements c = size (mElementMap c)
  ∧ (∀ k e, mElementMap c !! k = Some e → mPrimaryKey e = k).
Proof.
  apply (X1_map_and_list_hold_the_same_entries 60 100 5 0
           (scenario_inserts ++ [OpGet everyone 1 1; OpCleanup everyone (at_time 2) None])).
  vm_compute. reflexivity.
Defined.

(** X2: a sequence of updateElement and cleanup calls that contains no
    getElement always returns, and in the cache it leaves the map, the
    list and the size multimap hold the same keys, the multimap recording
    every entry with its current size. *)
Theorem X2_indices_agree_without_getElement
    (soft hard threshold interval : Z) (ops : list operation) :
  forallb (λ op, negb (is_get op)) ops = true →
  ∃ c, run ops (LRUCache_new soft hard threshold interval) = Done c
    ∧ key_index_keys c = recency_index_keys c
    ∧ size_index_keys c = recency_index_keys c
    ∧ mElementSizeMap c ≡ₚ size_records c.
Proof.
  intros Hops.
  destruct (run_without_getElement soft hard threshold interval ops Hops)
    as (c & Hrun & (_ & Hag & _) & Hk & Hs).
  exists c. split_and!; done.
Qed.

Lemma X2_witness :
  ∃ c, run (scenario_inserts ++ [OpCleanup everyone (at_time 6) None]) scenario_cache = Done c
    ∧ key_index_keys c = recency_index_keys c
    ∧ size_index_keys c = recency_index_keys c
    ∧ mElementSizeMap c ≡ₚ size_records c.
Proof.
  apply (X2_indices_agree_without_getElement 60 100 5 0
           (scenario_inserts ++ [OpCleanup everyone (at_time 6) None])).
  reflexivity.
Defined.

(** X3: on a cache whose map and list agree, the loop of cleanup makes at
    most one pass per element of the list, whatever the protected key and
    the clock; and when cleanup returns, mTotalSize is at most the soft
    limit or the list is empty, and the map and the list still agree. *)
Theorem X3_cleanup_is_bounded
    (alive : Payload → bool) (clock : nat → Z) (keyToSaveFromPurge : option Z)
    (c : LRUCache) :
  wf c →
  cleanup alive clock keyToSaveFromPurge c ≠ OutOfFuel
  ∧ ∀ c' toClean log,
      cleanup alive clock keyToSaveFromPurge c = Done (c', toClean, log) →
      (mTotalSize c' ≤ mMaxSizeSoftLimit c ∨ mElementList c' = []) ∧ wf c'.
Proof.
  intros Hwf. split; [by apply cleanup_not_OutOfFuel|].
  intros c' toClean log Hc. split; [|by eapply wf_cleanup].
  destruct (same_config_cleanup _ _ _ _ _ _ _ Hc) as (Hsoft & _).
  unfold getSoftMaxSize in Hsoft. rewrite <- Hsoft. by eapply cleanup_post.
Qed.

Lemma X3_witness :
  let c := cache_after scenario_inserts scenario_cache in
  cleanup everyone (at_time 1) (Some 3) c ≠ OutOfFuel
  ∧ ∀ c' toClean log,
      cleanup everyone (at_time 1) (Some 3) c = Done (c', toClean, log) →
      (mTotalSize c' ≤ mMaxSizeSoftLimit c ∨ mElementList c' = []) ∧ wf c'.
Proof.
  apply (X3_cleanup_is_bounded everyone (at_time 1) (Some 3)
           (cache_after scenario_inserts scenario_cache)).
  apply (bool_decide_unpack _). vm_compute. exact I.
Defined.

(** X4: from a cache in which the size multimap records every entry with
    its size, records of equal size in list order, cleanup returns
    whatever the clock and the protected key: no pass looks up a key that
    is missing from the map.  The cache it leaves has the same property
    and has met the soft limit or is empty. *)
Theorem X4_cleanup_returns_from_consistent_cache
    (alive : Payload → bool) (clock : nat → Z) (keyToSaveFromPurge : option Z)
    (c : LRUCache) :
  consistent c →
  ∃ c' toClean log,
    cleanup alive clock keyToSaveFromPurge c = Done (c', toClean, log)
    ∧ consistent c'
    ∧ (mTotalSize c' ≤ mMaxSizeSoftLimit c' ∨ mElementList c' = []).
Proof.
  intros Hc.
  destruct (consistent_cleanup alive clock keyToSaveFromPurge c Hc)
    as (c' & toClean & log & Hrun & Hc').
  exists c', toClean, log. split_and!; [done|done|]. by eapply cleanup_post.
Qed.

Lemma consistent_cache_after soft hard threshold interval ops :
  forallb (λ op, negb (is_get op)) ops = true →
  consistent (cache_after ops (LRUCache_new soft hard threshold interval)).
Proof.
  intros Hops.
  destruct (run_without_getElement soft hard threshold interval ops Hops)
    as (c & Hrun & Hc & _).
  unfold cache_after. by rewrite Hrun.
Qed.

Lemma wf_cache_after soft hard threshold interval ops :
  wf (cache_after ops (LRUCache_new soft hard threshold interval)).
Proof.
  unfold cache_after.
  destruct (run ops _) as [c| |] eqn:Hrun; try apply wf_new.
  by eapply wf_run; [apply wf_new|].
Qed.

Lemma X4_witness :
  let c := cache_after scenario_inserts scenario_cache in
  ∃ c' toClean log,
    cleanup everyone (λ i, 6 + Z.of_nat i) (Some 3) c = Done (c', toClean, log)
    ∧ consistent c'
    ∧ (mTotalSize c' ≤ mMaxSizeSoftLimit c' ∨ mElementList c' = []).
Proof.
  apply (X4_cleanup_returns_from_consistent_cache everyone (λ i, 6 + Z.of_nat i) (Some 3)
           (cache_after scenario_inserts scenario_cache)).
  by apply (consistent_cache_after 60 100 5 0 scenario_inserts).
Defined.

(** X5: in a cache whose map and list agree and whose size multimap
    records every entry with its size, a pass of cleanup that finds the
    head of the list stale evicts an entry of the largest size: its size
    is the size of the last record of the multimap and no entry of the
    cache is larger.  The pass logs the removal and leaves the multimap
    recording the remaining entries. *)
Theorem X5_stale_pass_evicts_a_largest_entry
    (alive : Payload → bool) (now : Z) (keyToSaveFromPurge : option Z)
    (c : LRUCache) (front_key : Z) (front : LRUCacheElement) :
  wf c → size_index_agrees c → sizes_sorted c →
  head (mElementList c) = Some front_key →
  mElementMap c !! front_key = Some front →
  now - mLastAccessTime front > mTimeThresholdSec c →
  ∃ ev, cleanup_iteration alive now keyToSaveFromPurge c = Some ev
    ∧ ev_log ev = [LogRemovedStale (mPrimaryKey (ev_victim ev))]
    ∧ mElementMap c !! mPrimaryKey (ev_victim ev) = Some (ev_victim ev)
    ∧ (∃ r, Multimap.rbegin (mElementSizeMap c) = Some r
            ∧ fst r = mElementSize (ev_victim ev))
    ∧ (∀ k e, mElementMap c !! k = Some e → mElementSize e ≤ mElementSize (ev_victim ev))
    ∧ size_index_agrees (ev_cache ev).
Proof.
  intros Hwf Hag Hsorted Hhead Hfront Hstale.
  destruct (stale_pass_evicts_largest alive now keyToSaveFromPurge c front_key front
              Hwf Hag Hsorted Hhead Hfront Hstale) as (ev & Hev & Hlog & Hr & Hmax & Hag').
  exists ev. split_and!; try done.
  by destruct (cleanup_iteration_spec _ _ _ _ _ Hwf Hev) as (? & _).
Qed.

Lemma X5_witness :
  let c := cache_after scenario_inserts scenario_cache in
  ∃ ev, cleanup_iteration everyone 6 None c = Some ev
    ∧ ev_log ev = [LogRemovedStale (mPrimaryKey (ev_victim ev))]
    ∧ mElementMap c !! mPrimaryKey (ev_victim ev) = Some (ev_victim ev)
    ∧ (∃ r, Multimap.rbegin (mElementSizeMap c) = Some r
            ∧ fst r = mElementSize (ev_victim ev))
    ∧ (∀ k e, mElementMap c !! k = Some e → mElementSize e ≤ mElementSize (ev_victim ev))
    ∧ size_index_agrees (ev_cache ev).
Proof.
  pose proof (consistent_cache_after 60 100 5 0 scenario_inserts eq_refl)
    as (Hwf & Hag & Hsorted & _).
  apply (X5_stale_pass_evicts_a_largest_entry everyone 6 None
           (cache_after scenario_inserts scenario_cache) 1
           {| mLastAccessTime := 0; mElementSize := 20;
              mWeakPointerElement := 1%nat; mPrimaryKey := 1 |});
    [exact Hwf|exact Hag|exact Hsorted| | |].
  - vm_compute. reflexivity.
  - vm_compute. reflexivity.
  - vm_compute. reflexivity.
Defined.

(** ** cleanup only removes *)

Lemma list_erase_sublist (k : Z) (l : list Z) : list_erase k l `sublist_of` l.
Proof.
  induction l as [|x l IH]; simpl; [done|].
  destruct (decide (x = k)); [by apply sublist_cons|by apply sublist_skip].
Qed.

Lemma erase_first_sublist (sz : Z) (m : list (Z * Z)) :
  Multimap.erase_first sz m `sublist_of` m.
Proof.
  induction m as [|x m IH]; simpl; [done|].
  destruct (fst x =? sz); [by apply sublist_cons|by apply sublist_skip].
Qed.

Lemma tail_sublist (l : list Z) : tail l `sublist_of` l.
Proof. destruct l; [done|]. by apply sublist_cons. Qed.

Lemma choose_victim_only_removes now c victim l' sm' log :
  choose_victim now c = Some (victim, l', sm', log) →
  l' `sublist_of` mElementList c ∧ sm' `sublist_of` mElementSizeMap c.
Proof.
  unfold choose_victim.
  destruct (head (mElementList c)) as [front_key|]; simpl; [|done].
  destruct (mElementMap c !! front_key) as [front|]; simpl; [|done].
  destruct (decide _).
  - destruct (Multimap.rbegin (mElementSizeMap c)) as [largest|]; simpl; [|done].
    destruct (Multimap.find _ _) as [r|].
    + destruct (mElementMap c !! r.2) as [ce|]; simpl; [|done].
      destruct (mElementMap c !! mPrimaryKey ce); simpl; [|done].
      intros [= <- <- <- <-]. split; [apply list_erase_sublist|apply erase_first_sublist].
    + by intros [= <- <- <- <-].
  - intros [= <- <- <- <-]. split; [apply tail_sublist|apply erase_first_sublist].
Qed.

Lemma only_removed_cleanup_iteration alive now pk c ci ev :
  only_removed c ci → cleanup_iteration alive now pk ci = Some ev →
  only_removed c (ev_cache ev).
Proof.
  intros (Hm & Hl & Hs) Hev.
  pose proof (cleanup_iteration_map _ _ _ _ _ Hev) as Hm'.
  revert Hev. unfold cleanup_iteration.
  destruct (choose_victim now ci) as [[[[victim l'] sm'] log]|] eqn:Hch; simpl; [|done].
  destruct (choose_victim_only_removes _ _ _ _ _ _ Hch) as [Hl' Hs'].
  intros Hev.
  assert (mElementList (ev_cache ev) = l' ∧ mElementSizeMap (ev_cache ev) = sm') as [Hel Hes].
  { by destruct (decide _); injection Hev as <-. }
  split_and!.
  - rewrite Hm'. etrans; [apply delete_subseteq|done].
  - rewrite Hel. by etrans.
  - rewrite Hes. by etrans.
Qed.

(** X6: cleanup only removes.  Every entry of the cache it returns was in
    the cache before, unchanged (same size, access time and payload);
    the list it returns is the old list with some nodes taken out, the
    order of the others kept; and so is the size multimap. *)
Theorem X6_cleanup_only_removes
    (alive : Payload → bool) (clock : nat → Z) (keyToSaveFromPurge : option Z)
    (c c' : LRUCache) (toClean : list Payload) (log : list log_event) :
  cleanup alive clock keyToSaveFromPurge c = Done (c', toClean, log) →
  (∀ k e, mElementMap c' !! k = Some e → mElementMap c !! k = Some e)
  ∧ mElementList c' `sublist_of` mElementList c
  ∧ mElementSizeMap c' `sublist_of` mElementSizeMap c
  ∧ (getNumberOfElements c' ≤ getNumberOfElements c)%nat.
Proof.
  intros Hc.
  eapply (cleanup_loop_invariant (only_removed c)) in Hc as [(Hm & Hl & Hs) _].
  - split_and!; [|done|done|by apply sublist_length].
    intros k e He. by eapply lookup_weaken.
  - intros ci now ev Hi _ Hev. by eapply only_removed_cleanup_iteration.
  - by split_and!.
Qed.

Lemma X6_witness :
  let c := cache_after scenario_inserts scenario_cache in
  let c' := cache_after (scenario_inserts ++ [OpCleanup everyone (at_time 6) None])
              scenario_cache in
  (∀ k e, mElementMap c' !! k = Some e → mElementMap c !! k = Some e)
  ∧ mElementList c' `sublist_of` mElementList c
  ∧ mElementSizeMap c' `sublist_of` mElementSizeMap c
  ∧ (getNumberOfElements c' ≤ getNumberOfElements c)%nat.
Proof.
  apply (X6_cleanup_only_removes everyone (at_time 6) None
           (cache_after scenario_inserts scenario_cache)
           (cache_after (scenario_inserts ++ [OpCleanup everyone (at_time 6) None])
              scenario_cache)
           [3%nat] [LogTotalBeforeCleanup 65; LogRemovedStale 3]).
  vm_compute. reflexivity.
Defined.

(** ** Accounting *)

Lemma live_size_move_back (m : gmap Z LRUCacheElement) (l : list Z) (k : Z)
    (e' : LRUCacheElement) :
  NoDup l →
  sum_sizes (<[k := e']> m) (list_erase k l ++ [k]) =
  sum_sizes m (list_erase k l) + mElementSize e'.
Proof.
  intros Hl. rewrite sum_sizes_app. simpl. rewrite size_of_insert_eq.
  rewrite sum_sizes_insert_not_elem by by apply erase_not_elem_self. lia.
Qed.

Lemma excess_updateElement_locked element key size now c :
  wf c → excess (updateElement_locked element key size now c) = excess c.
Proof.
  intros Hwf. pose proof Hwf as (Hnd & _ & _).
  unfold excess, live_size, updateElement_locked.
  destruct (mElementMap c !! key) as [old|] eqn:Hold; simpl.
  - assert (key ∈ mElementList c) as Hin by (apply wf_elem_of; eauto).
    rewrite live_size_move_back by done. simpl.
    rewrite (sum_sizes_erase _ _ _ Hin).
    assert (size_of (mElementMap c) key = mElementSize old) as ->
      by (unfold size_of; by rewrite Hold).
    lia.
  - assert (key ∉ mElementList c) as Hnot.
    { rewrite wf_elem_of by done. rewrite Hold. by intros [? ?]. }
    rewrite sum_sizes_app. simpl. rewrite size_of_insert_eq. simpl.
    rewrite sum_sizes_insert_not_elem by done. lia.
Qed.

Lemma excess_getElement alive now key c :
  wf c → excess (snd (getElement alive now key c)) = excess c.
Proof.
  intros Hwf. pose proof Hwf as (Hnd & _ & _).
  unfold excess, live_size, getElement.
  destruct (mElementMap c !! key) as [e|] eqn:He; simpl; [|done].
  assert (key ∈ mElementList c) as Hin by (apply wf_elem_of; eauto).
  rewrite live_size_move_back by done. simpl.
  rewrite (sum_sizes_erase _ _ _ Hin).
  assert (size_of (mElementMap c) key = mElementSize e) as ->
    by (unfold size_of; by rewrite He).
  lia.
Qed.

(** The invariant of the loop of cleanup for the accounting. *)
Lemma excess_cleanup alive clock pk c c' toClean log :
  wf c →
  cleanup alive clock pk c = Done (c', toClean, log) →
  excess c' = excess c + drift pk c c'.
Proof.
  intros Hwf Hc.
  eapply (cleanup_loop_invariant
            (λ ci, wf ci
                   ∧ (∀ k x, mElementMap ci !! k = Some x → mElementMap c !! k = Some x)
                   ∧ excess ci = excess c + drift pk c ci))
    in Hc as [(_ & _ & ?) _]; [done| |].
  - intros ci now ev (Hwfi & Hsub & Hex) _ Hev.
    pose proof (excess_cleanup_iteration _ _ _ _ _ Hwfi Hev) as Hex'.
    destruct (cleanup_iteration_spec _ _ _ _ _ Hwfi Hev) as (Hv & _ & _ & Hm & _).
    split_and!.
    + by eapply wf_cleanup_iteration.
    + intros k x. rewrite Hm. intros [_ ?]%lookup_delete_Some. auto.
    + rewrite Hex', Hex. unfold drift. destruct pk as [k0|];
        [|destruct (decide _); [done|lia]].
      rewrite Hm. destruct (decide (Some k0 = Some (mPrimaryKey (ev_victim ev))))
        as [[= ->]|Hne].
      * rewrite Hv, lookup_delete_eq, (Hsub _ _ Hv). lia.
      * rewrite lookup_delete_ne by congruence. lia.
  - split_and!; [done|done|]. unfold drift. destruct pk as [k0|]; [|lia].
    destruct (mElementMap c !! k0); lia.
Qed.

Lemma sum_sizes_nonneg (m : gmap Z LRUCacheElement) (l : list Z) :
  (∀ k e, m !! k = Some e → 0 ≤ mElementSize e) → 0 ≤ sum_sizes m l.
Proof.
  intros Hm. induction l as [|x l IH]; simpl; [lia|].
  unfold size_of at 1. destruct (m !! x) as [e|] eqn:He; simpl; [|lia].
  specialize (Hm _ _ He). lia.
Qed.

(** With no negative size in the cache, cleanup only lowers mTotalSize. *)
Lemma total_cleanup alive clock pk c c' toClean log :
  wf c → sizes_nonneg c →
  cleanup alive clock pk c = Done (c', toClean, log) →
  sizes_nonneg c' ∧ mTotalSize c' ≤ mTotalSize c.
Proof.
  intros Hwf Hsizes Hc.
  eapply (cleanup_loop_invariant
            (λ ci, wf ci ∧ sizes_nonneg ci ∧ mTotalSize ci ≤ mTotalSize c))
    in Hc as [(_ & ? & ?) _]; [done| |by split_and!].
  intros ci now ev (Hwfi & Hsi & Hle) _ Hev.
  destruct (cleanup_iteration_spec _ _ _ _ _ Hwfi Hev) as (Hv & _ & _ & Hm & Ht & _).
  split_and!.
  - by eapply wf_cleanup_iteration.
  - unfold sizes_nonneg. rewrite Hm. by apply map_Forall_delete.
  - rewrite Ht. pose proof (Hsi _ _ Hv) as Hsize. simpl in Hsize.
    destruct (decide _); lia.
Qed.

Lemma total_updateElement_locked element key size now c :
  mTotalSize (updateElement_locked element key size now c) =
    mTotalSize c - size_of (mElementMap c) key + size.
Proof.
  unfold updateElement_locked, size_of.
  destruct (mElementMap c !! key); simpl; lia.
Qed.

Lemma sizes_nonneg_updateElement_locked element key size now c :
  0 ≤ size → sizes_nonneg c → sizes_nonneg (updateElement_locked element key size now c).
Proof.
  intros Hsize Hc. unfold sizes_nonneg, updateElement_locked.
  destruct (mElementMap c !! key); simpl; by apply map_Forall_insert_2.
Qed.

(** Between which bounds cleanup leaves mTotalSize. *)
Lemma total_cleanup_bounds alive clock pk c c' toClean log :
  wf c → sizes_nonneg c →
  cleanup alive clock pk c = Done (c', toClean, log) →
  mTotalSize c - live_size c ≤ mTotalSize c' ≤ mTotalSize c.
Proof.
  intros Hwf Hsizes Hc.
  destruct (total_cleanup _ _ _ _ _ _ _ Hwf Hsizes Hc) as [Hsizes' Hle].
  pose proof (excess_cleanup _ _ _ _ _ _ _ Hwf Hc) as Hex.
  pose proof (sum_sizes_nonneg (mElementMap c') (mElementList c') Hsizes') as Hlive.
  assert (0 ≤ drift pk c c') as Hdrift.
  { unfold drift. destruct pk as [k|]; [|done].
    destruct (mElementMap c !! k) as [e|] eqn:He; [|done].
    pose proof (Hsizes _ _ He). by destruct (mElementMap c' !! k). }
  unfold excess, live_size in *. lia.
Qed.

(** X7: while the sums and differences formed on mTotalSize stay in the
    range of int64_t, the locked block of updateElement, getElement, and
    every cleanup that does not evict the entry of its protected key (in
    particular cleanup() without one) leave the difference between
    mTotalSize and the sum of the sizes of the entries unchanged; a
    cleanup that evicts the protected entry raises it by the size of that
    entry.  The locked block forms mTotalSize minus the old size of the
    key, then plus the new size; a cleanup on a cache without negative
    sizes keeps mTotalSize between its old value and that value minus the
    sizes of the entries. *)
Theorem X7_total_size_accounting (c : LRUCache) :
  wf c →
  (∀ element key size now,
     int64 (mTotalSize c - size_of (mElementMap c) key) →
     int64 (mTotalSize c - size_of (mElementMap c) key + size) →
     mTotalSize (updateElement_locked element key size now c) =
       mTotalSize c - size_of (mElementMap c) key + size
     ∧ int64 (mTotalSize (updateElement_locked element key size now c))
     ∧ excess (updateElement_locked element key size now c) = excess c)
  ∧ (∀ alive now key, excess (snd (getElement alive now key c)) = excess c)
  ∧ (∀ alive clock pk c' toClean log,
       sizes_nonneg c →
       int64 (mTotalSize c) →
       int64 (mTotalSize c - live_size c) →
       cleanup alive clock pk c = Done (c', toClean, log) →
       excess c' = excess c + drift pk c c'
       ∧ (pk = None → mTotalSize c' - live_size c' = mTotalSize c - live_size c)
       ∧ mTotalSize c - live_size c ≤ mTotalSize c' ≤ mTotalSize c
       ∧ int64 (mTotalSize c')).
Proof.
  intros Hwf. split_and!.
  - intros element key size now _ Hrange.
    rewrite total_updateElement_locked. split_and!; [done|done|].
    by apply excess_updateElement_locked.
  - intros. by apply excess_getElement.
  - intros alive clock pk c' toClean log Hsizes Hmax Hmin Hc.
    pose proof (excess_cleanup _ _ _ _ _ _ _ Hwf Hc) as Hex.
    pose proof (total_cleanup_bounds _ _ _ _ _ _ _ Hwf Hsizes Hc) as Hb.
    split_and!; [done| |lia|lia|unfold int64 in *; lia].
    intros ->. unfold excess, drift in Hex. lia.
Qed.

Lemma X7_witness :
  let c := cache_after scenario_inserts scenario_cache in
  let c' := cache_after (scenario_inserts ++ [OpCleanup everyone (at_time 6) None])
              scenario_cache in
  mTotalSize c' - live_size c' = mTotalSize c - live_size c
  ∧ mTotalSize c - live_size c ≤ mTotalSize c' ≤ mTotalSize c.
Proof.
  cbv zeta.
  refine ((λ H, conj (proj1 (proj2 H) eq_refl) (proj1 (proj2 (proj2 H))))
            (proj2 (proj2 (X7_total_size_accounting
                             (cache_after scenario_inserts scenario_cache)
                             (wf_cache_after 60 100 5 0 scenario_inserts)))
               everyone (at_time 6) None _ [3%nat]
               [LogTotalBeforeCleanup 65; LogRemovedStale 3] _ _ _ _)).
  - apply (bool_decide_unpack _). vm_compute. exact I.
  - apply (bool_decide_unpack _). vm_compute. exact I.
  - apply (bool_decide_unpack _). vm_compute. exact I.
  - vm_compute. reflexivity.
Defined.

(** X8: what updateElement does to the accounting, for a size that is
    not negative, on a cache without negative sizes, while the sums and
    differences formed on mTotalSize stay in the range of int64_t.  When
    the call returns, the difference between mTotalSize and the sum of
    the sizes of the entries is what it was, unless the cleanup the call
    triggered evicted the entry just updated: then it has grown by the
    size passed to the call.  mTotalSize is then in the range of
    int64_t. *)
Theorem X8_updateElement_accounting
    (alive : Payload → bool) (clock : nat → Z) (element : Payload) (key size : Z)
    (c c' : LRUCache) (toClean : list Payload) (log : list log_event) :
  wf c →
  sizes_nonneg c →
  0 ≤ size →
  int64 (mTotalSize c - size_of (mElementMap c) key) →
  int64 (mTotalSize c - size_of (mElementMap c) key + size) →
  int64 (mTotalSize c - live_size c) →
  updateElement alive clock element key size c = Done (c', toClean, log) →
  mTotalSize c' - live_size c' =
    mTotalSize c - live_size c + match mElementMap c' !! key with
                                 | Some _ => 0
                                 | None => size
                                 end
  ∧ mTotalSize c - live_size c ≤ mTotalSize c'
      ≤ mTotalSize c - size_of (mElementMap c) key + size
  ∧ int64 (mTotalSize c').
Proof.
  intros Hwf Hsizes Hsize _ Hmax Hmin. unfold updateElement.
  pose proof (excess_updateElement_locked element key size (clock O) c Hwf) as Hex1.
  pose proof (wf_updateElement_locked element key size (clock O) c Hwf) as Hwf1.
  pose proof (total_updateElement_locked element key size (clock O) c) as Ht1.
  pose proof (sizes_nonneg_updateElement_locked element key size (clock O) c Hsize Hsizes)
    as Hsizes1.
  assert (∃ e, mElementMap (updateElement_locked element key size (clock O) c) !! key = Some e
               ∧ mElementSize e = size) as (e & He & Hse).
  { unfold updateElement_locked. destruct (mElementMap c !! key); simpl;
      rewrite lookup_insert_eq; eauto. }
  assert (0 ≤ live_size (updateElement_locked element key size (clock O) c)) as Hlive1
    by by apply sum_sizes_nonneg.
  destruct (decide _).
  - destruct (cleanup _ _ _ _) as [[[c2 tc] lg]| |] eqn:Hc; simpl; [|done|done].
    intros [= <- <- <-].
    pose proof (excess_cleanup _ _ _ _ _ _ _ Hwf1 Hc) as Hex.
    pose proof (total_cleanup_bounds _ _ _ _ _ _ _ Hwf1 Hsizes1 Hc) as Hb.
    unfold drift in Hex. rewrite He in Hex. unfold excess, int64 in *.
    destruct (mElementMap c2 !! key); split_and!; lia.
  - intros [= <- <- <-]. rewrite He. unfold excess, int64 in *. split_and!; lia.
Qed.

Lemma X8_witness :
  let c := cache_after [OpUpdate everyone (at_time 0) 1%nat 1 50] scenario_cache in
  let c' := cache_after [OpUpdate everyone (at_time 0) 1%nat 1 50;
                         OpUpdate everyone (at_time 0) 1%nat 1 200] scenario_cache in
  mTotalSize c' - live_size c' =
    mTotalSize c - live_size c + match mElementMap c' !! 1 with
                                 | Some _ => 0
                                 | None => 200
                                 end
  ∧ mTotalSize c - live_size c ≤ mTotalSize c' ≤ mTotalSize c - size_of (mElementMap c) 1 + 200
  ∧ int64 (mTotalSize c').
Proof.
  apply (X8_updateElement_accounting everyone (at_time 0) 1%nat 1 200
           (cache_after [OpUpdate everyone (at_time 0) 1%nat 1 50] scenario_cache) _
           [] [LogUpdated 1; LogTotalBeforeCleanup 200; LogRemovedLRU 1]).
  - apply (wf_cache_after 60 100 5 0).
  - apply (bool_decide_unpack _). vm_compute. exact I.
  - lia.
  - apply (bool_decide_unpack _). vm_compute. exact I.
  - apply (bool_decide_unpack _). vm_compute. exact I.
  - apply (bool_decide_unpack _). vm_compute. exact I.
  - vm_compute. reflexivity.
Defined.

Lemma never_undercounts_updateElement_locked element key size now c :
  0 ≤ size → never_undercounts c →
  never_undercounts (updateElement_locked element key size now c).
Proof.
  intros Hsize (Hwf & Hsizes & Hex). split_and!.
  - by apply wf_updateElement_locked.
  - intros k e. unfold updateElement_locked.
    destruct (mElementMap c !! key) as [old|]; simpl;
      (destruct (decide (key = k)) as [->|Hne];
       [rewrite lookup_insert_eq; by intros [= <-]|rewrite lookup_insert_ne by done; eauto]).
  - by rewrite excess_updateElement_locked.
Qed.

Lemma never_undercounts_getElement alive now key c :
  never_undercounts c → never_undercounts (snd (getElement alive now key c)).
Proof.
  intros (Hwf & Hsizes & Hex). split_and!.
  - by apply wf_getElement.
  - intros k e. unfold getElement.
    destruct (mElementMap c !! key) as [old|] eqn:Hold; simpl; [|eauto].
    destruct (decide (key = k)) as [->|Hne].
    + rewrite lookup_insert_eq. intros [= <-]. simpl. eauto.
    + rewrite lookup_insert_ne by done. eauto.
  - by rewrite excess_getElement.
Qed.

Lemma never_undercounts_cleanup alive clock pk c c' toClean log :
  never_undercounts c → cleanup alive clock pk c = Done (c', toClean, log) →
  never_undercounts c'.
Proof.
  intros Hc Hrun.
  eapply (cleanup_loop_invariant never_undercounts) in Hrun as [? _]; [done| |done].
  intros ci now ev (Hwf & Hsizes & Hex) _ Hev.
  pose proof (excess_cleanup_iteration _ _ _ _ _ Hwf Hev) as Hex'.
  destruct (cleanup_iteration_spec _ _ _ _ _ Hwf Hev) as (Hv & _ & _ & Hm & _).
  split_and!.
  - by eapply wf_cleanup_iteration.
  - intros k e. rewrite Hm. intros [_ ?]%lookup_delete_Some. eauto.
  - rewrite Hex'. specialize (Hsizes _ _ Hv). destruct (decide _); lia.
Qed.

(** An operation raises mTotalSize by no more than the size it passes. *)
Lemma never_undercounts_step op c c' :
  size_nonneg op = true → never_undercounts c → step op c = Done c' →
  never_undercounts c' ∧ mTotalSize c' ≤ mTotalSize c + requested [op].
Proof.
  intros Hop Hc. pose proof Hc as (Hwf & Hsizes & _).
  destruct op as [alive clock element key size|alive now key|alive clock pk]; simpl in *.
  - apply bool_decide_eq_true in Hop. unfold updateElement.
    pose proof (never_undercounts_updateElement_locked element key size (clock O) c Hop Hc)
      as Hc1.
    pose proof (total_updateElement_locked element key size (clock O) c) as Ht1.
    assert (0 ≤ size_of (mElementMap c) key) as Hold.
    { unfold size_of. destruct (mElementMap c !! key) as [old|] eqn:Ho; simpl; [eauto|done]. }
    destruct (decide _).
    + destruct (cleanup _ _ _ _) as [[[c2 tc] lg]| |] eqn:Hrun; simpl; [|done|done].
      intros [= <-]. split; [by eapply never_undercounts_cleanup|].
      destruct Hc1 as (Hwf1 & Hsizes1 & _).
      destruct (total_cleanup _ _ _ _ _ _ _ Hwf1 Hsizes1 Hrun) as [_ Hle]. lia.
    + intros [= <-]. split; [done|lia].
  - intros [= <-]. split; [by apply never_undercounts_getElement|].
    unfold getElement. destruct (mElementMap c !! key); simpl; lia.
  - destruct (cleanup _ _ _ _) as [[[c2 tc] lg]| |] eqn:Hrun; [|done|done].
    intros [= <-]. split; [by eapply never_undercounts_cleanup|].
    destruct (total_cleanup _ _ _ _ _ _ _ Hwf Hsizes Hrun) as [_ Hle]. lia.
Qed.

Lemma requested_cons op ops : requested (op :: ops) = requested [op] + requested ops.
Proof. destruct op; simpl; lia. Qed.

Lemma never_undercounts_run ops c c' :
  forallb size_nonneg ops = true → never_undercounts c → run ops c = Done c' →
  never_undercounts c' ∧ mTotalSize c' ≤ mTotalSize c + requested ops.
Proof.
  revert c. induction ops as [|op ops IH]; intros c.
  - simpl. intros _ ? [= <-]. split; [done|lia].
  - intros [Hop Hops]%andb_true_iff Hc. simpl run.
    destruct (step op c) as [c1| |] eqn:Hs; [|done|done].
    destruct (never_undercounts_step _ _ _ Hop Hc Hs) as [Hc1 Hle1].
    intros Hrun. destruct (IH c1 Hops Hc1 Hrun) as [Hc' Hle].
    split; [done|]. rewrite requested_cons. lia.
Qed.

(** X9: as long as no updateElement is given a negative size and the
    sizes passed add up to no more than the largest int64_t, no sum or
    difference formed on mTotalSize leaves the range of int64_t, and
    mTotalSize never falls below the sum of the sizes of the entries,
    which is itself never negative, nor rises above the sum of the sizes
    passed: the cache may over-count what it holds, it never
    under-counts. *)
Theorem X9_total_size_never_undercounts
    (soft hard threshold interval : Z) (ops : list operation) (c : LRUCache) :
  forallb size_nonneg ops = true →
  requested ops ≤ 2 ^ 63 - 1 →
  run ops (LRUCache_new soft hard threshold interval) = Done c →
  0 ≤ live_size c ≤ mTotalSize c
  ∧ mTotalSize c ≤ requested ops
  ∧ int64 (mTotalSize c).
Proof.
  intros Hops Hmax Hrun.
  assert (never_undercounts (LRUCache_new soft hard threshold interval)) as Hnew.
  { split_and!; [apply wf_new| |done]. intros k e He. simpl in He.
    by rewrite lookup_empty in He. }
  destruct (never_undercounts_run _ _ _ Hops Hnew Hrun) as [(_ & Hsizes & Hex) Hle].
  simpl in Hle. unfold excess in Hex.
  pose proof (sum_sizes_nonneg (mElementMap c) (mElementList c) Hsizes) as Hlive.
  unfold live_size, int64 in *. split_and!; lia.
Qed.

Lemma X9_witness :
  let c := cache_after [OpUpdate everyone (at_time 0) 1%nat 1 50;
                        OpUpdate everyone (at_time 0) 1%nat 1 200;
                        OpUpdate everyone (at_time 0) 2%nat 2 30] scenario_cache in
  0 ≤ live_size c ≤ mTotalSize c
  ∧ mTotalSize c ≤ requested [OpUpdate everyone (at_time 0) 1%nat 1 50;
                              OpUpdate everyone (at_time 0) 1%nat 1 200;
                              OpUpdate everyone (at_time 0) 2%nat 2 30]
  ∧ int64 (mTotalSize c).
Proof.
  apply (X9_total_size_never_undercounts 60 100 5 0
           [OpUpdate everyone (at_time 0) 1%nat 1 50;
            OpUpdate everyone (at_time 0) 1%nat 1 200;
            OpUpdate everyone (at_time 0) 2%nat 2 30]).
  - reflexivity.
  - vm_compute. discriminate.
  - vm_compute. reflexivity.
Defined.

(** ** Insertion, update and lookup *)

Lemma length_move_back (k : Z) (l : list Z) :
  k ∈ l → length (list_erase k l ++ [k]) = length l.
Proof.
  intros Hk. rewrite length_app. simpl.
  pose proof (length_list_erase k l Hk). lia.
Qed.

(** X10: updateElement of a key that is not in the cache, followed by
    getElement of that key.  If the new total does not exceed the hard
    limit, the update evicts nothing and adds one element, with the size
    passed, at the back of the list; every other entry is untouched;
    mTotalSize grows by the size; and getElement then returns the payload
    that was passed (nullptr if its owner has released it meanwhile). *)
Theorem X10_insert_then_get
    (alive alive' : Payload → bool) (clock : nat → Z) (now : Z)
    (element : Payload) (key size : Z) (c : LRUCache) :
  wf c →
  mElementMap c !! key = None →
  mTotalSize c + size ≤ mMaxSizeHardLimit c →
  ∃ c1, updateElement alive clock element key size c = Done (c1, [], [LogUpdated key])
    ∧ fst (getElement alive' now key c1) = (if alive' element then Some element else None)
    ∧ mElementMap c1 !! key =
        Some {| mLastAccessTime := clock O; mElementSize := size;
                mWeakPointerElement := element; mPrimaryKey := key |}
    ∧ (∀ k, k ≠ key → mElementMap c1 !! k = mElementMap c !! k)
    ∧ mElementList c1 = mElementList c ++ [key]
    ∧ mElementSizeMap c1 ≡ₚ (size, key) :: mElementSizeMap c
    ∧ mTotalSize c1 = mTotalSize c + size
    ∧ getNumberOfElements c1 = S (getNumberOfElements c).
Proof.
  intros Hwf Hkey Hle.
  exists (updateElement_locked element key size (clock O) c).
  assert (updateElement_locked element key size (clock O) c =
          set_indices c (mElementList c ++ [key])
            (<[key := updateAccessTime (clock O) (setSize size (LRUCacheElement_new element key))]>
               (mElementMap c))
            (Multimap.insert (size, key) (mElementSizeMap c)) (mTotalSize c + size)) as Heq.
  { unfold updateElement_locked. by rewrite Hkey. }
  split_and!.
  - apply updateElement_within_hard_limit. by rewrite Heq.
  - unfold getElement. rewrite Heq. simpl. rewrite lookup_insert_eq. done.
  - rewrite Heq. simpl. by rewrite lookup_insert_eq.
  - intros k Hk. by apply updateElement_locked_lookup_ne.
  - by rewrite Heq.
  - rewrite Heq. simpl. apply insert_perm.
  - by rewrite Heq.
  - rewrite Heq. unfold getNumberOfElements. simpl. rewrite length_app. simpl. lia.
Qed.

Lemma X10_witness :
  let c := cache_after scenario_inserts scenario_cache in
  ∃ c1, updateElement everyone (at_time 2) 4%nat 4 30 c = Done (c1, [], [LogUpdated 4])
    ∧ fst (getElement everyone 3 4 c1) = (if everyone 4%nat then Some 4%nat else None)
    ∧ mElementMap c1 !! 4 =
        Some {| mLastAccessTime := at_time 2 O; mElementSize := 30;
                mWeakPointerElement := 4%nat; mPrimaryKey := 4 |}
    ∧ (∀ k, k ≠ 4 → mElementMap c1 !! k = mElementMap c !! k)
    ∧ mElementList c1 = mElementList c ++ [4]
    ∧ mElementSizeMap c1 ≡ₚ (30, 4) :: mElementSizeMap c
    ∧ mTotalSize c1 = mTotalSize c + 30
    ∧ getNumberOfElements c1 = S (getNumberOfElements c).
Proof.
  apply (X10_insert_then_get everyone everyone (at_time 2) 3 4%nat 4 30
           (cache_after scenario_inserts scenario_cache)).
  - apply (wf_cache_after 60 100 5 0).
  - vm_compute. reflexivity.
  - vm_compute. discriminate.
Defined.

(** X11: updateElement of a key that is in the cache does not replace
    the payload.  The element passed to the call is ignored: the entry
    keeps the weak pointer it was created with, and a later getElement
    returns the payload of the first insertion.  Within the hard limit the
    number of elements is unchanged and mTotalSize changes by the
    difference of the sizes. *)
Theorem X11_update_keeps_the_first_payload
    (alive alive' : Payload → bool) (clock : nat → Z) (now : Z)
    (element : Payload) (key size : Z) (c : LRUCache) (old : LRUCacheElement) :
  wf c →
  mElementMap c !! key = Some old →
  mTotalSize c - mElementSize old + size ≤ mMaxSizeHardLimit c →
  ∃ c1, updateElement alive clock element key size c = Done (c1, [], [LogUpdated key])
    ∧ fst (getElement alive' now key c1) = lock alive' old
    ∧ (∀ k, k ≠ key → mElementMap c1 !! k = mElementMap c !! k)
    ∧ mTotalSize c1 = mTotalSize c - mElementSize old + size
    ∧ getNumberOfElements c1 = getNumberOfElements c.
Proof.
  intros Hwf Hold Hle.
  exists (updateElement_locked element key size (clock O) c).
  assert (updateElement_locked element key size (clock O) c =
          set_indices c (list_erase key (mElementList c) ++ [key])
            (<[key := updateAccessTime (clock O) (setSize size old)]> (mElementMap c))
            (Multimap.insert (size, key)
               (Multimap.erase_record (mElementSize old) key (mElementSizeMap c)))
            (mTotalSize c - mElementSize old + size)) as Heq.
  { unfold updateElement_locked. by rewrite Hold. }
  split_and!.
  - apply updateElement_within_hard_limit. by rewrite Heq.
  - unfold getElement. rewrite Heq. simpl. rewrite lookup_insert_eq. done.
  - intros k Hk. by apply updateElement_locked_lookup_ne.
  - by rewrite Heq.
  - rewrite Heq. unfold getNumberOfElements. simpl. apply length_move_back.
    apply wf_elem_of; eauto.
Qed.

Lemma X11_witness :
  let c := cache_after scenario_inserts scenario_cache in
  ∃ c1, updateElement everyone (at_time 2) 9%nat 2 30 c = Done (c1, [], [LogUpdated 2])
    ∧ fst (getElement everyone 3 2 c1) = Some 2%nat
    ∧ (∀ k, k ≠ 2 → mElementMap c1 !! k = mElementMap c !! k)
    ∧ mTotalSize c1 = mTotalSize c - 20 + 30
    ∧ getNumberOfElements c1 = getNumberOfElements c.
Proof.
  apply (X11_update_keeps_the_first_payload everyone everyone (at_time 2) 3 9%nat 2 30
           (cache_after scenario_inserts scenario_cache)
           {| mLastAccessTime := 0; mElementSize := 20;
              mWeakPointerElement := 2%nat; mPrimaryKey := 2 |}).
  - apply (wf_cache_after 60 100 5 0).
  - vm_compute. reflexivity.
  - vm_compute. discriminate.
Defined.

(** X12: getElement of a key that is in the cache only refreshes that
    entry: its access time becomes the time of the call and its handle
    moves to the back of the list, the order of the other handles kept.
    The size, payload and key of the entry, every other entry, the size
    multimap, mTotalSize and the number of elements stay as they were. *)
Theorem X12_getElement_refreshes_one_entry
    (alive : Payload → bool) (now key : Z) (c : LRUCache) (e : LRUCacheElement) :
  wf c →
  mElementMap c !! key = Some e →
  let c' := snd (getElement alive now key c) in
  mElementMap c' !! key =
    Some {| mLastAccessTime := now; mElementSize := mElementSize e;
            mWeakPointerElement := mWeakPointerElement e; mPrimaryKey := mPrimaryKey e |}
  ∧ (∀ k, k ≠ key → mElementMap c' !! k = mElementMap c !! k)
  ∧ last (mElementList c') = Some key
  ∧ filter (λ k, k ≠ key) (mElementList c') = filter (λ k, k ≠ key) (mElementList c)
  ∧ mElementList c' ≡ₚ mElementList c
  ∧ mElementSizeMap c' = mElementSizeMap c
  ∧ mTotalSize c' = mTotalSize c
  ∧ getNumberOfElements c' = getNumberOfElements c.
Proof.
  intros Hwf He c'. pose proof Hwf as (Hnd & _ & _).
  assert (key ∈ mElementList c) as Hin by (apply wf_elem_of; eauto).
  unfold c'. rewrite (getElement_present alive now key c e He). simpl.
  assert (∀ l : list Z, NoDup l → filter (λ k, k ≠ key) (list_erase key l)
                                   = filter (λ k, k ≠ key) l) as Hfilter.
  { induction l as [|x l IH]; simpl; [done|]. intros [Hx Hl]%NoDup_cons.
    destruct (decide (x = key)) as [->|Hne].
    - rewrite filter_cons_False by (intros ?; done). done.
    - rewrite !filter_cons_True by done. by rewrite IH. }
  split_and!.
  - by rewrite lookup_insert_eq.
  - intros k Hk. by rewrite lookup_insert_ne.
  - apply last_snoc.
  - rewrite filter_app, Hfilter by done.
    rewrite filter_cons_False by (intros ?; done). by rewrite filter_nil, app_nil_r.
  - rewrite <- Permutation_cons_append.
    clear -Hin. induction (mElementList c) as [|x l IH]; simpl.
    + by apply elem_of_nil in Hin.
    + destruct (decide (x = key)) as [->|Hne]; [done|].
      apply elem_of_cons in Hin as [->|Hin]; [done|].
      rewrite <- (IH Hin) at 2. apply Permutation_swap.
  - done.
  - done.
  - unfold getNumberOfElements. simpl. by apply length_move_back.
Qed.

Lemma X12_witness :
  let c := cache_after scenario_inserts scenario_cache in
  let c' := snd (getElement everyone 4 1 c) in
  mElementMap c' !! 1 =
    Some {| mLastAccessTime := 4; mElementSize := 20;
            mWeakPointerElement := 1%nat; mPrimaryKey := 1 |}
  ∧ (∀ k, k ≠ 1 → mElementMap c' !! k = mElementMap c !! k)
  ∧ last (mElementList c') = Some 1
  ∧ filter (λ k, k ≠ 1) (mElementList c') = filter (λ k, k ≠ 1) (mElementList c)
  ∧ mElementList c' ≡ₚ mElementList c
  ∧ mElementSizeMap c' = mElementSizeMap c
  ∧ mTotalSize c' = mTotalSize c
  ∧ getNumberOfElements c' = getNumberOfElements c.
Proof.
  apply (X12_getElement_refreshes_one_entry everyone 4 1
           (cache_after scenario_inserts scenario_cache)
           {| mLastAccessTime := 0; mElementSize := 20;
              mWeakPointerElement := 1%nat; mPrimaryKey := 1 |}).
  - apply (wf_cache_after 60 100 5 0).
  - vm_compute. reflexivity.
Defined.

(** ** The list is in the order of the last accesses *)

Lemma time_of_insert_ne (m : gmap Z LRUCacheElement) (k k' : Z) (e : LRUCacheElement) :
  k ≠ k' → time_of (<[k := e]> m) k' = time_of m k'.
Proof. intros. unfold time_of. by rewrite lookup_insert_ne. Qed.

(** Moving the handle of an entry accessed now to the back. *)
Lemma recency_ordered_move_back c key e' sm total :
  wf c → recency_ordered c → times_bounded (mLastAccessTime e') c →
  recency_ordered
    (set_indices c (list_erase key (mElementList c) ++ [key])
       (<[key := e']> (mElementMap c)) sm total).
Proof.
  intros Hwf Hord Hbound. pose proof Hwf as (Hnd & _ & _).
  unfold recency_ordered in *. simpl. rewrite fmap_app. simpl.
  assert (time_of (<[key:=e']> (mElementMap c)) <$> list_erase key (mElementList c)
          = time_of (mElementMap c) <$> list_erase key (mElementList c)) as ->.
  { apply list_fmap_ext. intros i k' Hk'. apply time_of_insert_ne. intros ->.
    apply list_elem_of_lookup_2 in Hk'. by apply (erase_not_elem_self _ _ Hnd) in Hk'. }
  apply StronglySorted_app_2.
  - intros t1 t2 (k' & -> & Hk')%list_elem_of_fmap ->%list_elem_of_singleton.
    unfold time_of at 2. rewrite lookup_insert_eq. simpl.
    apply list_erase_sub in Hk'. apply wf_elem_of in Hk' as [e He]; [|done].
    unfold time_of. rewrite He. simpl. by eapply Hbound.
  - by apply StronglySorted_list_erase.
  - repeat constructor.
Qed.

Lemma recency_ordered_updateElement_locked element key size now c :
  wf c → recency_ordered c → times_bounded now c →
  recency_ordered (updateElement_locked element key size now c)
  ∧ times_bounded now (updateElement_locked element key size now c).
Proof.
  intros Hwf Hord Hbound. split.
  - unfold updateElement_locked. destruct (mElementMap c !! key) as [old|] eqn:Hold.
    + by apply recency_ordered_move_back.
    + assert (key ∉ mElementList c) as Hnot.
      { rewrite wf_elem_of by done. rewrite Hold. by intros [? ?]. }
      rewrite <- (list_erase_not_elem key (mElementList c)) at 1 by done.
      by apply recency_ordered_move_back.
  - intros k e. unfold updateElement_locked.
    destruct (mElementMap c !! key) as [old|]; simpl;
      (destruct (decide (key = k)) as [->|Hne];
       [rewrite lookup_insert_eq; by intros [= <-]|rewrite lookup_insert_ne by done; eauto]).
Qed.

Lemma recency_ordered_getElement alive now key c :
  wf c → recency_ordered c → times_bounded now c →
  recency_ordered (snd (getElement alive now key c))
  ∧ times_bounded now (snd (getElement alive now key c)).
Proof.
  intros Hwf Hord Hbound. unfold getElement.
  destruct (mElementMap c !! key) as [e|] eqn:He; simpl; [|done]. split.
  - by apply recency_ordered_move_back.
  - intros k x. simpl. destruct (decide (key = k)) as [->|Hne].
    + rewrite lookup_insert_eq. by intros [= <-].
    + rewrite lookup_insert_ne by done. eauto.
Qed.

Lemma recency_ordered_cleanup alive clock pk c c' toClean log :
  wf c → recency_ordered c → cleanup alive clock pk c = Done (c', toClean, log) →
  recency_ordered c'.
Proof.
  intros Hwf Hord Hc.
  eapply (cleanup_loop_invariant (λ ci, wf ci ∧ recency_ordered ci)) in Hc as [[_ ?] _];
    [done| |done].
  intros ci now ev [Hwfi Hordi] _ Hev. split.
  - by eapply wf_cleanup_iteration.
  - by eapply recency_ordered_cleanup_iteration.
Qed.

Lemma times_bounded_cleanup alive clock pk c c' toClean log t :
  times_bounded t c → cleanup alive clock pk c = Done (c', toClean, log) →
  times_bounded t c'.
Proof.
  intros Hbound Hc k e He.
  eapply (cleanup_loop_invariant (only_removed c)) in Hc as [(Hm & _) _].
  - eapply Hbound, lookup_weaken; done.
  - intros ci now ev Hi _ Hev. by eapply only_removed_cleanup_iteration.
  - by split_and!.
Qed.

Lemma recency_ordered_step op c c' :
  wf c → recency_ordered c →
  (∀ t, access_time op = Some t → times_bounded t c) →
  step op c = Done c' →
  recency_ordered c'
  ∧ ∀ t', from_option (λ t, t ≤ t') (times_bounded t' c) (access_time op) →
          times_bounded t' c'.
Proof.
  intros Hwf Hord Hbound.
  destruct op as [alive clock element key size|alive now key|alive clock pk]; simpl.
  - specialize (Hbound _ eq_refl).
    destruct (recency_ordered_updateElement_locked element key size (clock O) c
                Hwf Hord Hbound) as [Hord1 Hbound1].
    pose proof (wf_updateElement_locked element key size (clock O) c Hwf) as Hwf1.
    unfold updateElement. destruct (decide _).
    + destruct (cleanup _ _ _ _) as [[[c2 tc] lg]| |] eqn:Hc; simpl; [|done|done].
      intros [= <-]. split; [by eapply recency_ordered_cleanup|].
      intros t' Ht' k e He.
      pose proof (times_bounded_cleanup _ _ _ _ _ _ _ _ Hbound1 Hc k e He). lia.
    + intros [= <-]. split; [done|]. intros t' Ht' k e He.
      specialize (Hbound1 k e He). lia.
  - specialize (Hbound _ eq_refl). intros [= <-].
    destruct (recency_ordered_getElement alive now key c Hwf Hord Hbound) as [Hord1 Hbound1].
    split; [done|]. intros t' Ht' k e He. specialize (Hbound1 k e He). lia.
  - destruct (cleanup _ _ _ _) as [[[c2 tc] lg]| |] eqn:Hc; [|done|done].
    intros [= <-]. split; [by eapply recency_ordered_cleanup|].
    intros t' Ht'. by eapply times_bounded_cleanup.
Qed.

Lemma recency_ordered_run ops c c' :
  wf c → recency_ordered c →
  StronglySorted Z.le (access_times ops) →
  (∀ t, t ∈ access_times ops → times_bounded t c) →
  run ops c = Done c' →
  recency_ordered c'.
Proof.
  revert c. induction ops as [|op ops IH]; intros c Hwf Hord Hsorted Hbound; simpl.
  - by intros [= <-].
  - destruct (step op c) as [c1| |] eqn:Hs; [|done|done].
    unfold access_times in *. simpl in Hsorted, Hbound.
    destruct (access_time op) as [t|] eqn:Hop.
    + apply StronglySorted_cons in Hsorted as [Hle Hsorted].
      rewrite Forall_forall in Hle.
      destruct (recency_ordered_step op c c1 Hwf Hord) as [Hord1 Hbound1]; [|done|].
      { intros t0. rewrite Hop. intros [= <-]. apply Hbound. left. }
      apply IH; [by eapply wf_step|done|done|].
      intros t' Ht'. apply Hbound1. rewrite Hop. simpl. auto.
    + destruct (recency_ordered_step op c c1 Hwf Hord) as [Hord1 Hbound1]; [|done|].
      { intros t0. by rewrite Hop. }
      apply IH; [by eapply wf_step|done|done|].
      intros t' Ht'. apply Hbound1. rewrite Hop. simpl. auto.
Qed.

(** X13: if the clock never goes backwards between the calls of
    updateElement and getElement, the list is always in the order of the
    last accesses: the access times of the entries, read along
    mElementList from the head, never decrease, so the head of the list is
    a least recently used entry. *)
Theorem X13_list_is_in_access_order
    (soft hard threshold interval : Z) (ops : list operation) (c : LRUCache) :
  StronglySorted Z.le (access_times ops) →
  run ops (LRUCache_new soft hard threshold interval) = Done c →
  StronglySorted Z.le (time_of (mElementMap c) <$> mElementList c)
  ∧ ∀ front_key front k e,
      head (mElementList c) = Some front_key →
      mElementMap c !! front_key = Some front →
      mElementMap c !! k = Some e →
      mLastAccessTime front ≤ mLastAccessTime e.
Proof.
  intros Hsorted Hrun.
  pose proof (wf_run _ _ _ (wf_new soft hard threshold interval) Hrun) as Hwf.
  assert (recency_ordered c) as Hord.
  { eapply recency_ordered_run; [apply wf_new| |exact Hsorted| |exact Hrun].
    - constructor.
    - intros t _ k e He. simpl in He. by rewrite lookup_empty in He. }
  split; [done|].
  intros front_key front k e Hhead Hfront He.
  assert (k ∈ mElementList c) as Hk by (apply wf_elem_of; eauto).
  unfold recency_ordered in Hord.
  destruct (mElementList c) as [|x l]; simpl in *; [done|]. injection Hhead as ->.
  apply elem_of_cons in Hk as [->|Hk]; [by simplify_eq|].
  apply StronglySorted_cons in Hord as [Hle _].
  rewrite Forall_fmap, Forall_forall in Hle. specialize (Hle k Hk). simpl in Hle.
  unfold time_of in Hle. by rewrite Hfront, He in Hle.
Qed.

Lemma X13_witness :
  let c := cache_after (scenario_inserts ++ [OpGet everyone 1 1; OpUpdate everyone (at_time 2) 2%nat 2 5])
             scenario_cache in
  StronglySorted Z.le (time_of (mElementMap c) <$> mElementList c)
  ∧ ∀ front_key front k e,
      head (mElementList c) = Some front_key →
      mElementMap c !! front_key = Some front →
      mElementMap c !! k = Some e →
      mLastAccessTime front ≤ mLastAccessTime e.
Proof.
  apply (X13_list_is_in_access_order 60 100 5 0
           (scenario_inserts ++ [OpGet everyone 1 1; OpUpdate everyone (at_time 2) 2%nat 2 5])).
  - vm_compute. repeat (constructor; [repeat constructor; discriminate|]). constructor.
  - vm_compute. reflexivity.
Defined.

(** ** What cleanup evicts and collects *)

Lemma fresh_pass_head alive now pk c :
  wf c → all_fresh now c → cleanup_guard c = true →
  ∃ front_key ev,
    head (mElementList c) = Some front_key
    ∧ cleanup_iteration alive now pk c = Some ev
    ∧ mElementList (ev_cache ev) = tail (mElementList c)
    ∧ ev_log ev = [LogRemovedLRU front_key].
Proof.
  intros Hwf Hfresh [Hne _]%cleanup_guard_true.
  destruct (mElementList c) as [|front_key l] eqn:Hl; [done|].
  assert (front_key ∈ mElementList c) as Hin by (rewrite Hl; left).
  apply wf_elem_of in Hin as [front Hfront]; [|done].
  pose proof (wf_primary_key _ _ _ Hwf Hfront) as Hpk.
  exists front_key.
  unfold cleanup_iteration, choose_victim. rewrite Hl. simpl. rewrite Hfront. simpl.
  rewrite decide_False by (specialize (Hfresh _ _ Hfront); lia). simpl. rewrite Hpk.
  destruct (decide _); eexists; split_and!; done.
Qed.

Lemma all_fresh_cleanup_iteration alive now pk t c ev :
  all_fresh t c → cleanup_iteration alive now pk c = Some ev → all_fresh t (ev_cache ev).
Proof.
  intros Hfresh Hev k e. rewrite (cleanup_iteration_map _ _ _ _ _ Hev).
  intros [_ He]%lookup_delete_Some.
  destruct (same_config_cleanup_iteration _ _ _ _ _ Hev) as (_ & _ & Hthr & _).
  unfold getTimeThreshold in Hthr. rewrite Hthr. eauto.
Qed.

Lemma cleanup_loop_fresh_prefix fuel alive clock pk c toClean log :
  wf c → fresh_throughout clock c → (length (mElementList c) ≤ fuel)%nat →
  ∃ n c' toClean',
    cleanup_loop fuel alive clock pk c toClean log =
      Done (c', toClean', log ++ (LogRemovedLRU <$> take n (mElementList c)))
    ∧ mElementList c' = drop n (mElementList c).
Proof.
  revert clock c toClean log.
  induction fuel as [|fuel IH]; intros clock c toClean log Hwf Hfresh Hlen; simpl.
  - destruct (cleanup_guard c) eqn:Hg.
    + apply cleanup_guard_true in Hg as [Hne _].
      destruct (mElementList c); [done|simpl in Hlen; lia].
    + exists O, c, toClean. by rewrite take_0, drop_0, app_nil_r.
  - destruct (cleanup_guard c) eqn:Hg;
      [|exists O, c, toClean; by rewrite take_0, drop_0, app_nil_r].
    destruct (fresh_pass_head alive (clock O) pk c Hwf (Hfresh O) Hg)
      as (front_key & ev & Hhead & Hev & Hl & Hlog).
    rewrite Hev.
    destruct (IH (λ i, clock (S i)) (ev_cache ev) (toClean ++ ev_collected ev)
                (log ++ ev_log ev)) as (n & c' & tc' & Hloop & Hl').
    + by eapply wf_cleanup_iteration.
    + intros i. by eapply all_fresh_cleanup_iteration.
    + pose proof (cleanup_iteration_length _ _ _ _ _ Hwf Hev). lia.
    + exists (S n), c', tc'. rewrite Hloop, Hl', Hl, Hlog.
      destruct (mElementList c) as [|x l]; simpl in *; [done|]. injection Hhead as ->.
      by rewrite <- app_assoc.
Qed.

(** X14: strict LRU order.  If no entry is stale at any reading of the
    clock during the call, cleanup returns and what it evicted is a prefix
    of the list: for some n the list it leaves is the old list without its
    first n nodes, and the log reports the removal of exactly those n
    keys, from the head on. *)
Theorem X14_fresh_cleanup_evicts_from_the_head
    (alive : Payload → bool) (clock : nat → Z) (keyToSaveFromPurge : option Z)
    (c : LRUCache) :
  wf c →
  fresh_throughout clock c →
  ∃ n c' toClean,
    cleanup alive clock keyToSaveFromPurge c =
      Done (c', toClean,
            LogTotalBeforeCleanup (mTotalSize c)
              :: (LogRemovedLRU <$> take n (mElementList c)))
    ∧ mElementList c' = drop n (mElementList c)
    ∧ (mTotalSize c' ≤ mMaxSizeSoftLimit c' ∨ mElementList c' = []).
Proof.
  intros Hwf Hfresh.
  destruct (cleanup_loop_fresh_prefix (length (mElementList c)) alive clock
              keyToSaveFromPurge c [] [LogTotalBeforeCleanup (mTotalSize c)]
              Hwf Hfresh) as (n & c' & tc & Hc & Hl); [done|].
  exists n, c', tc. split_and!; [done|done|]. by eapply cleanup_post.
Qed.

Lemma X14_witness :
  let c := cache_after scenario_inserts (LRUCache_new 30 100 5 0) in
  ∃ n c' toClean,
    cleanup everyone (at_time 3) None c =
      Done (c', toClean,
            LogTotalBeforeCleanup (mTotalSize c)
              :: (LogRemovedLRU <$> take n (mElementList c)))
    ∧ mElementList c' = drop n (mElementList c)
    ∧ (mTotalSize c' ≤ mMaxSizeSoftLimit c' ∨ mElementList c' = []).
Proof.
  apply (X14_fresh_cleanup_evicts_from_the_head everyone (at_time 3) None
           (cache_after scenario_inserts (LRUCache_new 30 100 5 0))).
  - apply (wf_cache_after 30 100 5 0).
  - intros i.
    change (map_Forall (λ _ e, 3 - mLastAccessTime e ≤ 5)
              (mElementMap (cache_after scenario_inserts (LRUCache_new 30 100 5 0)))).
    apply (bool_decide_unpack _). vm_compute. exact I.
Defined.

Lemma cleanup_loop_guard_false fuel alive clock pk c toClean log :
  cleanup_guard c = false →
  cleanup_loop fuel alive clock pk c toClean log = Done (c, toClean, log).
Proof. intros Hg. destruct fuel; simpl; by rewrite Hg. Qed.

(** X15: cleanup is idempotent.  Once a cleanup has returned, another
    cleanup, with any protected key, at any time, changes nothing and
    collects nothing: it only logs the total size. *)
Theorem X15_cleanup_twice
    (alive alive' : Payload → bool) (clock clock' : nat → Z) (pk pk' : option Z)
    (c c' : LRUCache) (toClean : list Payload) (log : list log_event) :
  cleanup alive clock pk c = Done (c', toClean, log) →
  cleanup alive' clock' pk' c' = Done (c', [], [LogTotalBeforeCleanup (mTotalSize c')]).
Proof.
  intros Hc.
  eapply (cleanup_loop_invariant (λ _, True)) in Hc as [_ Hg]; [|done|done].
  by apply cleanup_loop_guard_false.
Qed.

Lemma X15_witness :
  let c' := cache_after (scenario_inserts ++ [OpCleanup everyone (at_time 6) None])
              scenario_cache in
  cleanup everyone (at_time 20) (Some 1) c' =
    Done (c', [], [LogTotalBeforeCleanup (mTotalSize c')]).
Proof.
  apply (X15_cleanup_twice everyone everyone (at_time 6) (at_time 20) None (Some 1)
           (cache_after scenario_inserts scenario_cache) _
           [3%nat] [LogTotalBeforeCleanup 65; LogRemovedStale 3]).
  vm_compute. reflexivity.
Defined.

(** X16: the hard limit.  In a cache whose soft limit does not exceed its
    hard limit, whenever updateElement returns, mTotalSize is at most the
    hard limit or the cache is empty; and if the update went over the hard
    limit, mTotalSize is even at most the soft limit or the cache is
    empty. *)
Theorem X16_updateElement_respects_the_hard_limit
    (alive : Payload → bool) (clock : nat → Z) (element : Payload) (key size : Z)
    (c c' : LRUCache) (toClean : list Payload) (log : list log_event) :
  mMaxSizeSoftLimit c ≤ mMaxSizeHardLimit c →
  updateElement alive clock element key size c = Done (c', toClean, log) →
  (mTotalSize c' ≤ mMaxSizeHardLimit c ∨ mElementList c' = [])
  ∧ (mTotalSize (updateElement_locked element key size (clock O) c) > mMaxSizeHardLimit c →
     mTotalSize c' ≤ mMaxSizeSoftLimit c ∨ mElementList c' = []).
Proof.
  intros Hlimits. unfold updateElement.
  destruct (same_config_updateElement_locked element key size (clock O) c)
    as (Hsoft & Hhard & _).
  unfold getSoftMaxSize, getMaxSize in *. rewrite Hhard.
  destruct (decide _) as [Hgt|Hle].
  - destruct (cleanup _ _ _ _) as [[[c2 tc] lg]| |] eqn:Hc; simpl; [|done|done].
    intros [= <- <- <-].
    destruct (same_config_cleanup _ _ _ _ _ _ _ Hc) as (Hsoft2 & _).
    unfold getSoftMaxSize in Hsoft2.
    destruct (cleanup_post _ _ _ _ _ _ _ Hc) as [Hpost|Hempty]; [|by auto].
    rewrite Hsoft2, Hsoft in Hpost. split; [left; lia|by left].
  - intros [= <- <- <-]. split; [left; lia|lia].
Qed.

Lemma X16_witness :
  let c := cache_after scenario_inserts scenario_cache in
  let c' := cache_after (scenario_inserts ++ [OpUpdate everyone (at_time 1) 4%nat 4 50])
              scenario_cache in
  (mTotalSize c' ≤ mMaxSizeHardLimit c ∨ mElementList c' = [])
  ∧ (mTotalSize (updateElement_locked 4%nat 4 50 (at_time 1 O) c) > mMaxSizeHardLimit c →
     mTotalSize c' ≤ mMaxSizeSoftLimit c ∨ mElementList c' = []).
Proof.
  apply (X16_updateElement_respects_the_hard_limit everyone (at_time 1) 4%nat 4 50
           (cache_after scenario_inserts scenario_cache) _ [1%nat; 2%nat; 3%nat]
           [LogUpdated 4; LogTotalBeforeCleanup 115; LogRemovedLRU 1; LogRemovedLRU 2;
            LogRemovedLRU 3]).
  - vm_compute. discriminate.
  - vm_compute. reflexivity.
Defined.

Lemma collected_invariant_pass alive now pk c ci toClean ev :
  collected_invariant alive pk c ci toClean →
  cleanup_iteration alive now pk ci = Some ev →
  collected_invariant alive pk c (ev_cache ev) (toClean ++ ev_collected ev).
Proof.
  intros (Hwf & Hsub & Hclean & Hlen) Hev.
  destruct (cleanup_iteration_spec _ _ _ _ _ Hwf Hev) as (Hv & Hin & Hl & Hm & _ & Hc & _).
  pose proof (cleanup_iteration_length _ _ _ _ _ Hwf Hev) as Hlen'.
  split_and!.
  - by eapply wf_cleanup_iteration.
  - intros k x. rewrite Hm. intros [_ ?]%lookup_delete_Some. auto.
  - intros p [Hp|Hp]%elem_of_app.
    + destruct (Hclean p Hp) as (Halive & k & e & Hk & Hnone & Hpay & Hpk).
      split; [done|]. exists k, e. split_and!; try done.
      rewrite Hm. apply lookup_delete_None. by right.
    + rewrite Hc in Hp. destruct (decide (pk = Some (mPrimaryKey (ev_victim ev)))) as [|Hne].
      { by apply elem_of_nil in Hp. }
      unfold lock in Hp. destruct (alive _) eqn:Halive; simpl in Hp;
        [|by apply elem_of_nil in Hp].
      apply list_elem_of_singleton in Hp as ->. split; [done|].
      exists (mPrimaryKey (ev_victim ev)), (ev_victim ev). split_and!; [auto| |done|done].
      rewrite Hm. apply lookup_delete_eq.
  - rewrite length_app, Hc. destruct (decide _); simpl; [lia|].
    unfold lock. destruct (alive _); simpl; lia.
Qed.

(** X17: the payloads cleanup collects for the deferred cleanup() calls.
    The keys of the removal lines of the log are the entries the call
    evicted, each once.  The payloads collected are exactly those of the
    evicted entries whose key is not the protected key and whose owner
    still holds them: one for each such entry, in the order of the
    evictions, and none for the eviction of the protected key (a payload
    held under two keys can be collected for one entry while the other is
    the protected one).  Every collected payload was alive, and there are
    no more of them than evicted entries. *)
Theorem X17_collected_payloads
    (alive : Payload → bool) (clock : nat → Z) (keyToSaveFromPurge : option Z)
    (c c' : LRUCache) (toClean : list Payload) (log : list log_event) :
  wf c →
  cleanup alive clock keyToSaveFromPurge c = Done (c', toClean, log) →
  toClean = omap (λ k, mElementMap c !! k ≫= lock alive)
              (filter (λ k, keyToSaveFromPurge ≠ Some k) (removed_keys log))
  ∧ NoDup (removed_keys log)
  ∧ (∀ k, k ∈ removed_keys log ↔
          is_Some (mElementMap c !! k) ∧ mElementMap c' !! k = None)
  ∧ (∀ p, p ∈ toClean → alive p = true)
  ∧ (length toClean + getNumberOfElements c' ≤ getNumberOfElements c)%nat.
Proof.
  intros Hwf Hc.
  destruct (cleanup_evicts _ _ _ _ _ _ _ Hwf Hc) as (_ & Hnd & Hsome & _ & Hm & Htc).
  split_and!; [done|done| | |].
  - intros k. specialize (Hm k). split.
    + intros Hk. split; [auto|]. by rewrite Hm, decide_True.
    + intros [Hk Hnone]. destruct (decide (k ∈ removed_keys log)); [done|].
      rewrite Hm in Hnone. rewrite Hnone in Hk. by destruct Hk.
  - intros p. rewrite Htc. intros (k & _ & Hp)%list_elem_of_omap.
    destruct (mElementMap c !! k) as [e|]; [|done]. simpl in Hp.
    unfold lock in Hp. by destruct (alive (mWeakPointerElement e)) eqn:?; simplify_eq/=.
  - eapply (cleanup_loop_invariant_acc
              (λ ci tc _, collected_invariant alive keyToSaveFromPurge c ci tc))
      in Hc as [(_ & _ & _ & Hlen) _]; [done| |].
    + intros ci now ev tc lg Hinv _ Hev. by eapply collected_invariant_pass.
    + split_and!; [done|done| |simpl; lia]. by intros p ?%elem_of_nil.
Qed.

Lemma X17_witness :
  let c := updateElement_locked 7%nat 2 30 0
             (cache_after [OpUpdate everyone (at_time 0) 7%nat 1 30]
                (LRUCache_new 0 50 5 0)) in
  let c' := set_indices c [] ∅ [] 30 in
  let log := [LogTotalBeforeCleanup 60; LogRemovedLRU 1; LogRemovedLRU 2] in
  [7%nat] = omap (λ k, mElementMap c !! k ≫= lock everyone)
              (filter (λ k, Some 2 ≠ Some k) (removed_keys log))
  ∧ NoDup (removed_keys log)
  ∧ (∀ k, k ∈ removed_keys log ↔
          is_Some (mElementMap c !! k) ∧ mElementMap c' !! k = None)
  ∧ (∀ p, p ∈ [7%nat] → everyone p = true)
  ∧ (length [7%nat] + getNumberOfElements c' ≤ getNumberOfElements c)%nat.
Proof.
  cbv zeta.
  apply (X17_collected_payloads everyone (at_time 0) (Some 2)).
  - apply (bool_decide_unpack _). vm_compute. exact I.
  - vm_compute. reflexivity.
Defined.

(** ** dumpCache *)

Lemma dump_lines_wf (m : gmap Z LRUCacheElement) (l : list Z) :
  (∀ k, k ∈ l → ∃ e, m !! k = Some e ∧ mPrimaryKey e = k) →
  dump_lines m l = Some ((λ k, (k, size_of m k, time_of m k)) <$> l).
Proof.
  induction l as [|x l IH]; simpl; [done|]. intros H.
  destruct (H x) as (e & He & Hpk); [left|].
  rewrite He. simpl. rewrite IH by (intros k Hk; apply H; by right). simpl.
  unfold size_of, time_of. by rewrite He, Hpk.
Qed.

(** X18: in every cache reached from a freshly constructed one, dumpCache
    prints one line for each key of the map and no other, in the order of
    the list, and the line of a key carries the current size and last
    access time of its entry; the sizes printed add up to the sum of the
    sizes of the entries. *)
Theorem X18_dumpCache_lists_every_entry
    (soft hard threshold interval : Z) (ops : list operation) (c : LRUCache) :
  run ops (LRUCache_new soft hard threshold interval) = Done c →
  ∃ lines,
    dumpCache c = Some lines
    ∧ lines = (λ k, (k, size_of (mElementMap c) k, time_of (mElementMap c) k))
                <$> mElementList c
    ∧ length lines = size (mElementMap c)
    ∧ (∀ k, (∃ s t, (k, s, t) ∈ lines) ↔ is_Some (mElementMap c !! k))
    ∧ foldr (λ line acc, snd (fst line) + acc) 0 lines = live_size c.
Proof.
  intros Hrun.
  pose proof (wf_run _ _ _ (wf_new soft hard threshold interval) Hrun) as Hwf.
  pose proof Hwf as (Hnd & Hdom & Hkeys).
  eexists. split_and!.
  - apply dump_lines_wf. intros k Hk. apply wf_elem_of in Hk as [e He]; [|done].
    exists e. split; [done|]. by eapply wf_primary_key.
  - done.
  - rewrite length_fmap, <- size_dom, Hdom, size_list_to_set by done. done.
  - intros k. rewrite <- wf_elem_of by done. split.
    + intros (s & t & (k' & [= -> _ _] & Hk')%list_elem_of_fmap). done.
    + intros Hk. eexists _, _. apply list_elem_of_fmap. by exists k.
  - unfold live_size. generalize (mElementList c). clear.
    intros l. induction l as [|x l IH]; simpl; [done|]. f_equal. exact IH.
Qed.

Lemma X18_witness :
  let c := cache_after (scenario_inserts ++ [OpGet everyone 1 1]) scenario_cache in
  ∃ lines,
    dumpCache c = Some lines
    ∧ lines = (λ k, (k, size_of (mElementMap c) k, time_of (mElementMap c) k))
                <$> mElementList c
    ∧ length lines = size (mElementMap c)
    ∧ (∀ k, (∃ s t, (k, s, t) ∈ lines) ↔ is_Some (mElementMap c !! k))
    ∧ foldr (λ line acc, snd (fst line) + acc) 0 lines = live_size c.
Proof.
  apply (X18_dumpCache_lists_every_entry 60 100 5 0
           (scenario_inserts ++ [OpGet everyone 1 1])).
  vm_compute. reflexivity.
Defined.

(** ** The cleaner thread and the other threads *)

(** An operation that runs undisturbed is the sequence of its critical
    sections. *)
Lemma run_sections_of op c : run_sections (sections_of op c) c = step op c.
Proof.
  destruct op as [alive clock element key size|alive now key|alive clock pk]; simpl.
  - unfold updateElement. destruct (decide _); simpl; [|done].
    by destruct (cleanup _ _ _ _) as [[[c2 tc] lg]| |].
  - done.
  - by destruct (cleanup _ _ _ _) as [[[c2 tc] lg]| |].
Qed.

Lemma wf_enter s c c' : wf c → enter s c = Done c' → wf c'.
Proof.
  intros Hwf. destruct s as [element key size now|alive now key|alive clock pk]; simpl.
  - intros [= <-]. by apply wf_updateElement_locked.
  - intros [= <-]. by apply wf_getElement.
  - destruct (cleanup _ _ _ _) as [[[c2 tc] lg]| |] eqn:Hc; [|done|done].
    intros [= <-]. by eapply wf_cleanup.
Qed.

Lemma same_config_enter s c c' : enter s c = Done c' → same_config c c'.
Proof.
  destruct s as [element key size now|alive now key|alive clock pk]; simpl.
  - intros [= <-]. apply same_config_updateElement_locked.
  - intros [= <-]. apply same_config_getElement.
  - destruct (cleanup _ _ _ _) as [[[c2 tc] lg]| |] eqn:Hc; [|done|done].
    intros [= <-]. by eapply same_config_cleanup.
Qed.

(** What every critical section keeps holds however the sections of the
    threads interleave, and no section runs out of fuel. *)
Lemma run_sections_invariant sections c :
  wf c →
  run_sections sections c ≠ OutOfFuel
  ∧ ∀ c', run_sections sections c = Done c' → wf c' ∧ same_config c c'.
Proof.
  revert c. induction sections as [|s sections IH]; intros c Hwf; simpl.
  - split; [done|]. intros c' [= <-]. split; [done|apply same_config_refl].
  - destruct (enter s c) as [c1| |] eqn:Hs.
    + destruct (IH c1 (wf_enter _ _ _ Hwf Hs)) as [Hfuel Hdone]. split; [done|].
      intros c' Hrun. destruct (Hdone c' Hrun) as [? ?]. split; [done|].
      eapply same_config_trans; [by eapply same_config_enter|done].
    + done.
    + exfalso. destruct s as [element key size now|alive now key|alive clock pk];
        simpl in Hs; [done|done|].
      pose proof (cleanup_not_OutOfFuel alive clock pk c Hwf).
      by destruct (cleanup _ _ _ _) as [[[c2 tc] lg]| |].
Qed.

Lemma cleaner_pass_invariant w c :
  wf c →
  cleaner_pass w c ≠ OutOfFuel
  ∧ ∀ c' events, cleaner_pass w c = Done (c', events) → wf c' ∧ same_config c c'.
Proof.
  intros Hwf. unfold cleaner_pass.
  destruct (run_sections_invariant (meanwhile w) c Hwf) as [Hfuel Hdone].
  destruct (run_sections (meanwhile w) c) as [c1| |]; [|done|done].
  destruct (Hdone c1 eq_refl) as [Hwf1 Hcfg1].
  destruct (wait_for w).
  - split; [done|]. by intros c' events [= <- <-].
  - pose proof (cleanup_not_OutOfFuel (wake_alive w) (wake_clock w) None c1 Hwf1).
    destruct (cleanup _ _ _ _) as [[[c2 tc] lg]| |] eqn:Hc; [|done|done].
    split; [done|]. intros c' events [= <- <-]. split; [by eapply wf_cleanup|].
    eapply same_config_trans; [done|by eapply same_config_cleanup].
Qed.

Lemma runCleanerThreadLoop_invariant schedule c flag trace :
  wf c →
  runCleanerThreadLoop schedule c flag trace ≠ OutOfFuel
  ∧ ∀ c' flag' trace',
      runCleanerThreadLoop schedule c flag trace = Done (c', flag', trace') →
      wf c' ∧ same_config c c'.
Proof.
  revert c flag trace.
  induction schedule as [|w schedule IH]; intros c flag trace Hwf; simpl.
  - split; [done|]. intros c' flag' trace' [= <- <- <-]. split; [done|apply same_config_refl].
  - destruct (cleaner_pass_invariant w c Hwf) as [Hfuel Hdone].
    destruct (cleaner_pass w c) as [[c1 events]| |]; [|done|done].
    destruct (Hdone c1 events eq_refl) as [Hwf1 Hcfg1].
    destruct (flag_read w flag).
    + split; [done|]. by intros c' flag' trace' [= <- <- <-].
    + destruct (IH c1 false (trace ++ events ++ [CleanerReadFlag false]) Hwf1)
        as [Hfuel' Hdone'].
      split; [done|]. intros c' flag' trace' Hrun.
      destruct (Hdone' _ _ _ Hrun) as [? ?]. split; [done|].
      by eapply same_config_trans.
Qed.

(** X19: the cleaner thread among the other threads, at the grain of the
    mutex.  Whatever the schedule, that is however the critical sections
    of the other threads (the locked block of updateElement, the
    cleanup(&key) that may follow it later, getElement, cleanup) fall
    between the passes of the thread, every cleanup() of the thread
    terminates, and when the loop ends the map and the list hold the
    same keys, no key twice in the list, every element under its own
    primary key, and the four configuration members are what they
    were. *)
Theorem X19_cleaner_thread_among_critical_sections
    (schedule : list wakeup) (c : LRUCache) (mIsFinished : bool) :
  wf c →
  runCleanerThreadLoop schedule c mIsFinished [] ≠ OutOfFuel
  ∧ ∀ c' flag' trace,
      runCleanerThreadLoop schedule c mIsFinished [] = Done (c', flag', trace) →
      key_index_keys c' = recency_index_keys c'
      ∧ NoDup (mElementList c')
      ∧ (∀ k e, mElementMap c' !! k = Some e → mPrimaryKey e = k)
      ∧ getSoftMaxSize c' = getSoftMaxSize c
      ∧ getMaxSize c' = getMaxSize c
      ∧ getTimeThreshold c' = getTimeThreshold c
      ∧ getCleaningInterval c' = getCleaningInterval c.
Proof.
  intros Hwf.
  destruct (runCleanerThreadLoop_invariant schedule c mIsFinished [] Hwf) as [Hfuel Hdone].
  split; [done|]. intros c' flag' trace Hrun.
  destruct (Hdone _ _ _ Hrun) as [(Hnd & Hdom & Hkeys) (? & ? & ? & ?)].
  split_and!; done.
Qed.

Lemma X19_witness :
  let c := cache_after scenario_inserts scenario_cache in
  let pass1 := {| meanwhile := [CsUpdate 4%nat 4 200 1]; owner_ends := false;
                  wait_for := cv_timeout; wake_alive := everyone;
                  wake_clock := at_time 1 |} in
  let pass2 := {| meanwhile := [CsCleanup everyone (at_time 1) (Some 4)];
                  owner_ends := true; wait_for := cv_no_timeout;
                  wake_alive := everyone; wake_clock := at_time 1 |} in
  runCleanerThreadLoop [pass1; pass2] c false [] ≠ OutOfFuel
  ∧ ∀ c' flag' trace,
      runCleanerThreadLoop [pass1; pass2] c false [] = Done (c', flag', trace) →
      key_index_keys c' = recency_index_keys c'
      ∧ NoDup (mElementList c')
      ∧ (∀ k e, mElementMap c' !! k = Some e → mPrimaryKey e = k)
      ∧ getSoftMaxSize c' = getSoftMaxSize c
      ∧ getMaxSize c' = getMaxSize c
      ∧ getTimeThreshold c' = getTimeThreshold c
      ∧ getCleaningInterval c' = getCleaningInterval c.
Proof.
  cbv zeta. apply X19_cleaner_thread_among_critical_sections.
  apply (wf_cache_after 60 100 5 0).
Defined.

(** X20: the flag is only tested at the end of a pass.  In the pass in
    which the cleaner thread first reads mIsFinished as set, a wait that
    timed out is still followed by a cleanup(): the trace of the thread
    ends with that cleanup, the test of the flag and then the break,
    although endCleaningThread had already run when the cleanup
    started. *)
Theorem X20_last_pass_still_cleans
    (passes : list wakeup) (w : wakeup) (rest : list wakeup) (c : LRUCache)
    (mIsFinished : bool) (c' : LRUCache) (flag' : bool) (trace : list cleaner_event) :
  Forall (λ w', flag_read w' mIsFinished = false) passes →
  flag_read w mIsFinished = true →
  wait_for w = cv_timeout →
  runCleanerThreadLoop (passes ++ w :: rest) c mIsFinished [] = Done (c', flag', trace) →
  ∃ before toClean,
    trace = before ++ [CleanerCleanup toClean; CleanerReadFlag true; CleanerBreak]
    ∧ flag' = true.
Proof.
  intros Hpasses Hw Htimeout Hloop.
  destruct (runCleanerThreadLoop_last_pass _ _ _ _ _ _ _ _ _ Hpasses Hw Hloop)
    as (before & c1 & events & Hpass & _ & -> & ->).
  apply cleaner_pass_events in Hpass as [[Hno _]|[_ [tc ->]]]; [congruence|].
  by exists before, tc.
Qed.

Lemma X20_witness :
  ∃ before toClean,
    [CleanerCleanup [1%nat]; CleanerReadFlag true; CleanerBreak]
    = before ++ [CleanerCleanup toClean; CleanerReadFlag true; CleanerBreak]
    ∧ true = true.
Proof.
  apply (X20_last_pass_still_cleans []
           {| meanwhile := []; owner_ends := false; wait_for := cv_timeout;
              wake_alive := everyone; wake_clock := at_time 1 |}
           [] (cache_after scenario_inserts scenario_cache) true
           (cache_after (scenario_inserts ++ [OpCleanup everyone (at_time 1) None])
              scenario_cache)).
  - constructor.
  - reflexivity.
  - reflexivity.
  - vm_compute. reflexivity.
Defined.

(** * Decompress *)

Section decompress.

Import Stdlib.Strings.Ascii.
Import Decompress.

Implicit Types (s t out sub : list ascii) (ch : ascii) (N : nat).

(** Induction following the two ways the loop advances. *)
Lemma list_ind_two (P : list ascii → Prop) :
  P [] → (∀ ch, P [ch]) → (∀ ch next s, P s → P (next :: s) → P (ch :: next :: s)) →
  ∀ s, P s.
Proof.
  intros Hnil Hone Htwo s.
  assert (P s ∧ ∀ ch, P (ch :: s)) as [? _]; [|done].
  induction s as [|next s [IH1 IH2]]; [by split|].
  split; [done|]. intros ch. by apply Htwo.
Qed.

(** One iteration of the loop, at the last index and before it. *)
Lemma loop_last ch N rep out sub :
  loop [ch] N rep out sub =
    if Ascii.eqb ch backslash then None
    else if Ascii.eqb ch close_bracket then
      if rep then Some (out ++ concat (replicate N sub)) else None
    else if Ascii.eqb ch open_bracket then None
    else if rep then None else Some (out ++ [ch]).
Proof. simpl. by repeat case_match. Qed.

Lemma loop_inner ch next s N rep out sub :
  loop (ch :: next :: s) N rep out sub =
    if Ascii.eqb ch backslash then
      if escapable next then
        if rep then loop s N rep out (sub ++ [next])
        else loop s N rep (out ++ [next]) sub
      else None
    else if isdigit ch && Ascii.eqb next open_bracket then
      loop s (nat_of_ascii ch - 48) true out sub
    else if Ascii.eqb ch close_bracket then
      if rep then loop (next :: s) O false (out ++ concat (replicate N sub)) []
      else None
    else if Ascii.eqb ch open_bracket then None
    else if rep then loop (next :: s) N rep out (sub ++ [ch])
    else loop (next :: s) N rep (out ++ [ch]) sub.
Proof. reflexivity. Qed.













Lemma length_concat_replicate N sub :
  length (concat (replicate N sub)) = (N * length sub)%nat.
Proof. induction N as [|N IH]; simpl; [done|]. rewrite length_app. lia. Qed.

Lemma isdigit_le ch : isdigit ch = true → (nat_of_ascii ch - 48 ≤ 9)%nat.
Proof.
  unfold isdigit. intros [_ H%Nat.leb_le]%andb_true_iff. lia.
Qed.

Lemma loop_length s N rep out sub o :
  (N ≤ 9)%nat → loop s N rep out sub = Some o →
  (length o ≤ length out + 9 * length sub + 9 * length s)%nat.
Proof.
  revert N rep out sub.
  induction s as [|ch|ch next s IH1 IH2] using list_ind_two; intros N rep out sub HN.
  - destruct rep; [done|]. intros [= <-]. lia.
  - rewrite loop_last. repeat case_match; try done; intros [= <-];
      rewrite length_app, ?length_concat_replicate; simpl; nia.
  - rewrite loop_inner.
    repeat case_match; try done; intros Hl;
      (apply IH1 in Hl || apply IH2 in Hl);
      rewrite ?length_app, ?length_concat_replicate in Hl; cbn [length] in *;
      try nia.
    apply isdigit_le. by apply andb_prop in H0 as [? _].
Qed.

(** [DecompressTest] counts no failed test: on each of the 21 rows of
    its table the model returns the expected result and, where that is
    [true], the expected string. *)
Example DecompressTest_counts_no_failure : DecompressTest = O.
Proof. vm_compute. reflexivity. Qed.






(** X24: the output is at most nine times as long as the input. *)
Theorem X24_Decompress_output_length s outStr o :
  Decompress s outStr = (true, o) → (length o ≤ 9 * length s)%nat.
Proof.
  unfold Decompress. destruct (loop s _ _ _ _) as [o'|] eqn:E; [|done].
  intros [= <-]. apply loop_length in E; simpl in *; lia.
Qed.

Lemma X24_witness : (length (chars "abccccccccc") ≤ 9 * length (chars "ab9[c]"))%nat.
Proof. by apply (X24_Decompress_output_length _ []). Defined.



End decompress.

(** * The string class *)

Section user_string.

Import Stdlib.Strings.Ascii.
Import UserDefined.

Local Open Scope nat_scope.

Implicit Types (text line : list ascii) (spare : list cell) (s : String).

Lemma store_app text spare c ch :
  store ((Some <$> text) ++ c :: spare) (length text) ch =
    Some ((Some <$> text) ++ Some ch :: spare).
Proof.
  unfold store. rewrite length_app, length_fmap. simpl.
  rewrite decide_True by lia. f_equal.
  rewrite insert_app_r_alt by (rewrite length_fmap; lia).
  by rewrite length_fmap, Nat.sub_diag.
Qed.

(** Copying the first cells of an array into another one. *)
Lemma copy_prefix (pre post dest : list cell) off :
  off + length pre ≤ length dest →
  copy (Some (pre ++ post)) (length pre) dest off =
    Some (take off dest ++ pre ++ drop (off + length pre) dest).
Proof.
  intros Hoff. unfold copy. destruct (length pre) as [|n] eqn:Hn.
  - apply nil_length_inv in Hn as ->. simpl.
    by rewrite Nat.add_0_r, take_drop.
  - rewrite decide_True by (rewrite length_app; lia).
    by rewrite <- Hn, take_app_length.
Qed.

Lemma copy_text text post n off :
  off + length text ≤ n →
  copy (Some ((Some <$> text) ++ post)) (length text) (make_unique n) off =
    Some (replicate off (Some NUL) ++ (Some <$> text) ++
          replicate (n - (off + length text)) (Some NUL)).
Proof.
  intros Hoff. rewrite <- (length_fmap Some text) at 1.
  unfold make_unique.
  rewrite copy_prefix by (rewrite length_fmap, length_replicate; lia).
  rewrite take_replicate, drop_replicate, length_fmap.
  by rewrite Nat.min_l by lia.
Qed.

Lemma strlen_app text rest :
  NUL ∉ text → strlen (text ++ NUL :: rest) = Some (length text).
Proof.
  induction text as [|ch text IH]; intros Hn; csimpl; [done|].
  apply not_elem_of_cons in Hn as [Hch Hn].
  destruct (Ascii.eqb_spec ch NUL) as [->|_]; [done|].
  by rewrite IH.
Qed.

Lemma cstring_app text spare :
  NUL ∉ text → cstring ((Some <$> text) ++ Some NUL :: spare) = Some text.
Proof.
  induction text as [|ch text IH]; intros Hn; csimpl; [done|].
  apply not_elem_of_cons in Hn as [Hch Hn].
  destruct (Ascii.eqb_spec ch NUL) as [->|_]; [done|].
  by rewrite IH.
Qed.

Lemma equal_app text1 text2 (rest1 rest2 : list cell) :
  length text1 = length text2 →
  equal ((Some <$> text1) ++ rest1) ((Some <$> text2) ++ rest2) (length text1) =
    Some (bool_decide (text1 = text2)).
Proof.
  revert text2. induction text1 as [|x text1 IH]; intros [|y text2] Hlen; try done.
  csimpl. destruct (Ascii.eqb_spec x y) as [->|Hxy].
  - rewrite IH by (simpl in Hlen; lia). f_equal.
    apply bool_decide_ext. split; [by intros ->|by intros [= ->]].
  - by rewrite bool_decide_eq_false_2 by congruence.
Qed.

(** The arrays the constructors and [operator+] fill hold the text and
    the terminating zero. *)
Lemma represents_text text :
  represents (mkString (length text) (Some ((Some <$> text) ++ [Some NUL]))) text.
Proof. split; [done|]. by exists []. Qed.

Lemma String_from_vector_represents inputVector :
  ∃ s, String_from_vector inputVector = Some s ∧ represents s inputVector.
Proof.
  unfold String_from_vector.
  pose proof (copy_text inputVector [] (length inputVector + 1) 0) as Hc.
  rewrite app_nil_r in Hc. rewrite Hc by lia. simpl.
  replace (length inputVector + 1 - length inputVector) with 1 by lia. simpl.
  rewrite store_app. simpl. eexists. split; [done|]. apply represents_text.
Qed.

Lemma String_from_cstr_represents text rest :
  NUL ∉ text →
  ∃ s, String_from_cstr (text ++ NUL :: rest) = Some s ∧ represents s text.
Proof.
  intros Hn. unfold String_from_cstr. rewrite strlen_app by done. simpl.
  rewrite fmap_app, copy_text by lia. simpl.
  replace (length text + 1 - length text) with 1 by lia. simpl.
  rewrite store_app. simpl. eexists. split; [done|]. apply represents_text.
Qed.

Lemma operator_out_represents outputStream s text :
  represents s text → NUL ∉ text →
  operator_out outputStream s = Some (outputStream ++ text).
Proof.
  intros [_ [spare Hdata]] Hn. unfold operator_out, c_str.
  rewrite Hdata. simpl. by rewrite cstring_app.
Qed.

Lemma copy_grow text post n :
  length text ≤ n →
  copy (Some ((Some <$> text) ++ post)) (length text) (new_array n) 0 =
    Some ((Some <$> text) ++ replicate (n - length text) None).
Proof.
  intros Hn.
  pose proof (copy_prefix (Some <$> text) post (new_array n) 0) as Hc.
  unfold new_array in *. rewrite length_fmap, length_replicate in Hc.
  rewrite Hc by lia. by rewrite drop_replicate.
Qed.

(** The loop of [operator>>] over characters that are no newline: the
    array always has a cell left behind the characters read. *)
Lemma read_loop_line line input text spare c :
  newline ∉ line →
  ∃ spare' c',
    read_loop (line ++ input) (length text) (length text + S (length spare))
      ((Some <$> text) ++ c :: spare) =
    read_loop input (length (text ++ line)) (length (text ++ line) + S (length spare'))
      ((Some <$> (text ++ line)) ++ c' :: spare').
Proof.
  revert text spare c. induction line as [|ch line IH]; intros text spare c Hn.
  - exists spare, c. by rewrite app_nil_r.
  - apply not_elem_of_cons in Hn as [Hch Hn]. csimpl.
    destruct (Ascii.eqb_spec ch newline) as [->|_]; [done|].
    destruct (decide (length text = length text + S (length spare) - 1)) as [Hfull|Hroom].
    + assert (spare = []) as -> by (apply nil_length_inv; lia).
      destruct (IH (text ++ [ch]) (replicate (length text) None) None Hn)
        as (spare' & c' & IH').
      exists spare', c'.
      rewrite copy_grow by (simpl; lia). csimpl.
      replace ((length text + 1) * 2 - length text) with (S (S (length text))) by lia.
      csimpl. rewrite store_app. csimpl.
      rewrite length_app, fmap_app, <- !app_assoc in IH'. csimpl in IH'.
      rewrite length_replicate in IH'.
      replace ((length text + 1) * 2) with (length text + 1 + S (length text)) by lia.
      exact IH'.
    + destruct spare as [|c0 spare]; [simpl in Hroom; lia|].
      destruct (IH (text ++ [ch]) spare c0 Hn) as (spare' & c' & IH').
      exists spare', c'.
      csimpl. rewrite store_app. csimpl.
      rewrite length_app, fmap_app, <- !app_assoc in IH'. csimpl in IH'.
      replace (length text + S (S (length spare)))
        with (length text + 1 + S (length spare)) by lia.
      exact IH'.
Qed.

Lemma read_loop_start line input :
  newline ∉ line →
  ∃ spare c,
    read_loop (line ++ input) 0 16 (new_array 16) =
    read_loop input (length line) (length line + S (length spare))
      ((Some <$> line) ++ c :: spare).
Proof.
  intros Hn.
  destruct (read_loop_line line input [] (replicate 15 None) None Hn)
    as (spare & c & Hl).
  exists spare, c. exact Hl.
Qed.

Lemma operator_in_newline line rest inputString :
  newline ∉ line →
  ∃ s, operator_in (mkIstream (line ++ newline :: rest) true) inputString =
         Some (mkIstream rest true, s) ∧ represents s line.
Proof.
  intros Hn. destruct (read_loop_start line (newline :: rest) Hn) as (spare & c & Hl).
  unfold operator_in. simpl good. cbv iota. simpl unread. rewrite Hl.
  csimpl. rewrite store_app. csimpl.
  eexists. split; [done|]. split; [done|]. by exists spare.
Qed.

Lemma operator_in_eof line inputString :
  newline ∉ line →
  ∃ s, operator_in (mkIstream line true) inputString =
         Some (mkIstream [] false, s) ∧ represents s line.
Proof.
  intros Hn. destruct (read_loop_start line [] Hn) as (spare & c & Hl).
  rewrite app_nil_r in Hl.
  unfold operator_in. simpl good. cbv iota. simpl unread. rewrite Hl.
  csimpl. rewrite store_app. csimpl.
  eexists. split; [done|]. split; [done|]. by exists spare.
Qed.

Lemma operator_plus_text (data : option (list cell)) text1 text2 spare :
  copy data (length text1) (make_unique (length text1 + length text2 + 1)) 0 =
    Some ((Some <$> text1) ++ replicate (length text2 + 1) (Some NUL)) →
  ∃ r, operator_plus (mkString (length text1) data)
         (mkString (length text2) (Some ((Some <$> text2) ++ Some NUL :: spare))) = Some r ∧
       represents r (text1 ++ text2).
Proof.
  intros Hc. unfold operator_plus. cbn [_strLength _strData]. rewrite Hc. csimpl.
  pose proof (copy_prefix (Some <$> text2) (Some NUL :: spare)
                ((Some <$> text1) ++ replicate (length text2 + 1) (Some NUL))
                (length text1)) as Hc2.
  rewrite !length_app, !length_fmap, length_replicate in Hc2.
  rewrite Hc2 by lia. csimpl.
  rewrite take_app_length', drop_app_add' by (by rewrite length_fmap).
  rewrite drop_replicate.
  replace (length text2 + 1 - length text2) with 1 by lia. csimpl.
  pose proof (store_app (text1 ++ text2) [] (Some NUL) NUL) as Hs.
  rewrite length_app, fmap_app, <- app_assoc in Hs. rewrite Hs. csimpl.
  eexists. split; [done|]. split; [by rewrite length_app|].
  exists []. by rewrite fmap_app, <- app_assoc.
Qed.

Lemma operator_plus_represents a b text1 text2 :
  represents a text1 → represents b text2 →
  ∃ r, operator_plus a b = Some r ∧ represents r (text1 ++ text2).
Proof.
  destruct a as [la da], b as [lb db].
  intros [Hla [sa Ha]] [Hlb [sb Hb]]. simpl in *. subst.
  apply operator_plus_text.
  rewrite copy_text by lia. csimpl. do 3 f_equal. lia.
Qed.

Lemma operator_eq_represents a b text1 text2 :
  represents a text1 → represents b text2 →
  operator_eq a b = Some (bool_decide (text1 = text2)).
Proof.
  intros [Hla [sa Ha]] [Hlb [sb Hb]]. unfold operator_eq.
  rewrite Ha, Hb, Hla, Hlb. simpl default. case_decide as Hlen.
  - by apply equal_app.
  - rewrite bool_decide_eq_false_2; [done|]. by intros ->.
Qed.

Lemma String_copy_represents sourceString text :
  represents sourceString text →
  ∃ s, String_copy sourceString = Some s ∧ represents s text.
Proof.
  intros [Hl [spare Hd]]. unfold String_copy. rewrite Hd, Hl.
  rewrite copy_text by lia. csimpl.
  replace (length text + 1 - length text) with 1 by lia. csimpl.
  rewrite store_app. csimpl. eexists. split; [done|]. apply represents_text.
Qed.

(** X26: a string constructed from a C string has the length of the
    characters before the terminating zero, and [operator<<] gives the
    stream these characters; no access leaves an array. *)
Theorem X26_String_from_C_string text rest outputStream :
  NUL ∉ text →
  ∃ s, String_from_cstr (text ++ NUL :: rest) = Some s ∧
       _strLength s = length text ∧
       operator_out outputStream s = Some (outputStream ++ text).
Proof.
  intros Hn. destruct (String_from_cstr_represents text rest Hn) as (s & Hs & Hr).
  exists s. split; [done|]. split; [apply Hr|].
  by apply operator_out_represents.
Qed.

Lemma X26_witness :
  ∃ s, String_from_cstr (Decompress.chars "Hello" ++ NUL :: Decompress.chars "*") = Some s ∧
       _strLength s = length (Decompress.chars "Hello") ∧
       operator_out [] s = Some ([] ++ Decompress.chars "Hello").
Proof.
  apply X26_String_from_C_string.
  apply (bool_decide_unpack _). vm_compute. exact I.
Defined.

(** X27: [operator+] of two strings that satisfy the class invariant
    returns a string that satisfies it and stands for the concatenation
    of their texts. *)
Theorem X27_operator_plus_concatenates a b text1 text2 :
  represents a text1 → represents b text2 →
  ∃ r, operator_plus a b = Some r ∧ represents r (text1 ++ text2).
Proof. apply operator_plus_represents. Qed.

Lemma X27_witness :
  ∃ r, operator_plus (mkString 2 (Some (Some <$> Decompress.chars "ab" ++ [NUL])))
                     (mkString 1 (Some (Some <$> Decompress.chars "c" ++ [NUL]))) = Some r ∧
       represents r (Decompress.chars "ab" ++ Decompress.chars "c").
Proof.
  apply X27_operator_plus_concatenates; (split; [reflexivity|by exists []]).
Defined.

(** X28: [operator==] of two strings that satisfy the class invariant
    returns whether their texts are equal, without an access outside
    their arrays. *)
Theorem X28_operator_eq_compares_texts a b text1 text2 :
  represents a text1 → represents b text2 →
  operator_eq a b = Some (bool_decide (text1 = text2)).
Proof. apply operator_eq_represents. Qed.

Lemma X28_witness :
  operator_eq (mkString 2 (Some (Some <$> Decompress.chars "ab" ++ [NUL])))
              (mkString 2 (Some (Some <$> Decompress.chars "ac" ++ [NUL; NUL]))) =
    Some (bool_decide (Decompress.chars "ab" = Decompress.chars "ac")).
Proof.
  apply X28_operator_eq_compares_texts.
  - split; [reflexivity|by exists []].
  - split; [reflexivity|by exists [Some NUL]].
Defined.

(** X29: [operator>>] on a good stream reads one line of any length
    without writing outside its array: the string stands for the
    characters before the first newline, which is consumed and leaves
    the stream good; where no newline follows, the string stands for all
    the characters left and the stream has failed. *)
Theorem X29_operator_in_reads_a_line line inputString :
  newline ∉ line →
  (∀ rest, ∃ s, operator_in (mkIstream (line ++ newline :: rest) true) inputString =
                  Some (mkIstream rest true, s) ∧ represents s line) ∧
  (∃ s, operator_in (mkIstream line true) inputString =
          Some (mkIstream [] false, s) ∧ represents s line).
Proof.
  intros Hn. split.
  - intros rest. by apply operator_in_newline.
  - by apply operator_in_eof.
Qed.

Lemma X29_witness :
  (∀ rest, ∃ s, operator_in (mkIstream (Decompress.chars "Hello, the 17th character"
                                         ++ newline :: rest) true)
                  (mkString 0 None) =
                  Some (mkIstream rest true, s) ∧
                represents s (Decompress.chars "Hello, the 17th character")) ∧
  (∃ s, operator_in (mkIstream (Decompress.chars "Hello, the 17th character") true)
          (mkString 0 None) =
          Some (mkIstream [] false, s) ∧
        represents s (Decompress.chars "Hello, the 17th character")).
Proof.
  apply X29_operator_in_reads_a_line.
  apply (bool_decide_unpack _). vm_compute. exact I.
Defined.

(** X30: the move constructor hands the array to the new string and
    leaves the source with length zero and no array: its c_str() is a
    null pointer.  The source is copied and appended like the empty
    string and compares equal to an empty string, without an access
    through the null pointer. *)
Theorem X30_moved_from_string s b text :
  represents b text →
  (String_move s).1 = s ∧
  _strLength (String_move s).2 = 0 ∧
  c_str (String_move s).2 = None ∧
  operator_eq (String_move s).2 b = Some (bool_decide (text = [])) ∧
  (∃ r, operator_plus (String_move s).2 b = Some r ∧ represents r text) ∧
  (∃ r, String_copy (String_move s).2 = Some r ∧ represents r []).
Proof.
  intros Hb. split; [by destruct s|]. split; [done|]. split; [done|]. split; [|split].
  - destruct Hb as [Hl [spare Hd]]. unfold operator_eq. simpl.
    rewrite Hl. by destruct text.
  - destruct b as [lb db]. destruct Hb as [Hl [spare Hd]]. simpl in *. subst.
    apply (operator_plus_text None [] text spare). done.
  - eexists. split; [reflexivity|]. split; [done|]. by exists [].
Qed.

Lemma X30_witness :
  (String_move (mkString 1 (Some [Some NUL; Some NUL]))).1 =
    mkString 1 (Some [Some NUL; Some NUL]) ∧
  _strLength (String_move (mkString 1 (Some [Some NUL; Some NUL]))).2 = 0 ∧
  c_str (String_move (mkString 1 (Some [Some NUL; Some NUL]))).2 = None ∧
  operator_eq (String_move (mkString 1 (Some [Some NUL; Some NUL]))).2
              (mkString 0 (Some [Some NUL])) = Some (bool_decide (@nil ascii = [])) ∧
  (∃ r, operator_plus (String_move (mkString 1 (Some [Some NUL; Some NUL]))).2
                      (mkString 0 (Some [Some NUL])) = Some r ∧ represents r []) ∧
  (∃ r, String_copy (String_move (mkString 1 (Some [Some NUL; Some NUL]))).2 = Some r ∧
        represents r []).
Proof.
  apply X30_moved_from_string. split; [reflexivity|by exists []].
Defined.

End user_string.
